(** * Route comparison analytics: a shallow embedding of the GPS pipeline

    The development embeds the analytics of the route-comparison
    application (utils.js, FileParser.js and the series that
    ChartManager.js draws) and proves the properties its specification
    states about them (Part II), then what else the code guarantees along
    the pipeline from a parsed file to the charts, the splits and the
    time gaps (Part III).

    Number model.  A JavaScript number is a double.  Where a result does
    not depend on how the arithmetic rounds (which entries are null, which
    branch is taken away from a boundary, which array entry is read, how
    loops are bounded) the number is embedded as a rational [Q]:
    arithmetic is exact, [===] on numbers is [Qeq_bool], [<=] is
    [Qle_bool]; NaN and the infinities have no counterpart there.  Where
    the rounding decides (the time interpolated at a recorded distance,
    the windows of the splits, the great-circle distance of near-antipodal
    points) the code is embedded once more over binary64 ([Double]), the
    primitive floats of Rocq, with NaN, the infinities and the two zeros.
    A nullable number is an [option] ([None] is [null]; a read past the
    end of an array, [undefined] in the source, is [None] as well).  A
    [Date] is the number of milliseconds it holds; a Date object is always
    truthy, whatever its value.  A formatted value is the [string] the
    template literal builds; an integer in it is printed as its digits,
    which is what JavaScript prints up to 2^53.

    The great-circle distance is transcendental.  It is embedded over the
    reals ([Geo.haversineDistance]) and over the doubles
    ([Double.haversineDistance], with [Math.sin], [Math.cos] and
    [Math.atan2] as parameters, since their last bit is the engine's);
    the rational pipeline takes the distance function as a parameter (the
    first argument of the functions that measure ground distance).  Every
    finite double is a rational, so the function a JavaScript engine
    computes for [haversineDistance] is one of the functions the parameter
    ranges over wherever it returns a finite number. *)

From Stdlib Require Import Reals Lra.
From Stdlib Require Import QArith Qround Qabs ZArith List Lia Lqa Bool.
From Stdlib Require Floats.
Set Warnings "-inexact-float".
From Stdlib Require String DecimalString.
Import ListNotations.

(* ================================================================== *)
(** * Part I: the embedding *)
(* ================================================================== *)

(** ** GeoMath over the reals *)

Module Geo.
Local Open Scope R_scope.

Record Coordinate : Set := mkCoordinate { lat : R; lng : R }.

(** [Math.atan2(y, x)]: the angle of the point [(x, y)], in (-PI, PI]. *)
Definition atan2 (y x : R) : R :=
  if Rlt_dec 0 x then atan (y / x)
  else if Rlt_dec x 0 then
    (if Rle_dec 0 y then atan (y / x) + PI else atan (y / x) - PI)
  else if Rlt_dec 0 y then PI / 2
  else if Rlt_dec y 0 then - (PI / 2)
  else 0.

Definition toRad (deg : R) : R := deg * (PI / 180).

Definition haversineDistance (coord1 coord2 : Coordinate) : R :=
  let R := 6371 in
  let dLat := toRad (lat coord2 - lat coord1) in
  let dLon := toRad (lng coord2 - lng coord1) in
  let a := sin (dLat / 2) * sin (dLat / 2) +
           cos (toRad (lat coord1)) * cos (toRad (lat coord2)) *
           sin (dLon / 2) * sin (dLon / 2) in
  let c := 2 * atan2 (sqrt a) (sqrt (1 - a)) in
  R * c.

End Geo.

(** ** Utils over the rationals *)

Module Utils.
Local Open Scope Q_scope.

(** Strict comparison [a < b] of two numbers. *)
Definition Qltb (a b : Q) : bool := negb (Qle_bool b a).

(** [!x] for a nullable number: [null] and [0] are falsy. *)
Definition falsy (x : option Q) : bool :=
  match x with
  | None => true
  | Some q => Qeq_bool q 0
  end.

(** [!x] for a nullable object (a Date): only [null] is falsy. *)
Definition missing {A : Type} (x : option A) : bool :=
  match x with
  | None => true
  | Some _ => false
  end.

(** [ToNumber] as the relational operators apply it: [null] counts as 0. *)
Definition toNumber (x : option Q) : Q :=
  match x with
  | None => 0
  | Some q => q
  end.

(** [arr[i] = v]: overwrites in range, extends the array past its end. *)
Fixpoint js_set {A : Type} (hole : A) (l : list A) (i : nat) (v : A) : list A :=
  match i, l with
  | O, [] => [v]
  | O, _ :: t => v :: t
  | S i', [] => hole :: js_set hole [] i' v
  | S i', x :: t => x :: js_set hole t i' v
  end.

(** What a loop that may not terminate yields under a step budget. *)
Inductive Outcome (A : Type) : Type :=
  | OutOfFuel : Outcome A
  | Returned : A -> Outcome A.
Arguments OutOfFuel {A}.
Arguments Returned {A} _.

Record Coordinate : Set := mkCoordinate { lat : Q; lng : Q }.

Definition origin : Coordinate := {| lat := 0; lng := 0 |}.

(** The per-point arrays of a route that the analytics read.  An absent
    array behaves as the empty one in every function below. *)
Record Route : Set := mkRoute {
  coordinates : list Coordinate;
  elevations : list (option Q);
  timestamps : list (option Z);
  heartRates : list (option Q)
}.

(** *** calculateElevationStats *)

Record ElevationStats : Set := mkElevationStats {
  gain : Q; loss : Q; min : Q; max : Q
}.

Definition validElevations (elevations : list (option Q)) : list Q :=
  flat_map (fun e => match e with Some x => [x] | None => [] end) elevations.

Fixpoint elevationLoop (prev : Q) (rest : list Q) (acc : ElevationStats)
  : ElevationStats :=
  match rest with
  | [] => acc
  | cur :: rest' =>
      let diff := cur - prev in
      elevationLoop cur rest'
        {| gain := if Qltb 0 diff then gain acc + diff else gain acc;
           loss := if Qltb 0 diff then loss acc else loss acc + Qabs diff;
           min := if Qltb cur (min acc) then cur else min acc;
           max := if Qltb (max acc) cur then cur else max acc |}
  end.

Definition calculateElevationStats (elevations : list (option Q))
  : ElevationStats :=
  match validElevations elevations with
  | [] => {| gain := 0; loss := 0; min := 0; max := 0 |}
  | first :: rest =>
      elevationLoop first rest
        {| gain := 0; loss := 0; min := first; max := first |}
  end.

(** *** filterAccelerationSpikes *)

Definition accelerationStep (speeds : list (option Q))
    (timestamps : list (option Z)) (maxAcceleration : Q) (i : nat)
  : option Q :=
  let si := nth i speeds None in
  let sp := nth (i - 1) speeds None in
  match nth i timestamps None, nth (i - 1) timestamps None with
  | Some ti, Some tp =>
      if falsy si || falsy sp then si
      else
        let deltaSpeed := Qabs (toNumber si - toNumber sp) * (1000 / 3600) in
        let deltaTime := inject_Z (ti - tp) / 1000 in
        if Qltb 0 deltaTime then
          if Qltb maxAcceleration (deltaSpeed / deltaTime) then None else si
        else si
  | _, _ => si
  end.

Definition filterAccelerationSpikes (speeds : list (option Q))
    (timestamps : list (option Z)) (maxAcceleration : Q)
  : list (option Q) :=
  if (length speeds <? 2)%nat then speeds
  else nth 0 speeds None ::
       map (accelerationStep speeds timestamps maxAcceleration)
           (seq 1 (length speeds - 1)).

Definition defaultMaxAcceleration : Q := 10.

Section WithDistance.

(** The ground distance between two coordinates, in kilometres. *)
Variable haversineDistance : Coordinate -> Coordinate -> Q.

(** *** filterDistanceJumps *)

Definition distanceJumpStep (coordinates : list Coordinate)
    (timestamps : list (option Z)) (maxSpeedKmh : Q) (i : nat) : bool :=
  match nth i timestamps None, nth (i - 1) timestamps None with
  | Some ti, Some tp =>
      let distance :=
        haversineDistance (nth (i - 1) coordinates origin)
                          (nth i coordinates origin) * 1000 in
      let deltaTime := inject_Z (ti - tp) / 1000 in
      if Qltb 0 deltaTime then
        let impliedSpeed := (distance / deltaTime) * 3.6 in
        if Qltb maxSpeedKmh impliedSpeed then false else true
      else true
  | _, _ => true
  end.

Definition filterDistanceJumps (coordinates : list Coordinate)
    (timestamps : list (option Z)) (maxSpeedKmh : Q) : list bool :=
  if (length coordinates <? 2)%nat then map (fun _ => true) coordinates
  else true ::
       map (distanceJumpStep coordinates timestamps maxSpeedKmh)
           (seq 1 (length coordinates - 1)).

(** *** cleanGPSData *)

Record Cleaned : Set := mkCleaned {
  speeds : list (option Q);
  paces : list (option Q);
  validIndices : list nat
}.

Definition invalidate (cleaned : Cleaned) (i : nat) : Cleaned :=
  {| speeds := js_set None (speeds cleaned) i None;
     paces := js_set None (paces cleaned) i None;
     validIndices := validIndices cleaned |}.

Definition cleanStep (rawSpeeds : list (option Q)) (distanceFlags : list bool)
    (accelFiltered : list (option Q)) (maxSpeed : Q)
    (cleaned : Cleaned) (i : nat) : Cleaned :=
  if negb (nth i distanceFlags false) || missing (nth i accelFiltered None)
  then invalidate cleaned i
  else if Qltb maxSpeed (toNumber (nth i rawSpeeds None))
          || Qltb (toNumber (nth i rawSpeeds None)) 0
  then invalidate cleaned i
  else {| speeds := speeds cleaned;
          paces := paces cleaned;
          validIndices := validIndices cleaned ++ [i] |}.

Definition cleanGPSData (rawSpeeds rawPaces : list (option Q))
    (coordinates : list Coordinate) (timestamps : list (option Z))
    (maxSpeed : Q) : Cleaned :=
  let distanceFlags := filterDistanceJumps coordinates timestamps maxSpeed in
  let accelFiltered :=
    filterAccelerationSpikes rawSpeeds timestamps defaultMaxAcceleration in
  fold_left (cleanStep rawSpeeds distanceFlags accelFiltered maxSpeed)
            (seq 0 (length rawSpeeds))
            {| speeds := rawSpeeds; paces := rawPaces; validIndices := [] |}.

(** *** buildTimeDistanceMap *)

Record DistanceTimeMap : Set := mkDistanceTimeMap {
  distances : list Q;
  times : list Q
}.

Definition buildStep (route : Route) (startTime : Z)
    (st : Q * DistanceTimeMap) (i : nat) : Q * DistanceTimeMap :=
  let dist := haversineDistance (nth (i - 1) (coordinates route) origin)
                                (nth i (coordinates route) origin) in
  let cumulativeDistance := fst st + dist in
  match nth i (timestamps route) None with
  | Some t =>
      let elapsedTime := inject_Z (t - startTime) / 1000 in
      (cumulativeDistance,
       {| distances := distances (snd st) ++ [cumulativeDistance];
          times := times (snd st) ++ [elapsedTime] |})
  | None => (cumulativeDistance, snd st)
  end.

Definition buildTimeDistanceMap (route : Route) : option DistanceTimeMap :=
  match nth 0 (timestamps route) None with
  | None => None
  | Some startTime =>
      if (startTime =? 0)%Z then None
      else
        let map :=
          snd (fold_left (buildStep route startTime)
                         (seq 1 (length (coordinates route) - 1))
                         (0, {| distances := [0]; times := [0] |})) in
        if (1 <? length (distances map))%nat then Some map else None
  end.

(** *** getTimeAtDistance *)

(** The bisection loop shared by [getTimeAtDistance] and
    [findIndexAtDistance].  [fuel] bounds the number of iterations; the
    callers pass the length of the array, which the loop never uses up
    ([bisect_fuel] in Part II). *)
Fixpoint bisect (fuel : nat) (ds : list Q) (target : Q) (low high : nat)
  : nat * nat :=
  match fuel with
  | O => (low, high)
  | S fuel' =>
      if (low <? high - 1)%nat then
        let mid := ((low + high) / 2)%nat in
        if Qle_bool (nth mid ds 0) target
        then bisect fuel' ds target mid high
        else bisect fuel' ds target low mid
      else (low, high)
  end.

Definition getTimeAtDistance (map : DistanceTimeMap) (targetDistance : Q)
  : option Q :=
  let ds := distances map in
  if (length ds <? 2)%nat then None
  else if Qltb (nth (length ds - 1) ds 0) targetDistance then None
  else if Qle_bool targetDistance 0 then Some 0
  else
    let lh := bisect (length ds) ds targetDistance 0 (length ds - 1) in
    let d1 := nth (fst lh) ds 0 in
    let d2 := nth (snd lh) ds 0 in
    let t1 := nth (fst lh) (times map) 0 in
    let t2 := nth (snd lh) (times map) 0 in
    if Qeq_bool d2 d1 then Some t1
    else
      let ratio := (targetDistance - d1) / (d2 - d1) in
      Some (t1 + ratio * (t2 - t1)).

(** *** calculateTimeGaps *)

Record Comparison : Set := mkComparison {
  route : Route;
  time : Q;
  gap : Q
}.

Record GapPoint : Set := mkGapPoint {
  distance : Q;
  referenceTime : Q;
  comparisons : list Comparison
}.

Record TimeGaps : Set := mkTimeGaps {
  referenceRoute : Route;
  gaps : list GapPoint;
  maxDistance : Q
}.

(** [comparisonRoutes.map(r => ({route, map})).filter(c => c.map !== null)] *)
Definition buildCompMaps (comparisonRoutes : list Route)
  : list (Route * DistanceTimeMap) :=
  flat_map (fun r => match buildTimeDistanceMap r with
                     | Some m => [(r, m)]
                     | None => []
                     end) comparisonRoutes.

Definition lastDistance (m : DistanceTimeMap) : Q :=
  nth (length (distances m) - 1) (distances m) 0.

(** [Math.min(first, ...rest)] *)
Definition minOf (first : Q) (rest : list Q) : Q :=
  fold_left (fun acc x => if Qltb x acc then x else acc) rest first.

(** The comparison entries pushed for one sample. *)
Definition comparisonsAt (compMaps : list (Route * DistanceTimeMap))
    (d refTime : Q) : list Comparison :=
  flat_map (fun c => match getTimeAtDistance (snd c) d with
                     | Some compTime =>
                         [{| route := fst c; time := compTime;
                             gap := compTime - refTime |}]
                     | None => []
                     end) compMaps.

(** One iteration of the sampling loop: the point pushed, if any. *)
Definition samplePoint (refMap : DistanceTimeMap)
    (compMaps : list (Route * DistanceTimeMap)) (d : Q) : option GapPoint :=
  match getTimeAtDistance refMap d with
  | None => None
  | Some refTime =>
      match comparisonsAt compMaps d refTime with
      | [] => None
      | cs => Some {| distance := d; referenceTime := refTime;
                      comparisons := cs |}
      end
  end.

(** [for (let d = 0; d <= maxDist; d += sampleInterval)] from the current
    [d] and [gaps]. *)
Fixpoint sampleLoop (fuel : nat) (refMap : DistanceTimeMap)
    (compMaps : list (Route * DistanceTimeMap)) (maxDist sampleInterval : Q)
    (d : Q) (gaps : list GapPoint) : Outcome (list GapPoint) :=
  if Qle_bool d maxDist then
    match fuel with
    | O => OutOfFuel
    | S fuel' =>
        sampleLoop fuel' refMap compMaps maxDist sampleInterval
          (d + sampleInterval)
          match samplePoint refMap compMaps d with
          | Some point => gaps ++ [point]
          | None => gaps
          end
    end
  else Returned gaps.

Definition calculateTimeGaps (fuel : nat) (referenceRoute : Route)
    (comparisonRoutes : list Route) (sampleInterval : Q)
  : Outcome (option TimeGaps) :=
  match buildTimeDistanceMap referenceRoute with
  | None => Returned None
  | Some refMap =>
      match buildCompMaps comparisonRoutes with
      | [] => Returned None
      | compMaps =>
          let maxDist :=
            minOf (lastDistance refMap)
                  (map (fun c => lastDistance (snd c)) compMaps) in
          match sampleLoop fuel refMap compMaps maxDist sampleInterval 0 [] with
          | OutOfFuel => OutOfFuel
          | Returned gaps =>
              Returned (Some {| referenceRoute := referenceRoute;
                                gaps := gaps;
                                maxDistance := maxDist |})
          end
      end
  end.

Definition defaultSampleInterval : Q := 0.1.

(** *** Splits *)

Definition findIndexAtDistance (distances : list Q) (targetKm : Q) : nat :=
  if (length distances =? 0)%nat then 0%nat
  else if Qle_bool targetKm 0 then 0%nat
  else if Qle_bool (nth (length distances - 1) distances 0) targetKm
  then (length distances - 1)%nat
  else fst (bisect (length distances) distances targetKm
                   0 (length distances - 1)).

Definition calculateSplitPace (route : Route) (startIdx endIdx : nat)
  : option Q :=
  if (endIdx <=? startIdx)%nat then None
  else
    match nth startIdx (timestamps route) None,
          nth endIdx (timestamps route) None with
    | Some startTime, Some endTime =>
        let durationSeconds := inject_Z (endTime - startTime) / 1000 in
        if Qle_bool durationSeconds 0 then None
        else
          let segmentDistance :=
            fold_left
              (fun acc i =>
                 acc + haversineDistance
                         (nth (i - 1) (coordinates route) origin)
                         (nth i (coordinates route) origin))
              (seq (startIdx + 1) (endIdx - startIdx)) 0 in
          if Qle_bool segmentDistance 0 then None
          else
            let paceMinPerKm := (durationSeconds / 60) / segmentDistance in
            if Qltb 0 paceMinPerKm && Qltb paceMinPerKm 30
            then Some paceMinPerKm else None
    | _, _ => None
    end.

Definition calculateSplitElevGain (elevations : list (option Q))
    (startIdx endIdx : nat) : Q :=
  if (endIdx <=? startIdx)%nat then 0
  else
    fold_left
      (fun gain i =>
         match nth (i - 1) elevations None, nth i elevations None with
         | Some prev, Some curr =>
             let diff := curr - prev in
             if Qltb 0 diff then gain + diff else gain
         | _, _ => gain
         end)
      (seq (startIdx + 1) (endIdx - startIdx)) 0.

Definition calculateSplitAvg (arr : list (option Q)) (startIdx endIdx : nat)
  : option Q :=
  if (endIdx <=? startIdx)%nat then None
  else
    let segment := firstn (endIdx + 1 - startIdx) (skipn startIdx arr) in
    let valid :=
      flat_map (fun v => match v with Some x => [x] | None => [] end) segment in
    match valid with
    | [] => None
    | _ => Some (fold_left Qplus valid 0 / inject_Z (Z.of_nat (length valid)))
    end.

Record Split : Set := mkSplit {
  number : nat;
  startKm : Q;
  endKm : Q;
  splitDistance : Q;  (* the [distance] field *)
  isPartial : bool;
  pace : option Q;
  elevGain : Q;
  avgHR : option Q
}.

(** The cumulative distance array:
    [distances[i] = distances[i-1] + d(i-1, i)]. *)
Definition cumulativeDistances (coordinates : list Coordinate) : list Q :=
  fold_left
    (fun distances i =>
       distances ++
       [nth (i - 1) distances 0 +
        haversineDistance (nth (i - 1) coordinates origin)
                          (nth i coordinates origin)])
    (seq 1 (length coordinates - 1)) [0].

Definition makeSplit (route : Route) (distances : list Q)
    (totalDistance splitDistanceKm : Q) (splitNum : nat) (currentKm : Q)
  : Split :=
  let startKm := currentKm in
  let endKm := if Qltb totalDistance (currentKm + splitDistanceKm)
               then totalDistance else currentKm + splitDistanceKm in
  let isPartialSplit := Qltb (endKm - startKm) (splitDistanceKm * 0.9) in
  let startIdx := findIndexAtDistance distances startKm in
  let endIdx := findIndexAtDistance distances endKm in
  {| number := splitNum;
     startKm := startKm;
     endKm := endKm;
     splitDistance := endKm - startKm;
     isPartial := isPartialSplit;
     pace := calculateSplitPace route startIdx endIdx;
     elevGain := calculateSplitElevGain (elevations route) startIdx endIdx;
     avgHR := calculateSplitAvg (heartRates route) startIdx endIdx |}.

(** [while (currentKm < totalDistance)] from the current loop state. *)
Fixpoint splitLoop (fuel : nat) (route : Route) (distances : list Q)
    (totalDistance splitDistanceKm : Q) (splitNum : nat) (currentKm : Q)
    (splits : list Split) : Outcome (list Split) :=
  if Qltb currentKm totalDistance then
    match fuel with
    | O => OutOfFuel
    | S fuel' =>
        splitLoop fuel' route distances totalDistance splitDistanceKm
          (splitNum + 1) (currentKm + splitDistanceKm)
          (splits ++ [makeSplit route distances totalDistance splitDistanceKm
                                splitNum currentKm])
    end
  else Returned splits.

Definition calculateSplits (fuel : nat) (route : Route) (splitDistanceKm : Q)
  : Outcome (list Split) :=
  if (length (coordinates route) <? 2)%nat then Returned []
  else
    let distances := cumulativeDistances (coordinates route) in
    let totalDistance := nth (length distances - 1) distances 0 in
    splitLoop fuel route distances totalDistance splitDistanceKm 1 0 [].

(** *** calculateDistance *)

Definition calculateDistance (coords : list Coordinate) : Q :=
  fold_left
    (fun totalDistance i =>
       totalDistance + haversineDistance (nth (i - 1) coords origin)
                                         (nth i coords origin))
    (seq 1 (length coords - 1)) 0.

End WithDistance.

(** *** Robust statistics *)

(** [[...arr].sort((a, b) => a - b)]: a stable ascending sort. *)
Fixpoint insertSorted (x : Q) (sorted : list Q) : list Q :=
  match sorted with
  | [] => [x]
  | y :: rest =>
      if Qle_bool x y then x :: sorted else y :: insertSorted x rest
  end.

Definition sortNumbers (arr : list Q) : list Q :=
  fold_right insertSorted [] arr.

Definition median (arr : list Q) : option Q :=
  match arr with
  | [] => None
  | _ =>
      let sorted := sortNumbers arr in
      let mid := (length sorted / 2)%nat in
      if (length sorted mod 2 =? 0)%nat
      then Some ((nth (mid - 1) sorted 0 + nth mid sorted 0) / 2)
      else Some (nth mid sorted 0)
  end.

(** [{median, mad}] *)
Definition calculateMAD (arr : list Q) : option Q * option Q :=
  match arr with
  | [] => (None, None)
  | _ =>
      let med := median arr in
      let deviations := map (fun val => Qabs (val - toNumber med)) arr in
      (med, median deviations)
  end.

Definition filterOutliersIQR (data : list Q) (multiplier : Q) : list Q :=
  if (length data <? 4)%nat then data
  else
    let sorted := sortNumbers data in
    let q1Index := (length sorted / 4)%nat in
    let q3Index := (length sorted * 3 / 4)%nat in
    let q1 := nth q1Index sorted 0 in
    let q3 := nth q3Index sorted 0 in
    let iqr := q3 - q1 in
    let lowerBound := q1 - multiplier * iqr in
    let upperBound := q3 + multiplier * iqr in
    filter (fun val => Qle_bool lowerBound val && Qle_bool val upperBound) data.

Definition filterOutliersMAD (data : list Q) (threshold : Q) : list Q :=
  if (length data <? 4)%nat then data
  else
    match calculateMAD data with
    | (Some med, Some mad) =>
        if Qeq_bool mad 0 then data
        else
          filter
            (fun val =>
               let modifiedZScore := 0.6745 * Qabs (val - med) / mad in
               Qle_bool modifiedZScore threshold)
            data
    | _ => data
    end.

(** [data.slice(start, end)] *)
Definition slice {A : Type} (data : list A) (start stop : nat) : list A :=
  firstn (stop - start) (skipn start data).

(** [.filter(v => v !== null && !isNaN(v))] *)
Definition validValues (window : list (option Q)) : list Q :=
  flat_map (fun v => match v with Some x => [x] | None => [] end) window.

Definition rollingMedianAt (data : list (option Q)) (halfWindow i : nat)
  : option Q :=
  let start := (i - halfWindow)%nat in
  let stop := Nat.min (length data) (i + halfWindow + 1) in
  match validValues (slice data start stop) with
  | [] => nth i data None
  | window => median window
  end.

Definition rollingMedian (data : list (option Q)) (windowSize : nat)
  : list (option Q) :=
  if (length data <? windowSize)%nat then data
  else
    let halfWindow := (windowSize / 2)%nat in
    map (rollingMedianAt data halfWindow) (seq 0 (length data)).

(** *** Display smoothing *)

Definition smoothDataAt (data : list (option Q)) (windowSize i : nat)
  : option Q :=
  let start := (i - windowSize / 2)%nat in
  let stop := Nat.min (length data) (i + windowSize / 2 + 1) in
  let valid := validValues (slice data start stop) in
  let sum := fold_left Qplus valid 0 in
  let count := length valid in
  if (0 <? count)%nat then Some (sum / inject_Z (Z.of_nat count))
  else nth i data None.

Definition smoothData (data : list (option Q)) (windowSize : nat)
  : list (option Q) :=
  if (length data <? windowSize)%nat then data
  else map (smoothDataAt data windowSize) (seq 0 (length data)).

(** [for (let i = factor; i < data.length - 1; i += factor)] from the
    current [i] and the two arrays under construction. *)
Fixpoint decimateLoop (fuel : nat) (data distances : list (option Q))
    (factor i : nat) (decimated : list (option Q) * list (option Q))
  : Outcome (list (option Q) * list (option Q)) :=
  if (i <? length data - 1)%nat then
    match fuel with
    | O => OutOfFuel
    | S fuel' =>
        decimateLoop fuel' data distances factor (i + factor)
          (fst decimated ++ [nth i data None],
           snd decimated ++ [nth i distances None])
    end
  else Returned decimated.

(** [{data, distances}], as a pair. *)
Definition decimateData (fuel : nat) (data distances : list (option Q))
    (factor : nat) : Outcome (list (option Q) * list (option Q)) :=
  if (length data <=? factor * 2)%nat then Returned (data, distances)
  else
    match decimateLoop fuel data distances factor factor
            ([nth 0 data None], [nth 0 distances None]) with
    | OutOfFuel => OutOfFuel
    | Returned decimated =>
        Returned
          (fst decimated ++ [nth (length data - 1) data None],
           snd decimated ++ [nth (length distances - 1) distances None])
    end.

(** [{windowSize, decimationFactor}], as a pair. *)
Definition getAdaptiveSmoothingParams (totalDistanceKm : Q) : nat * nat :=
  if Qltb totalDistanceKm 10 then (50, 5)%nat
  else if Qltb totalDistanceKm 25 then (100, 10)%nat
  else if Qltb totalDistanceKm 50 then (200, 15)%nat
  else if Qltb totalDistanceKm 100 then (300, 25)%nat
  else (500, 50)%nat.

(** *** Formatting *)

Section Formatting.
Import String.
Local Open Scope string_scope.

(** [Math.round]: to the nearest integer, a tie towards positive
    infinity. *)
Definition round (x : Q) : Z := Qfloor (x + (1 # 2)).

(** [a % b]: the remainder of the division truncated towards zero. *)
Definition rem (a b : Q) : Q :=
  let q := a / b in
  a - b * inject_Z (if Qle_bool 0 q then Qfloor q else Qceiling q).

(** 2^53: up to it every integer is a double and prints as its
    digits. *)
Definition maxSafeInteger : Q := 9007199254740992.

(** An integer in a template literal: its decimal digits, with a minus
    sign when negative.  JavaScript prints these digits for an integer
    of magnitude up to [maxSafeInteger]; above it prints the shortest
    digits that read back as the same double, and from 10^21 the
    exponent form, neither of which is modelled: the theorems about
    formatted numbers carry the bound. *)

Definition showZ (z : Z) : string :=
  DecimalString.NilZero.string_of_int (Z.to_int z).

(** [s.padStart(2, '0')] *)
Definition padStart2 (s : string) : string :=
  match String.length s with
  | O => "00" ++ s
  | 1%nat => "0" ++ s
  | _ => s
  end.

Definition formatDuration (seconds : option Q) : string :=
  if falsy seconds then "N/A"
  else
    let s := toNumber seconds in
    let hours := Qfloor (s / 3600) in
    let mins := Qfloor (rem s 3600 / 60) in
    let secs := round (rem s 60) in
    if (0 <? hours)%Z then showZ hours ++ "h " ++ showZ mins ++ "m"
    else if (0 <? mins)%Z then showZ mins ++ "m " ++ showZ secs ++ "s"
    else showZ secs ++ "s".

Definition formatBreakDuration (seconds : option Q) : string :=
  if falsy seconds then "N/A"
  else
    let s := toNumber seconds in
    if Qltb s 60 then showZ (round s) ++ " seconds"
    else
      let mins := Qfloor (s / 60) in
      let secs := round (rem s 60) in
      showZ mins ++ ":" ++ padStart2 (showZ secs).

Definition formatPace (minPerKm : option Q) : string :=
  match minPerKm with
  | None => "N/A"
  | Some p =>
      if Qle_bool p 0 || Qltb 20 p then "N/A"
      else
        let mins := Qfloor p in
        let secs := round ((p - inject_Z mins) * 60) in
        showZ mins ++ ":" ++ padStart2 (showZ secs) ++ " /km"
  end.

Definition formatTimeDelta (seconds : option Q) : string :=
  match seconds with
  | None => "N/A"
  | Some s =>
      let sign := if Qle_bool 0 s then "+" else "-" in
      let absSeconds := Qabs s in
      let mins := Qfloor (absSeconds / 60) in
      let secs := Qfloor (rem absSeconds 60) in
      if (0 <? mins)%Z
      then sign ++ showZ mins ++ ":" ++ padStart2 (showZ secs)
      else sign ++ showZ secs ++ "s"
  end.

Definition formatSplitPace (pace : option Q) : string :=
  match pace with
  | None => "N/A"
  | Some p =>
      let mins := Qfloor p in
      let secs := round ((p - inject_Z mins) * 60) in
      showZ mins ++ ":" ++ padStart2 (showZ secs)
  end.

Definition formatSplitElevation (meters : option Q) : string :=
  match meters with
  | None => "N/A"
  | Some m =>
      let rounded := round m in
      if (0 <=? rounded)%Z then "+" ++ showZ rounded ++ "m"
      else showZ rounded ++ "m"
  end.

End Formatting.

End Utils.

(** ** Utils over the doubles

    The functions whose result depends on how the arithmetic rounds,
    embedded over binary64: [+], [-], [*], [/], [Math.sqrt] and the
    comparisons are those of IEEE 754 in round-to-nearest-even, which the
    primitive floats are.  A decimal literal denotes the double nearest
    to it, as it does in JavaScript. *)

Module Double.
Import Floats.
Local Open Scope float_scope.

(** *** The order of the doubles *)

(** The place of a double on the number line, as an integer: two doubles
    that are not NaN compare as their keys do ([SFcompare_key] in
    Part II).  The exponent of a binary64 number lies between -1074 and
    971 and its mantissa below 2^53, which is 9007199254740992. *)
Definition orderKey (f : spec_float) : Z :=
  match f with
  | S754_nan => 0
  | S754_infinity true => - 18437736874454810624
  | S754_infinity false => 18437736874454810624
  | S754_zero _ => 0
  | S754_finite true m e => - ((e + 1075) * 9007199254740992 + Z.pos m)
  | S754_finite false m e => (e + 1075) * 9007199254740992 + Z.pos m
  end%Z.

(** [!isNaN(x)] *)
Definition isNumber (x : float) : bool :=
  match Prim2SF x with
  | S754_nan => false
  | _ => true
  end.

Definition numZ (x : float) : Z := if isNumber x then 1%Z else 0%Z.

Definition keyOf (x : float) : Z := orderKey (Prim2SF x).

(** [Math.min] of two numbers: NaN when either is, and [-0] below [+0]. *)
Definition Math_min (x y : float) : float :=
  if is_nan x || is_nan y then nan
  else if x <? y then x
  else if y <? x then y
  else if get_sign x then x else y.

(** *** getTimeAtDistance *)

Record DistanceTimeMap : Set := mkDistanceTimeMap {
  distances : list float;
  times : list float
}.

(** The bisection loop; a comparison with [undefined] or NaN is false. *)
Fixpoint bisect (fuel : nat) (ds : list float) (target : float)
    (low high : nat) : nat * nat :=
  match fuel with
  | O => (low, high)
  | S fuel' =>
      if (low <? high - 1)%nat then
        let mid := ((low + high) / 2)%nat in
        if nth mid ds nan <=? target
        then bisect fuel' ds target mid high
        else bisect fuel' ds target low mid
      else (low, high)
  end.

Definition getTimeAtDistance (map : DistanceTimeMap) (targetDistance : float)
  : option float :=
  let ds := distances map in
  if (length ds <? 2)%nat then None
  else if nth (length ds - 1) ds nan <? targetDistance then None
  else if targetDistance <=? 0 then Some 0
  else
    let lh := bisect (length ds) ds targetDistance 0 (length ds - 1) in
    let d1 := nth (fst lh) ds nan in
    let d2 := nth (snd lh) ds nan in
    let t1 := nth (fst lh) (times map) nan in
    let t2 := nth (snd lh) (times map) nan in
    if d2 =? d1 then Some t1
    else
      let ratio := (targetDistance - d1) / (d2 - d1) in
      Some (t1 + ratio * (t2 - t1)).

(** *** The windows of calculateSplits *)

(** The fields of a split that say where its window lies.  The other
    fields ([number], [pace], [elevGain], [avgHR]) are computed from the
    window and do not feed back into the loop. *)
Record Window : Set := mkWindow {
  startKm : float;
  endKm : float;
  distance : float;
  isPartial : bool
}.

Definition makeWindow (totalDistance splitDistanceKm currentKm : float)
  : Window :=
  let startKm := currentKm in
  let endKm := Math_min (currentKm + splitDistanceKm) totalDistance in
  {| startKm := startKm;
     endKm := endKm;
     distance := endKm - startKm;
     isPartial := (endKm - startKm) <? splitDistanceKm * 0.9 |}.

(** [while (currentKm < totalDistance)] from the current loop state. *)
Fixpoint splitLoop (fuel : nat) (totalDistance splitDistanceKm : float)
    (currentKm : float) (splits : list Window)
  : Utils.Outcome (list Window) :=
  if currentKm <? totalDistance then
    match fuel with
    | O => Utils.OutOfFuel
    | S fuel' =>
        splitLoop fuel' totalDistance splitDistanceKm
          (currentKm + splitDistanceKm)
          (splits ++ [makeWindow totalDistance splitDistanceKm currentKm])
    end
  else Utils.Returned splits.

(** [calculateSplits] from the line that reads [totalDistance] off the
    cumulative distance array: the windows it walks. *)
Definition splitWindows (fuel : nat) (distances : list float)
    (splitDistanceKm : float) : Utils.Outcome (list Window) :=
  let totalDistance := nth (length distances - 1) distances nan in
  splitLoop fuel totalDistance splitDistanceKm 0 [].

(** *** haversineDistance and buildTimeDistanceMap *)

(** [Math.PI] *)
Definition PI : float := 0x1.921fb54442d18p+1.

Record Coordinate : Set := mkCoordinate { lat : float; lng : float }.

Definition origin : Coordinate := {| lat := 0; lng := 0 |}.

(** The arrays of a route that [buildTimeDistanceMap] reads; a timestamp
    is the time value of its Date, in milliseconds. *)
Record Route : Set := mkRoute {
  coordinates : list Coordinate;
  timestamps : list (option float)
}.

Section Engine.

(** [Math.sin], [Math.cos] and [Math.atan2]: ECMAScript leaves their
    values to the engine, up to the cases it lists (NaN in, NaN out). *)
Variables Math_sin Math_cos : float -> float.
Variable Math_atan2 : float -> float -> float.

Definition toRad (deg : float) : float := deg * (PI / 180).

Definition haversineDistance (coord1 coord2 : Coordinate) : float :=
  let R := 6371 in
  let dLat := toRad (lat coord2 - lat coord1) in
  let dLon := toRad (lng coord2 - lng coord1) in
  let a := Math_sin (dLat / 2) * Math_sin (dLat / 2) +
           Math_cos (toRad (lat coord1)) * Math_cos (toRad (lat coord2)) *
           Math_sin (dLon / 2) * Math_sin (dLon / 2) in
  let c := 2 * Math_atan2 (sqrt a) (sqrt (1 - a)) in
  R * c.

Definition buildStep (route : Route) (startTime : float)
    (st : float * DistanceTimeMap) (i : nat) : float * DistanceTimeMap :=
  let dist := haversineDistance (nth (i - 1) (coordinates route) origin)
                                (nth i (coordinates route) origin) in
  let cumulativeDistance := fst st + dist in
  match nth i (timestamps route) None with
  | Some t =>
      let elapsedTime := (t - startTime) / 1000 in
      (cumulativeDistance,
       {| distances := distances (snd st) ++ [cumulativeDistance];
          times := times (snd st) ++ [elapsedTime] |})
  | None => (cumulativeDistance, snd st)
  end.

(** [!startTime] holds of [undefined], of 0 and of NaN. *)
Definition buildTimeDistanceMap (route : Route) : option DistanceTimeMap :=
  match nth 0 (timestamps route) None with
  | None => None
  | Some startTime =>
      if (startTime =? 0) || is_nan startTime then None
      else
        let map :=
          snd (fold_left (buildStep route startTime)
                         (seq 1 (length (coordinates route) - 1))
                         (0, {| distances := [0]; times := [0] |})) in
        if (1 <? length (distances map))%nat then Some map else None
  end.

End Engine.

(** *** filterDistanceJumps *)

Section WithDistance.

(** The ground distance between two coordinates, in kilometres: the
    [haversineDistance] of an engine. *)
Variable distanceKm : Coordinate -> Coordinate -> float.

Definition distanceJumpStep (coordinates : list Coordinate)
    (timestamps : list (option float)) (maxSpeedKmh : float) (i : nat)
  : bool :=
  match nth i timestamps None, nth (i - 1) timestamps None with
  | Some ti, Some tp =>
      let distance :=
        distanceKm (nth (i - 1) coordinates origin)
                   (nth i coordinates origin) * 1000 in
      let deltaTime := (ti - tp) / 1000 in
      if 0 <? deltaTime then
        let impliedSpeed := (distance / deltaTime) * 3.6 in
        if maxSpeedKmh <? impliedSpeed then false else true
      else true
  | _, _ => true
  end.

Definition filterDistanceJumps (coordinates : list Coordinate)
    (timestamps : list (option float)) (maxSpeedKmh : float) : list bool :=
  if (length coordinates <? 2)%nat then map (fun _ => true) coordinates
  else true ::
       map (distanceJumpStep coordinates timestamps maxSpeedKmh)
           (seq 1 (length coordinates - 1)).

End WithDistance.

End Double.

(** ** ChartManager: the data of a chart *)

Module ChartManager.
Local Open Scope Q_scope.

Record ProcessedRoute : Set := mkProcessedRoute {
  cumulativeDistances : list (option Q);
  metricData : list (option Q);
  totalDistance : Q
}.

Section WithDistance.

Variable haversineDistance : Utils.Coordinate -> Utils.Coordinate -> Q.

(** What [drawChart] computes for one route and the metric chosen:
    cumulative distances, smoothing and decimation adapted to the length
    of the route, and the route's horizontal offset. *)
Definition processRoute (fuel : nat) (coordinates : list Utils.Coordinate)
    (metricData : list (option Q)) (offset : Q)
  : Utils.Outcome ProcessedRoute :=
  let distances := Utils.cumulativeDistances haversineDistance coordinates in
  let totalDist := nth (length distances - 1) distances 0 in
  let params := Utils.getAdaptiveSmoothingParams totalDist in
  let smoothed := Utils.smoothData metricData (fst params) in
  match Utils.decimateData fuel smoothed (map Some distances) (snd params) with
  | Utils.OutOfFuel => Utils.OutOfFuel
  | Utils.Returned final =>
      Utils.Returned
        {| cumulativeDistances :=
             map (option_map (fun d => d + offset)) (snd final);
           metricData := fst final;
           totalDistance := totalDist |}
  end.

End WithDistance.

End ChartManager.

(** ** FileParser: validation of parsed records *)

Module FileParser.
Local Open Scope Q_scope.

(** A numeric field as a parser hands it over: absent ([null] or
    [undefined]), not a finite number (NaN or an infinity), or a number. *)
Inductive RawNumber : Set :=
  | RawAbsent : RawNumber
  | RawNotFinite : RawNumber
  | RawNum : Q -> RawNumber.

(** A timestamp field as a parser hands it over: absent, a value that is
    not a valid [Date], or a [Date] holding a number of milliseconds. *)
Inductive RawTimestamp : Set :=
  | RawNoDate : RawTimestamp
  | RawBadDate : RawTimestamp
  | RawDate : Z -> RawTimestamp.

Inductive Reason : Set :=
  | missing | invalid_number | lat_out_of_range | lng_out_of_range
  | out_of_range | invalid_date | not_chronological.

(** [{valid: true, value}] or [{valid: false, reason}]. *)
Inductive Validation (A : Type) : Type :=
  | Valid : A -> Validation A
  | Invalid : Reason -> Validation A.
Arguments Valid {A} _.
Arguments Invalid {A} _.

Definition isValid {A : Type} (v : Validation A) : bool :=
  match v with
  | Valid _ => true
  | Invalid _ => false
  end.

Definition LAT_MIN : Q := -90.
Definition LAT_MAX : Q := 90.
Definition LNG_MIN : Q := -180.
Definition LNG_MAX : Q := 180.
Definition ELEV_MIN : Q := -500.
Definition ELEV_MAX : Q := 9000.

Definition validateCoordinate (lat lng : RawNumber) : Validation unit :=
  match lat, lng with
  | RawAbsent, _ | _, RawAbsent => Invalid missing
  | RawNotFinite, _ | _, RawNotFinite => Invalid invalid_number
  | RawNum la, RawNum lo =>
      if Utils.Qltb la LAT_MIN || Utils.Qltb LAT_MAX la
      then Invalid lat_out_of_range
      else if Utils.Qltb lo LNG_MIN || Utils.Qltb LNG_MAX lo
      then Invalid lng_out_of_range
      else Valid tt
  end.

Definition validateElevation (elevation : RawNumber) : Validation (option Q) :=
  match elevation with
  | RawAbsent => Valid None
  | RawNotFinite => Invalid invalid_number
  | RawNum e =>
      if Utils.Qltb e ELEV_MIN || Utils.Qltb ELEV_MAX e
      then Invalid out_of_range
      else Valid (Some e)
  end.

Definition validateTimestamp (timestamp : RawTimestamp)
    (prevTimestamp : option Z) : Validation (option Z) :=
  match timestamp with
  | RawNoDate => Valid None
  | RawBadDate => Invalid invalid_date
  | RawDate t =>
      match prevTimestamp with
      | Some prev =>
          if (t <? prev)%Z then Invalid not_chronological else Valid (Some t)
      | None => Valid (Some t)
      end
  end.

Record RawCoordinate : Set := mkRawCoordinate {
  lat : RawNumber;
  lng : RawNumber
}.

Module Raw.
Record Data : Set := mkData {
  coordinates : list RawCoordinate;
  elevations : list RawNumber;
  timestamps : list RawTimestamp;
  heartRates : list (option Q);
  cadences : list (option Q);
  powers : list (option Q)
}.
End Raw.

(** A warning message, by its template and the values it interpolates:
    [Point i: Invalid coordinate (reason)] and its two siblings. *)
Inductive Warning : Set :=
  | InvalidCoordinate : nat -> Reason -> Warning
  | InvalidElevation : nat -> Reason -> Warning
  | InvalidTimestamp : nat -> Reason -> Warning.

Record Validated : Set := mkValidated {
  coordinates : list RawCoordinate;
  elevations : list (option Q);
  timestamps : list (option Z);
  heartRates : list (option Q);
  cadences : list (option Q);
  powers : list (option Q);
  skipped : nat;
  warnings : list Warning
}.

Definition absentCoordinate : RawCoordinate :=
  {| lat := RawAbsent; lng := RawAbsent |}.

(** [tsResult.valid ? tsResult.value : null], and likewise for elevation. *)
Definition valueOrNull {A : Type} (v : Validation (option A)) : option A :=
  match v with
  | Valid x => x
  | Invalid _ => None
  end.

(** The value [lastValidTimestamp] holds after a timestamp was checked. *)
Definition advance (tsResult : Validation (option Z))
    (lastValidTimestamp : option Z) : option Z :=
  match tsResult with
  | Valid (Some t) => Some t
  | _ => lastValidTimestamp
  end.

(** One iteration of the loop over the raw points: the state is the record
    under construction and [lastValidTimestamp]. *)
Definition validateStep (rawData : Raw.Data) (st : Validated * option Z)
    (i : nat) : Validated * option Z :=
  let validated := fst st in
  let lastValidTimestamp := snd st in
  let coord := nth i (Raw.coordinates rawData) absentCoordinate in
  match validateCoordinate (lat coord) (lng coord) with
  | Invalid reason =>
      ({| coordinates := coordinates validated;
          elevations := elevations validated;
          timestamps := timestamps validated;
          heartRates := heartRates validated;
          cadences := cadences validated;
          powers := powers validated;
          skipped := S (skipped validated);
          warnings := warnings validated ++ [InvalidCoordinate i reason] |},
       lastValidTimestamp)
  | Valid _ =>
      let elevResult :=
        validateElevation (nth i (Raw.elevations rawData) RawAbsent) in
      let tsResult :=
        validateTimestamp (nth i (Raw.timestamps rawData) RawNoDate)
                          lastValidTimestamp in
      ({| coordinates := coordinates validated ++ [coord];
          elevations := elevations validated ++ [valueOrNull elevResult];
          timestamps := timestamps validated ++ [valueOrNull tsResult];
          heartRates :=
            heartRates validated ++ [nth i (Raw.heartRates rawData) None];
          cadences := cadences validated ++ [nth i (Raw.cadences rawData) None];
          powers := powers validated ++ [nth i (Raw.powers rawData) None];
          skipped := skipped validated;
          warnings :=
            warnings validated ++
            match elevResult with
            | Invalid reason => [InvalidElevation i reason]
            | Valid _ => []
            end ++
            match tsResult with
            | Invalid reason => [InvalidTimestamp i reason]
            | Valid _ => []
            end |},
       advance tsResult lastValidTimestamp)
  end.

Definition emptyValidated : Validated :=
  {| coordinates := []; elevations := []; timestamps := []; heartRates := [];
     cadences := []; powers := []; skipped := 0; warnings := [] |}.

(** The loop state after the first [n] raw points. *)
Definition validateUpTo (rawData : Raw.Data) (n : nat) : Validated * option Z :=
  fold_left (validateStep rawData) (seq 0 n) (emptyValidated, None).

Definition validateParsedData (rawData : Raw.Data) : Validated :=
  fst (validateUpTo rawData (length (Raw.coordinates rawData))).

(** *** Speed, pace and duration of a parsed track *)

Definition MAX_SPEED_KMH : Q := 35.

Section WithDistance.

Variable haversineDistance : Utils.Coordinate -> Utils.Coordinate -> Q.

(** One iteration of the loop of [parseGPX] that derives speed (km/h) and
    pace (min/km) from consecutive points; the state is the two arrays
    under construction. *)
Definition speedStep (coordinates : list Utils.Coordinate)
    (timestamps : list (option Z))
    (st : list (option Q) * list (option Q)) (i : nat)
  : list (option Q) * list (option Q) :=
  let speeds := fst st in
  let paces := snd st in
  match i, nth i timestamps None, nth (i - 1) timestamps None with
  | S _, Some t, Some prev =>
      let dist :=
        haversineDistance (nth (i - 1) coordinates Utils.origin)
                          (nth i coordinates Utils.origin) in
      let timeDiff := inject_Z (t - prev) / 1000 / 3600 in
      if Utils.Qltb 0 timeDiff && Utils.Qltb 0 dist then
        let speed := dist / timeDiff in
        (speeds ++ [Some speed], paces ++ [Some (60 / speed)])
      else (speeds ++ [None], paces ++ [None])
  | _, _, _ => (speeds ++ [None], paces ++ [None])
  end.

Definition calculateSpeeds (coordinates : list Utils.Coordinate)
    (timestamps : list (option Z)) : list (option Q) * list (option Q) :=
  fold_left (speedStep coordinates timestamps)
            (seq 0 (length coordinates)) ([], []).

(** The cleaning and smoothing that both parsers apply to the speeds and
    paces of a track: [smoothedSpeeds] and [smoothedPaces]. *)
Definition cleanAndSmooth (speeds paces : list (option Q))
    (coordinates : list Utils.Coordinate) (timestamps : list (option Z))
  : list (option Q) * list (option Q) :=
  let cleanedData :=
    Utils.cleanGPSData haversineDistance speeds paces coordinates timestamps
                       MAX_SPEED_KMH in
  (Utils.rollingMedian (Utils.speeds cleanedData) 5,
   Utils.rollingMedian (Utils.paces cleanedData) 5).

End WithDistance.

(** [stats.duration] of [createRouteData], in seconds. *)
Definition duration (timestamps : list (option Z)) : option Q :=
  let validTimestamps :=
    flat_map (fun t => match t with Some x => [x] | None => [] end)
             timestamps in
  if (2 <=? length validTimestamps)%nat then
    Some (inject_Z (nth (length validTimestamps - 1) validTimestamps 0%Z
                    - nth 0 validTimestamps 0%Z) / 1000)
  else None.

End FileParser.

(** ** ZoneAnalyzer *)

Module Zones.
Local Open Scope Q_scope.

Record Zone : Set := mkZone {
  zoneMin : Q;
  zoneMax : Q;
  zoneTime : Q;
  percent : Z
}.

Record ZoneSummary : Set := mkZoneSummary {
  zones : list Zone;
  dominantZone : nat;
  minVal : Q;
  maxVal : Q
}.

Definition nonNull (values : list (option Q)) : list Q :=
  flat_map (fun v => match v with Some x => [x] | None => [] end) values.

Definition minimum (first : Q) (rest : list Q) : Q :=
  fold_left (fun acc x => if Utils.Qltb x acc then x else acc) rest first.

Definition maximum (first : Q) (rest : list Q) : Q :=
  fold_left (fun acc x => if Utils.Qltb acc x then x else acc) rest first.

(** The bin of a value among 5 bins of equal width over [[lo, hi]]. *)
Definition zoneOf (lo hi v : Q) : nat :=
  if Qle_bool (hi - lo) 0 then 0%nat
  else Nat.min 4 (Z.to_nat (Qfloor ((v - lo) / ((hi - lo) / 5)))).

(** Seconds attributed to bin [z]: each sample after the first with a
    value and a positive elapsed time since the previous sample gives that
    time to the bin of its own value. *)
Definition timeInZone (values : list (option Q)) (timestamps : list (option Z))
    (lo hi : Q) (z : nat) : Q :=
  fold_left
    (fun acc i =>
       match nth i values None, nth i timestamps None,
             nth (i - 1) timestamps None with
       | Some v, Some ti, Some tp =>
           let delta := inject_Z (ti - tp) / 1000 in
           if Utils.Qltb 0 delta && (zoneOf lo hi v =? z)%nat
           then acc + delta else acc
       | _, _, _ => acc
       end)
    (seq 1 (length values - 1)) 0.

(** [Math.round]. *)
Definition round (x : Q) : Z := Qfloor (x + 1 / 2).

(** The index of the first largest entry. *)
Fixpoint argmax (l : list Z) : nat :=
  match l with
  | [] => 0%nat
  | x :: rest =>
      match rest with
      | [] => 0%nat
      | _ => if (nth (argmax rest) rest 0 <=? x)%Z then 0%nat
             else S (argmax rest)
      end
  end.

Definition sumZ (l : list Z) : Z := fold_right Z.add 0%Z l.

(** The residual [100 - sum] is added to the largest entry. *)
Definition adjustToHundred (rounded : list Z) : list Z :=
  let k := argmax rounded in
  firstn k rounded ++
  match skipn k rounded with
  | [] => []
  | x :: rest => (x + (100 - sumZ rounded))%Z :: rest
  end.

(** Modelled from the spec: [Utils.calculateZones] is not among the
    sources (only its tests are); this follows section 4.9: at least 10
    non-null values or [null]; 5 bins of equal width over the range of the
    non-null values; time-weighted shares; percentages rounded, the
    residual to 100 added to the largest one; the dominant zone is the one
    of largest percentage.  The specification does not say what the shares
    are when no time at all is attributed; here they are all 0 before the
    adjustment (a quotient by 0 is 0 in [Q]). *)
Definition calculateZones (values : list (option Q))
    (timestamps : list (option Z)) : option ZoneSummary :=
  match nonNull values with
  | [] => None
  | first :: rest =>
      if (length (first :: rest) <? 10)%nat then None
      else
        let lo := minimum first rest in
        let hi := maximum first rest in
        let width := (hi - lo) / 5 in
        let zoneTimes := map (timeInZone values timestamps lo hi) (seq 0 5) in
        let total := fold_left Qplus zoneTimes 0 in
        let percents :=
          adjustToHundred (map (fun t => round (t / total * 100)) zoneTimes) in
        Some {| zones :=
                  map (fun z =>
                         {| zoneMin := lo + inject_Z (Z.of_nat z) * width;
                            zoneMax := lo + inject_Z (Z.of_nat z + 1) * width;
                            zoneTime := nth z zoneTimes 0;
                            percent := nth z percents 0%Z |})
                      (seq 0 5);
                dominantZone := argmax percents;
                minVal := lo;
                maxVal := hi |}
  end.

End Zones.

(** ** Specification-side definitions

    What the specification says in its own words, to compare with the
    embedded code. *)

Module Spec.
Local Open Scope Q_scope.

Definition sumQ (l : list Q) : Q := fold_right Qplus 0 l.

(** The differences between consecutive elements, in order. *)
Fixpoint deltas (l : list Q) : list Q :=
  match l with
  | a :: (b :: _) as rest => (b - a) :: deltas rest
  | _ => []
  end.

(** The sum of the positive deltas. *)
Definition gainOf (v : list Q) : Q :=
  sumQ (filter (fun d => Utils.Qltb 0 d) (deltas v)).

(** The sum of the absolute values of the negative deltas. *)
Definition lossOf (v : list Q) : Q :=
  sumQ (map Qabs (filter (fun d => Utils.Qltb d 0) (deltas v))).

(** [v] is the non-null subsequence of [l]: the numbers of [l], each in
    its place among the others, and nothing else. *)
Definition isNumber (e : option Q) : bool :=
  match e with
  | Some _ => true
  | None => false
  end.

Definition isNonNullSubsequence (l : list (option Q)) (v : list Q) : Prop :=
  map Some v = filter isNumber l.

Definition isMinimumOf (v : list Q) (m : Q) : Prop :=
  In m v /\ forall x, In x v -> m <= x.

Definition isMaximumOf (v : list Q) (m : Q) : Prop :=
  In m v /\ forall x, In x v -> x <= m.

(** A function returned the number [q] (up to equality of rationals). *)
Definition returnsNumber (r : option Q) (q : Q) : Prop :=
  match r with
  | Some t => t == q
  | None => False
  end.

(** Non-decreasing, by index. *)
Definition ascending (l : list Q) : Prop :=
  forall i j, (i <= j < length l)%nat -> nth i l 0 <= nth j l 0.

(** The DistanceTimeMap of the data model, as far as the queries rely on
    it: two parallel sequences of at least 2 entries that start at 0, with
    ascending distances. *)
Definition IsDistanceTimeMap (m : Utils.DistanceTimeMap) : Prop :=
  length (Utils.distances m) = length (Utils.times m) /\
  (2 <= length (Utils.distances m))%nat /\
  nth 0 (Utils.distances m) 0 == 0 /\
  nth 0 (Utils.times m) 0 == 0 /\
  ascending (Utils.distances m).

(** Linear interpolation of the time between two map entries. *)
Definition interpolate (d1 t1 d2 t2 target : Q) : Q :=
  t1 + (target - d1) / (d2 - d1) * (t2 - t1).

(** *** Elapsed time and the loop of [buildTimeDistanceMap] *)

(** Elapsed seconds, as the map records them. *)
Definition elapsed (startTime t : Z) : Q := inject_Z (t - startTime) / 1000.

(** The loop invariant of [buildTimeDistanceMap] before iteration [i]. *)
Definition buildInvariant (route : Utils.Route) (startTime : Z) (i : nat)
    (st : Q * Utils.DistanceTimeMap) : Prop :=
  length (Utils.distances (snd st)) = length (Utils.times (snd st)) /\
  (1 <= length (Utils.distances (snd st)))%nat /\
  nth 0 (Utils.distances (snd st)) 0 = 0 /\
  nth 0 (Utils.times (snd st)) 0 = 0 /\
  ascending (Utils.distances (snd st)) /\
  ascending (Utils.times (snd st)) /\
  Forall (fun x => x <= fst st) (Utils.distances (snd st)) /\
  (forall j t, (i <= j)%nat -> nth j (Utils.timestamps route) None = Some t ->
     Forall (fun x => x <= elapsed startTime t) (Utils.times (snd st))).

(** *** The checks of [cleanGPSData] *)

Section Cleaning.

Variables (rawSpeeds rawPaces : list (option Q)).
Variable distanceFlags : list bool.
Variable accelFiltered : list (option Q).
Variable maxSpeed : Q.

(** The two tests of the loop body, as one. *)
Definition rejectedb (i : nat) : bool :=
  (negb (nth i distanceFlags false) || Utils.missing (nth i accelFiltered None))
  || (Utils.Qltb maxSpeed (Utils.toNumber (nth i rawSpeeds None))
      || Utils.Qltb (Utils.toNumber (nth i rawSpeeds None)) 0).

(** The three reasons of the specification. *)
Definition rejected (i : nat) : Prop :=
  nth i distanceFlags false = false \/
  nth i accelFiltered None = None \/
  exists v, nth i rawSpeeds None = Some v /\ (v < 0 \/ maxSpeed < v).

(** The loop state after the indices below [k]. *)
Definition cleanInvariant (k : nat) (st : Utils.Cleaned) : Prop :=
  (forall j, nth j (Utils.speeds st) None =
             if (j <? k)%nat && rejectedb j then None
             else nth j rawSpeeds None) /\
  (forall j, nth j (Utils.paces st) None =
             if (j <? k)%nat && rejectedb j then None
             else nth j rawPaces None) /\
  Utils.validIndices st = filter (fun j => negb (rejectedb j)) (seq 0 k).

End Cleaning.

(** *** Sampling at a fixed step *)

(** The distance of the [k]-th sample, as the loop accumulates it. *)
Fixpoint sampleAt (sampleInterval : Q) (k : nat) : Q :=
  match k with
  | O => 0
  | S k' => sampleAt sampleInterval k' + sampleInterval
  end.

(** How many samples lie within [[0, maxDist]]. *)
Definition sampleCount (maxDist sampleInterval : Q) : nat :=
  if Utils.Qltb maxDist 0 then 0%nat
  else Z.to_nat (Qfloor (maxDist / sampleInterval) + 1).

(** The points one sample contributes: one or none. *)
Definition pointsAt (refMap : Utils.DistanceTimeMap)
    (compMaps : list (Utils.Route * Utils.DistanceTimeMap)) (d : Q)
  : list Utils.GapPoint :=
  match Utils.samplePoint refMap compMaps d with
  | Some point => [point]
  | None => []
  end.

(** *** Splits *)

Section Splitting.

Variable haversineDistance : Utils.Coordinate -> Utils.Coordinate -> Q.

(** The last entry of the cumulative distance array. *)
Definition totalDistanceOf (route : Utils.Route) : Q :=
  let distances :=
    Utils.cumulativeDistances haversineDistance (Utils.coordinates route) in
  nth (length distances - 1) distances 0.

(** The ground distance summed point to point from [startIdx] to [endIdx]. *)
Definition segmentDistance (route : Utils.Route) (startIdx endIdx : nat) : Q :=
  fold_left
    (fun acc i =>
       acc + haversineDistance
               (nth (i - 1) (Utils.coordinates route) Utils.origin)
               (nth i (Utils.coordinates route) Utils.origin))
    (seq (startIdx + 1) (endIdx - startIdx)) 0.

End Splitting.

(** Every leg of the route, from a point to the next, has a distance that
    is a number and not negative. *)
Definition legsNonNegative
    (haversineDistance : Utils.Coordinate -> Utils.Coordinate -> Q)
    (route : Utils.Route) : Prop :=
  forall i, (1 <= i < length (Utils.coordinates route))%nat ->
    0 <= haversineDistance (nth (i - 1) (Utils.coordinates route) Utils.origin)
                           (nth i (Utils.coordinates route) Utils.origin).

(** How many windows of [splitDistanceKm] start below [totalDistance]. *)
Definition splitCount (totalDistance splitDistanceKm : Q) : nat :=
  if Qle_bool totalDistance 0 then 0%nat
  else Z.to_nat (Qceiling (totalDistance / splitDistanceKm)).

(** *** The points of a raw record set *)

Section Validation.
Import FileParser.

Variable rawData : Raw.Data.

Definition coordAt (i : nat) : RawCoordinate :=
  nth i (Raw.coordinates rawData) absentCoordinate.

(** Whether the coordinate of raw point [i] is valid. *)
Definition coordValid (i : nat) : bool :=
  isValid (validateCoordinate (lat (coordAt i)) (lng (coordAt i))).

(** The raw indices below [k] that are kept, in order. *)
Definition kept (k : nat) : list nat := filter coordValid (seq 0 k).

(** [lastValidTimestamp] when the loop reaches raw point [i]. *)
Definition lastBefore (i : nat) : option Z := snd (validateUpTo rawData i).

Definition elevationResult (i : nat) : Validation (option Q) :=
  validateElevation (nth i (Raw.elevations rawData) RawAbsent).

Definition timestampResult (i : nat) : Validation (option Z) :=
  validateTimestamp (nth i (Raw.timestamps rawData) RawNoDate) (lastBefore i).

(** The warnings that raw point [i] gives rise to. *)
Definition warningsAt (i : nat) : list Warning :=
  match validateCoordinate (lat (coordAt i)) (lng (coordAt i)) with
  | Invalid reason => [InvalidCoordinate i reason]
  | Valid _ =>
      match elevationResult i with
      | Invalid reason => [InvalidElevation i reason]
      | Valid _ => []
      end ++
      match timestampResult i with
      | Invalid reason => [InvalidTimestamp i reason]
      | Valid _ => []
      end
  end.

(** The record under construction after the first [k] raw points. *)
Definition validatedUpTo (k : nat) (v : Validated) : Prop :=
  coordinates v = map coordAt (kept k) /\
  elevations v = map (fun i => valueOrNull (elevationResult i)) (kept k) /\
  timestamps v = map (fun i => valueOrNull (timestampResult i)) (kept k) /\
  heartRates v = map (fun i => nth i (Raw.heartRates rawData) None) (kept k) /\
  cadences v = map (fun i => nth i (Raw.cadences rawData) None) (kept k) /\
  powers v = map (fun i => nth i (Raw.powers rawData) None) (kept k) /\
  (skipped v + length (kept k) = k)%nat /\
  warnings v = flat_map warningsAt (seq 0 k).

End Validation.

(** The last entry of an array that is not null: of the timestamps of a
    result under construction, the last accepted valid timestamp. *)
Fixpoint lastNonNull {A : Type} (l : list (option A)) : option A :=
  match l with
  | [] => None
  | x :: rest =>
      match lastNonNull rest with
      | Some y => Some y
      | None => x
      end
  end.

(** *** Counting and bounds *)

(** How many entries of [l] satisfy [f]. *)
Definition countIf {A : Type} (f : A -> bool) (l : list A) : nat :=
  length (filter f l).

(** Non-decreasing non-null timestamps, by index: what the validation
    establishes and the time-distance map relies on. *)
Definition chronological (timestamps : list (option Z)) : Prop :=
  forall i j a b, (i <= j)%nat ->
    nth i timestamps None = Some a -> nth j timestamps None = Some b ->
    (a <= b)%Z.

(** The indices beyond 0 whose point carries a timestamp: the points that
    [buildTimeDistanceMap] records. *)
Definition stamped (timestamps : list (option Z)) (i : nat) : bool :=
  match nth i timestamps None with
  | Some _ => true
  | None => false
  end.

Definition stampedIndices (route : Utils.Route) : list nat :=
  filter (stamped (Utils.timestamps route))
         (seq 1 (length (Utils.coordinates route) - 1)).

(** The elapsed time the map records for the point at index [i]. *)
Definition elapsedAt (startTime : Z) (timestamps : list (option Z))
    (i : nat) : Q :=
  match nth i timestamps None with
  | Some t => elapsed startTime t
  | None => 0
  end.

(** The non-null timestamps, in order. *)
Definition validTimestamps (timestamps : list (option Z)) : list Z :=
  flat_map (fun t => match t with Some x => [x] | None => [] end) timestamps.

(** The interior indices that [decimateData] keeps: the multiples of
    [factor] below the last index. *)
Definition decimatedIndices (len factor : nat) : list nat :=
  map (fun j => (factor + j * factor)%nat) (seq 0 ((len - 2) / factor)).

(** *** Inputs of the examples *)

(** A rational stand-in for the great-circle distance, to run the pipeline
    on concrete inputs: 111 km per degree, along the parallels and the
    meridians.  Like the great-circle distance it is symmetric, never
    negative, and 0 between identical coordinates. *)
Definition flatDistance (a b : Utils.Coordinate) : Q :=
  (Qabs (Utils.lat b - Utils.lat a) + Qabs (Utils.lng b - Utils.lng a)) * 111.

(** A route that stands still between its first two points and has no
    timestamp at its third. *)
Definition routeA : Utils.Route :=
  {| Utils.coordinates :=
       [ {| Utils.lat := 0; Utils.lng := 0 |};
         {| Utils.lat := 0; Utils.lng := 0 |};
         {| Utils.lat := 0.009; Utils.lng := 0 |};
         {| Utils.lat := 0.018; Utils.lng := 0 |} ];
     Utils.elevations := [Some 100; Some 100; Some 120; Some 110];
     Utils.timestamps :=
       [Some 1000%Z; Some 2000%Z; None; Some 601000%Z];
     Utils.heartRates := [Some 120; None; Some 140; Some 150] |}.

(** The same ground, covered 60 seconds slower. *)
Definition routeB : Utils.Route :=
  {| Utils.coordinates :=
       [ {| Utils.lat := 0; Utils.lng := 0 |};
         {| Utils.lat := 0.009; Utils.lng := 0 |};
         {| Utils.lat := 0.018; Utils.lng := 0 |} ];
     Utils.elevations := [];
     Utils.timestamps := [Some 5000%Z; Some 335000%Z; Some 665000%Z];
     Utils.heartRates := [] |}.

(** The input of the cleaning test: 150 km/h is an outlier. *)
Definition testSpeeds : list (option Q) :=
  [Some 12; Some 150; Some 14; Some 13].

Definition testPaces : list (option Q) :=
  [Some 5; Some 0.4; Some 4.3; Some 4.6].

Definition testCoordinates : list Utils.Coordinate :=
  [ {| Utils.lat := 0; Utils.lng := 0 |};
    {| Utils.lat := 0.0001; Utils.lng := 0 |};
    {| Utils.lat := 0.0002; Utils.lng := 0 |};
    {| Utils.lat := 0.0003; Utils.lng := 0 |} ].

Definition testTimestamps : list (option Z) :=
  [Some 1704067200000%Z; Some 1704067210000%Z;
   Some 1704067220000%Z; Some 1704067230000%Z].

(** Five raw points: the second has a latitude of 200, the third an
    elevation of 50000 m, the fourth a timestamp earlier than the last
    accepted one. *)
Definition rawExample : FileParser.Raw.Data :=
  {| FileParser.Raw.coordinates :=
       [ {| FileParser.lat := FileParser.RawNum 51.5;
            FileParser.lng := FileParser.RawNum (-0.12) |};
         {| FileParser.lat := FileParser.RawNum 200;
            FileParser.lng := FileParser.RawNum 0 |};
         {| FileParser.lat := FileParser.RawNum 51.6;
            FileParser.lng := FileParser.RawNum (-0.13) |};
         {| FileParser.lat := FileParser.RawNum 51.7;
            FileParser.lng := FileParser.RawNum (-0.14) |};
         {| FileParser.lat := FileParser.RawNum 51.8;
            FileParser.lng := FileParser.RawNum (-0.15) |} ];
     FileParser.Raw.elevations :=
       [ FileParser.RawNum 10; FileParser.RawNum 20; FileParser.RawNum 50000;
         FileParser.RawAbsent; FileParser.RawNum 30 ];
     FileParser.Raw.timestamps :=
       [ FileParser.RawDate 5000; FileParser.RawDate 6000;
         FileParser.RawDate 7000; FileParser.RawDate 4000;
         FileParser.RawDate 7000 ];
     FileParser.Raw.heartRates :=
       [Some 120; Some 121; Some 122; None; Some 124];
     FileParser.Raw.cadences := [];
     FileParser.Raw.powers := [] |}.

(** Twelve heart-rate samples, 100 to 111 bpm, one second apart. *)
Definition zoneValues : list (option Q) :=
  map (fun n => Some (inject_Z (Z.of_nat n))) (seq 100 12).

Definition zoneTimestamps : list (option Z) :=
  map (fun n => Some (Z.of_nat n * 1000)%Z) (seq 1 12).

(** The map of the specification's example. *)
Definition exampleMap : Utils.DistanceTimeMap :=
  {| Utils.distances := [0; 1; 2]; Utils.times := [0; 300; 600] |}.

End Spec.

(** ** Specification-side definitions over the doubles *)

Module DoubleSpec.
Import Floats Double.
Local Open Scope float_scope.

(** Non-decreasing, by index; no entry is NaN. *)
Definition ascending (l : list float) : Prop :=
  forall i j, (i <= j < length l)%nat -> (nth i l nan <=? nth j l nan) = true.

(** The DistanceTimeMap of the data model, as [Spec.IsDistanceTimeMap]
    has it. *)
Definition IsDistanceTimeMap (m : DistanceTimeMap) : Prop :=
  length (distances m) = length (times m) /\
  (2 <= length (distances m))%nat /\
  (nth 0 (distances m) nan =? 0) = true /\
  (nth 0 (times m) nan =? 0) = true /\
  ascending (distances m).

(** Linear interpolation of the time between two map entries, with the
    operations in the order of the source. *)
Definition interpolate (d1 t1 d2 t2 target : float) : float :=
  t1 + (target - d1) / (d2 - d1) * (t2 - t1).

(** The map of the specification's example. *)
Definition exampleMap : DistanceTimeMap :=
  {| distances := [0; 1; 2]; times := [0; 300; 600] |}.

(** A map whose last interval takes a second from 0.239 s on. *)
Definition roundingMap : DistanceTimeMap :=
  {| distances := [0; 1; 2]; times := [0; 0.239; 1.239] |}.

(** A route that jumps to the far side of the globe and stays there. *)
Definition antipodalRoute : Route :=
  {| coordinates := [ {| lat := -82; lng := -179 |};
                      {| lat := 82; lng := 1 |};
                      {| lat := 82; lng := 1 |} ];
     timestamps := [Some 1000; Some 2000; Some 3000] |}.

(** The values of [Math.sin], [Math.cos] and [Math.atan2] at the
    arguments that [antipodalRoute] reaches, correctly rounded; the
    tables have no other entry. *)
Definition sinAt (x : float) : float :=
  if x =? 1.4311699866353502 then 0.9902680687415704
  else if x =? 1.5707963267948966 then 1
  else if x =? 0 then x
  else nan.

Definition cosAt (x : float) : float :=
  if abs x =? 1.4311699866353502 then 0.13917310096006547
  else if x =? 0 then 1
  else nan.

Definition atan2At (y x : float) : float :=
  if is_nan y || is_nan x then nan
  else if (y =? 0) && (0 <? x) then y
  else nan.

(** The time between two timestamps, in seconds. *)
Definition deltaSeconds (ti tp : float) : float := (ti - tp) / 1000.

(** The speed a step implies, in km/h, with the operations in the order
    of the source: metres over seconds, times 3.6. *)
Definition impliedSpeed (distanceKm ti tp : float) : float :=
  distanceKm * 1000 / deltaSeconds ti tp * 3.6.

(** A distance function that makes every step 1 km long. *)
Definition oneKm (a b : Coordinate) : float := 1.

End DoubleSpec.

(* ================================================================== *)
(** * Part II: properties *)
(* ================================================================== *)

Local Open Scope Q_scope.

(** ** Comparisons *)

Lemma Qltb_lt (a b : Q) : Utils.Qltb a b = true <-> a < b.
Proof.
  unfold Utils.Qltb. rewrite negb_true_iff.
  split; intro H.
  - apply Qnot_le_lt. intro Hle. apply Qle_bool_iff in Hle. congruence.
  - destruct (Qle_bool b a) eqn:E; [|reflexivity].
    apply Qle_bool_iff in E. exfalso. apply (Qlt_not_le _ _ H E).
Qed.

Lemma Qltb_ge (a b : Q) : Utils.Qltb a b = false <-> b <= a.
Proof.
  unfold Utils.Qltb. rewrite negb_false_iff. apply Qle_bool_iff.
Qed.

Lemma Qle_bool_gt (a b : Q) : Qle_bool a b = false <-> b < a.
Proof.
  rewrite <- Qltb_lt. unfold Utils.Qltb.
  destruct (Qle_bool a b); simpl; intuition congruence.
Qed.

(** Case analysis on a strict comparison, with the order fact in context. *)
Ltac case_Qltb a b :=
  let E := fresh "E" in
  destruct (Utils.Qltb a b) eqn:E;
  [ apply Qltb_lt in E | apply Qltb_ge in E ].

Ltac case_Qeq_bool a b :=
  let E := fresh "E" in
  destruct (Qeq_bool a b) eqn:E;
  [ apply Qeq_bool_iff in E | apply Qeq_bool_neq in E ].

Ltac case_Qle a b :=
  let E := fresh "E" in
  destruct (Qle_bool a b) eqn:E;
  [ apply Qle_bool_iff in E | apply Qle_bool_gt in E ].

(** ** The order of the doubles *)

Section DoubleOrder.
Import Floats Double.
Local Open Scope float_scope.

Lemma digits2_pos_size (m : positive) : digits2_pos m = Pos.size m.
Proof. induction m; cbn; congruence. Qed.

Lemma valid_finite (s : bool) (m : positive) (e : Z) :
  valid_binary (S754_finite s m e) = true ->
  (-1074 <= e <= 971 /\ Z.pos m < 9007199254740992)%Z.
Proof.
  cbn. unfold bounded, canonical_mantissa, fexp, emin, emax, prec.
  rewrite andb_true_iff. intros [Hc He].
  apply Z.eqb_eq in Hc. apply Z.leb_le in He.
  rewrite digits2_pos_size in Hc.
  pose proof (Pos.size_gt m) as Hs.
  assert (Hd : (Z.pos (Pos.size m) <= 53)%Z) by lia.
  split; [lia|].
  apply Pos2Z.pos_lt_pos in Hs. rewrite Pos2Z.inj_pow in Hs.
  apply Z.lt_le_trans with (1 := Hs).
  change 9007199254740992%Z with (2 ^ 53)%Z.
  apply Z.pow_le_mono_r; lia.
Qed.

Lemma SFcompare_key (f1 f2 : spec_float) :
  valid_binary f1 = true -> valid_binary f2 = true ->
  SFcompare f1 f2 =
  match f1, f2 with
  | S754_nan, _ | _, S754_nan => None
  | _, _ => Some (orderKey f1 ?= orderKey f2)%Z
  end.
Proof.
  intros H1 H2.
  destruct f1 as [s1|s1| |s1 m1 e1], f2 as [s2|s2| |s2 m2 e2];
    try apply valid_finite in H1; try apply valid_finite in H2;
    try destruct s1; try destruct s2; cbn [SFcompare orderKey];
    try reflexivity; f_equal; symmetry;
    try (apply Z.compare_lt_iff; lia); try (apply Z.compare_gt_iff; lia).
  - change (IntDef.Z.compare e1 e2) with (Z.compare e1 e2).
    change (PosDef.Pos.compare_cont Eq m1 m2) with (Pos.compare m1 m2).
    destruct (Z.compare_spec e1 e2) as [->|Hlt|Hgt].
    + rewrite Z.compare_opp, Z.add_compare_mono_l.
      rewrite Pos2Z.inj_compare. rewrite (Z.compare_antisym (Z.pos m1)).
      reflexivity.
    + apply Z.compare_gt_iff. nia.
    + apply Z.compare_lt_iff. nia.
  - change (IntDef.Z.compare e1 e2) with (Z.compare e1 e2).
    change (PosDef.Pos.compare_cont Eq m1 m2) with (Pos.compare m1 m2).
    destruct (Z.compare_spec e1 e2) as [->|Hlt|Hgt].
    + rewrite Z.add_compare_mono_l. reflexivity.
    + apply Z.compare_lt_iff. nia.
    + apply Z.compare_gt_iff. nia.
Qed.

Lemma compare_cases (x y : float) :
  match SFcompare (Prim2SF x) (Prim2SF y) with
  | Some c => numZ x = 1%Z /\ numZ y = 1%Z /\ c = (keyOf x ?= keyOf y)%Z
  | None => numZ x = 0%Z \/ numZ y = 0%Z
  end.
Proof.
  rewrite (SFcompare_key _ _ (Prim2SF_valid x) (Prim2SF_valid y)).
  unfold numZ, isNumber, keyOf.
  destruct (Prim2SF x), (Prim2SF y); auto.
Qed.

Lemma numZ_range (x : float) : (numZ x = 0 \/ numZ x = 1)%Z.
Proof. unfold numZ. destruct (isNumber x); auto. Qed.

Lemma leb_iff (x y : float) :
  (x <=? y) = true <->
  numZ x = 1%Z /\ numZ y = 1%Z /\ (keyOf x <= keyOf y)%Z.
Proof.
  rewrite FloatAxioms.leb_spec. unfold SFleb.
  pose proof (compare_cases x y) as H.
  pose proof (numZ_range x). pose proof (numZ_range y).
  destruct (SFcompare (Prim2SF x) (Prim2SF y)) as [c|].
  - destruct H as (-> & -> & ->).
    destruct (Z.compare_spec (keyOf x) (keyOf y));
      split; intros; try discriminate; try reflexivity; try lia.
  - split; [discriminate|lia].
Qed.

Lemma ltb_iff (x y : float) :
  (x <? y) = true <->
  numZ x = 1%Z /\ numZ y = 1%Z /\ (keyOf x < keyOf y)%Z.
Proof.
  rewrite FloatAxioms.ltb_spec. unfold SFltb.
  pose proof (compare_cases x y) as H.
  pose proof (numZ_range x). pose proof (numZ_range y).
  destruct (SFcompare (Prim2SF x) (Prim2SF y)) as [c|].
  - destruct H as (-> & -> & ->).
    destruct (Z.compare_spec (keyOf x) (keyOf y));
      split; intros; try discriminate; try reflexivity; try lia.
  - split; [discriminate|lia].
Qed.

Lemma eqb_iff (x y : float) :
  (x =? y) = true <->
  numZ x = 1%Z /\ numZ y = 1%Z /\ keyOf x = keyOf y.
Proof.
  rewrite FloatAxioms.eqb_spec. unfold SFeqb.
  pose proof (compare_cases x y) as H.
  pose proof (numZ_range x). pose proof (numZ_range y).
  destruct (SFcompare (Prim2SF x) (Prim2SF y)) as [c|].
  - destruct H as (-> & -> & ->).
    destruct (Z.compare_spec (keyOf x) (keyOf y));
      split; intros; try discriminate; try reflexivity; try lia.
  - split; [discriminate|lia].
Qed.

End DoubleOrder.

(** Decides a goal about the order of doubles from hypotheses about it:
    every comparison is read on the keys of its operands. *)
Ltac float_order :=
  repeat match goal with
  | x := _ |- _ => clearbody x
  end;
  repeat match goal with
  | H : PrimFloat.leb _ _ = false |- _ => apply not_true_iff_false in H
  | H : PrimFloat.ltb _ _ = false |- _ => apply not_true_iff_false in H
  | H : PrimFloat.eqb _ _ = false |- _ => apply not_true_iff_false in H
  | |- PrimFloat.leb _ _ = false => apply not_true_iff_false
  | |- PrimFloat.ltb _ _ = false => apply not_true_iff_false
  | |- PrimFloat.eqb _ _ = false => apply not_true_iff_false
  end;
  rewrite ?leb_iff, ?ltb_iff, ?eqb_iff in *;
  repeat match goal with
  | H : _ /\ _ |- _ => destruct H
  end;
  repeat match goal with
  | H : Double.numZ ?x = 1%Z |- _ =>
      let v := fresh "v" in set (v := Double.numZ x) in *; clearbody v; subst v
  end;
  repeat match goal with
  | |- context [Double.numZ ?x] =>
      let v := fresh "v" in
      pose proof (numZ_range x); set (v := Double.numZ x) in *; clearbody v
  | H : context [Double.numZ ?x] |- _ =>
      let v := fresh "v" in
      pose proof (numZ_range x); set (v := Double.numZ x) in *; clearbody v
  end;
  repeat match goal with
  | |- context [Double.keyOf ?x] =>
      let k := fresh "k" in set (k := Double.keyOf x) in *; clearbody k
  | H : context [Double.keyOf ?x] |- _ =>
      let k := fresh "k" in set (k := Double.keyOf x) in *; clearbody k
  end;
  lia.

(** ** calculateElevationStats *)

Section ElevationStats.
Import Utils Spec.

Lemma gainOf_cons prev cur rest :
  gainOf (prev :: cur :: rest) =
  if Qltb 0 (cur - prev) then (cur - prev) + gainOf (cur :: rest)
  else gainOf (cur :: rest).
Proof.
  unfold gainOf. cbn [deltas filter].
  destruct (Qltb 0 (cur - prev)); reflexivity.
Qed.

Lemma lossOf_cons prev cur rest :
  lossOf (prev :: cur :: rest) =
  if Qltb (cur - prev) 0 then Qabs (cur - prev) + lossOf (cur :: rest)
  else lossOf (cur :: rest).
Proof.
  unfold lossOf. cbn [deltas filter].
  destruct (Qltb (cur - prev) 0); reflexivity.
Qed.

Lemma elevationLoop_gain prev rest acc :
  gain (elevationLoop prev rest acc) == gain acc + gainOf (prev :: rest).
Proof.
  revert prev acc. induction rest as [|cur rest IH]; intros prev acc.
  - change (gainOf [prev]) with 0. cbn [elevationLoop]. lra.
  - cbn [elevationLoop]. rewrite IH, gainOf_cons. cbn [gain].
    destruct (Qltb 0 (cur - prev)); lra.
Qed.

Lemma elevationLoop_loss prev rest acc :
  loss (elevationLoop prev rest acc) == loss acc + lossOf (prev :: rest).
Proof.
  revert prev acc. induction rest as [|cur rest IH]; intros prev acc.
  - change (lossOf [prev]) with 0. cbn [elevationLoop]. lra.
  - cbn [elevationLoop]. rewrite IH, lossOf_cons. cbn [loss].
    case_Qltb 0 (cur - prev); case_Qltb (cur - prev) 0; try lra.
    assert (H0 : cur - prev == 0) by lra.
    rewrite H0. change (Qabs 0) with 0. lra.
Qed.

Lemma elevationLoop_min prev rest acc :
  isMinimumOf (min acc :: rest) (min (elevationLoop prev rest acc)).
Proof.
  revert prev acc. induction rest as [|cur rest IH]; intros prev acc.
  - simpl. split; [left; reflexivity|].
    intros x [<-|[]]. lra.
  - simpl elevationLoop.
    match goal with |- isMinimumOf _ (min (elevationLoop _ _ ?a)) =>
      destruct (IH cur a) as [Hin Hle] end.
    simpl min in Hin, Hle.
    case_Qltb cur (min acc).
    + split.
      * destruct Hin as [<-|Hin]; [right; left; reflexivity|].
        right; right; exact Hin.
      * intros x [<-|[<-|Hx]].
        -- specialize (Hle cur (or_introl eq_refl)). lra.
        -- apply Hle. left; reflexivity.
        -- apply Hle. right; exact Hx.
    + split.
      * destruct Hin as [<-|Hin]; [left; reflexivity|right; right; exact Hin].
      * intros x [<-|[<-|Hx]].
        -- apply Hle. left; reflexivity.
        -- specialize (Hle (min acc) (or_introl eq_refl)). lra.
        -- apply Hle. right; exact Hx.
Qed.

Lemma elevationLoop_max prev rest acc :
  isMaximumOf (max acc :: rest) (max (elevationLoop prev rest acc)).
Proof.
  revert prev acc. induction rest as [|cur rest IH]; intros prev acc.
  - simpl. split; [left; reflexivity|].
    intros x [<-|[]]. lra.
  - simpl elevationLoop.
    match goal with |- isMaximumOf _ (max (elevationLoop _ _ ?a)) =>
      destruct (IH cur a) as [Hin Hle] end.
    simpl max in Hin, Hle.
    case_Qltb (max acc) cur.
    + split.
      * destruct Hin as [<-|Hin]; [right; left; reflexivity|].
        right; right; exact Hin.
      * intros x [<-|[<-|Hx]].
        -- specialize (Hle cur (or_introl eq_refl)). lra.
        -- apply Hle. left; reflexivity.
        -- apply Hle. right; exact Hx.
    + split.
      * destruct Hin as [<-|Hin]; [left; reflexivity|right; right; exact Hin].
      * intros x [<-|[<-|Hx]].
        -- apply Hle. left; reflexivity.
        -- specialize (Hle (max acc) (or_introl eq_refl)). lra.
        -- apply Hle. right; exact Hx.
Qed.

Lemma validElevations_cons_None (l : list (option Q)) :
  validElevations (None :: l) = validElevations l.
Proof. reflexivity. Qed.

Lemma validElevations_cons_Some (x : Q) (l : list (option Q)) :
  validElevations (Some x :: l) = x :: validElevations l.
Proof. reflexivity. Qed.

Lemma validElevations_app (l1 l2 : list (option Q)) :
  validElevations (l1 ++ l2) = validElevations l1 ++ validElevations l2.
Proof. unfold validElevations. apply flat_map_app. Qed.

(** The filter of the code keeps the non-null subsequence, and that
    subsequence is unique. *)
Lemma validElevations_subsequence (l : list (option Q)) (v : list Q) :
  isNonNullSubsequence l v <-> validElevations l = v.
Proof.
  unfold isNonNullSubsequence. revert v.
  induction l as [|[x|] l IH]; intro v.
  - cbn. destruct v; cbn; split; congruence.
  - rewrite validElevations_cons_Some. cbn [filter isNumber].
    destruct v as [|y v]; cbn [map]; [split; discriminate|].
    split.
    + intro H. injection H as -> Hv. f_equal. apply IH. exact Hv.
    + intro H. injection H as -> Hv. f_equal. apply IH. exact Hv.
  - rewrite validElevations_cons_None. cbn [filter isNumber]. apply IH.
Qed.

(** C9. [calculateElevationStats] returns the sum of the positive deltas as
    gain and the sum of the absolute negative deltas as loss, taken between
    consecutive elements of the non-null subsequence in its original order,
    with the minimum and maximum of that subsequence: the nulls are skipped,
    wherever they stand, and count as no delta.  An empty or all-null input
    gives all zeros; [[100,120,110,130]] gives
    [{gain:40, loss:10, min:100, max:130}], and so does the same array with
    nulls in between. *)
Theorem calculateElevationStats_spec
    (elevations : list (option Q)) (v : list Q) :
  isNonNullSubsequence elevations v ->
  let r := calculateElevationStats elevations in
  let zeros := {| gain := 0; loss := 0; min := 0; max := 0 |} in
  (v = [] -> r = zeros) /\
  (v <> [] ->
   gain r == gainOf v /\ loss r == lossOf v /\
   isMinimumOf v (min r) /\ isMaximumOf v (max r)) /\
  ((forall e, In e elevations -> e = None) -> r = zeros) /\
  (forall before after,
     calculateElevationStats (before ++ None :: after)
     = calculateElevationStats (before ++ after)) /\
  calculateElevationStats [Some 100; Some 120; Some 110; Some 130]
    = {| gain := 40; loss := 10; min := 100; max := 130 |} /\
  calculateElevationStats
    [None; Some 100; None; None; Some 120; Some 110; None; Some 130; None]
    = {| gain := 40; loss := 10; min := 100; max := 130 |} /\
  calculateElevationStats [] = zeros /\
  calculateElevationStats [None; None; None] = zeros.
Proof.
  intros Hv r zeros. apply validElevations_subsequence in Hv.
  split; [|split; [|split; [|split; [|repeat split; reflexivity]]]].
  - intros ->. subst r. unfold calculateElevationStats. rewrite Hv.
    reflexivity.
  - intro Hne. subst r. unfold calculateElevationStats. rewrite Hv.
    destruct v as [|first rest]; [contradiction|].
    repeat split.
    + rewrite elevationLoop_gain. cbn [gain]. lra.
    + rewrite elevationLoop_loss. cbn [loss]. lra.
    + apply (elevationLoop_min first rest
               {| gain := 0; loss := 0; min := first; max := first |}).
    + apply (elevationLoop_min first rest
               {| gain := 0; loss := 0; min := first; max := first |}).
    + apply (elevationLoop_max first rest
               {| gain := 0; loss := 0; min := first; max := first |}).
    + apply (elevationLoop_max first rest
               {| gain := 0; loss := 0; min := first; max := first |}).
  - intro Hall. subst r. unfold calculateElevationStats.
    assert (E : validElevations elevations = []).
    { clear Hv. induction elevations as [|e l IH]; [reflexivity|].
      rewrite (Hall e (or_introl eq_refl)), validElevations_cons_None.
      apply IH. intros e' He'. apply Hall. right. exact He'. }
    rewrite E. reflexivity.
  - intros before after. unfold calculateElevationStats.
    rewrite !validElevations_app, validElevations_cons_None. reflexivity.
Qed.

(** The theorem applies to the array of the example with nulls in it. *)
Lemma calculateElevationStats_spec_witness :
  isNonNullSubsequence [Some 100; None; Some 120; Some 110; None; Some 130]
                       [100; 120; 110; 130] /\
  gain (calculateElevationStats
          [Some 100; None; Some 120; Some 110; None; Some 130]) == 40.
Proof.
  assert (H : isNonNullSubsequence
                [Some 100; None; Some 120; Some 110; None; Some 130]
                [100; 120; 110; 130]) by reflexivity.
  split; [exact H|].
  destruct (calculateElevationStats_spec _ _ H) as (_ & Hg & _).
  destruct (Hg ltac:(discriminate)) as (Hgain & _).
  rewrite Hgain. reflexivity.
Defined.

End ElevationStats.

(** ** The bisection loop *)

Section Bisection.
Import Utils Spec.

Lemma midpoint_between (low high : nat) :
  (low < high - 1)%nat -> (low < (low + high) / 2 < high)%nat.
Proof.
  intro H. split.
  - apply Nat.div_le_lower_bound; lia.
  - apply Nat.Div0.div_lt_upper_bound; lia.
Qed.

(** With a budget of at least [high - low - 1] iterations the loop stops
    on its own condition, at two adjacent indices that bracket the target. *)
Lemma bisect_spec fuel ds target :
  forall low high,
  (low < high)%nat -> (high - low <= S fuel)%nat ->
  nth low ds 0 <= target ->
  let l := fst (bisect fuel ds target low high) in
  let h := snd (bisect fuel ds target low high) in
  h = S l /\ (low <= l)%nat /\ (h <= high)%nat /\
  nth l ds 0 <= target /\ (h = high \/ target < nth h ds 0).
Proof.
  induction fuel as [|fuel IH]; intros low high Hlt Hfuel Hlow.
  - cbn. repeat split; try lia; auto.
  - cbn [bisect].
    destruct (low <? high - 1)%nat eqn:Hcond.
    + apply Nat.ltb_lt in Hcond.
      pose proof (midpoint_between low high Hcond) as Hmid.
      case_Qle (nth ((low + high) / 2) ds 0) target.
      * destruct (IH ((low + high) / 2)%nat high) as (H1 & H2 & H3 & H4 & H5);
          try lia; auto.
        repeat split; auto; lia.
      * destruct (IH low ((low + high) / 2)%nat) as (H1 & H2 & H3 & H4 & H5);
          try lia; auto.
        repeat split; auto; try lia.
        destruct H5 as [H5|H5]; [|right; exact H5].
        right. rewrite H5. exact E.
    + apply Nat.ltb_ge in Hcond. cbn.
      repeat split; try lia; auto.
Qed.

(** More fuel than the array is long changes nothing: the loop has
    stopped by then. *)
Lemma bisect_fuel fuel fuel' ds target low high :
  (low < high)%nat -> (high - low <= S fuel)%nat -> (fuel <= fuel')%nat ->
  bisect fuel' ds target low high = bisect fuel ds target low high.
Proof.
  revert fuel' low high.
  induction fuel as [|fuel IH]; intros fuel' low high Hlt Hfuel Hle.
  - assert (Hc : (low <? high - 1)%nat = false) by (apply Nat.ltb_ge; lia).
    destruct fuel'; cbn [bisect]; [reflexivity|]. rewrite Hc. reflexivity.
  - destruct fuel' as [|fuel']; [lia|]. cbn [bisect].
    destruct (low <? high - 1)%nat eqn:Hcond; [|reflexivity].
    apply Nat.ltb_lt in Hcond.
    pose proof (midpoint_between low high Hcond) as Hmid.
    destruct (Qle_bool (nth ((low + high) / 2) ds 0) target);
      apply IH; lia.
Qed.

End Bisection.

(** ** getTimeAtDistance *)

Section TimeAtDistance.
Import Utils Spec.

(** What the query computes once the three guards have let it through:
    adjacent bracketing indices, and the time stored or interpolated. *)
Lemma getTimeAtDistance_bracket (m : DistanceTimeMap) (target : Q) :
  IsDistanceTimeMap m ->
  0 < target -> target <= lastDistance m ->
  exists low t,
    (S low < length (distances m))%nat /\
    nth low (distances m) 0 <= target <= nth (S low) (distances m) 0 /\
    getTimeAtDistance m target = Some t /\
    (nth (S low) (distances m) 0 == nth low (distances m) 0 ->
     t = nth low (times m) 0) /\
    (~ nth (S low) (distances m) 0 == nth low (distances m) 0 ->
     t = interpolate (nth low (distances m) 0) (nth low (times m) 0)
                     (nth (S low) (distances m) 0) (nth (S low) (times m) 0)
                     target).
Proof.
  intros (Hlen & Hn & Hd0 & Ht0 & Hasc) Hpos Hlast.
  unfold lastDistance in Hlast.
  unfold getTimeAtDistance.
  set (ds := distances m) in *.
  set (n := length ds) in *.
  assert (Hg1 : (n <? 2)%nat = false) by (apply Nat.ltb_ge; lia).
  assert (Hg2 : Qltb (nth (n - 1) ds 0) target = false)
    by (apply Qltb_ge; exact Hlast).
  assert (Hg3 : Qle_bool target 0 = false) by (apply Qle_bool_gt; exact Hpos).
  rewrite Hg1, Hg2, Hg3.
  destruct (bisect_spec n ds target 0 (n - 1)) as (Hh & _ & Hhi & Hlo & Hup);
    try lia.
  { lra. }
  set (lh := bisect n ds target 0 (n - 1)) in *.
  exists (fst lh). rewrite Hh in *.
  assert (Hup' : target <= nth (S (fst lh)) ds 0).
  { destruct Hup as [Hup|Hup]; [rewrite Hup; exact Hlast|lra]. }
  case_Qeq_bool (nth (S (fst lh)) ds 0) (nth (fst lh) ds 0).
  - eexists. repeat split; try lia; auto. intro Hne. contradiction.
  - eexists. repeat split; try lia; auto. intro Heq. contradiction.
Qed.

End TimeAtDistance.

(** ** getTimeAtDistance over the doubles *)

Section DoubleTimeAtDistance.
Import Floats Double DoubleSpec.
Local Open Scope float_scope.

Lemma bisect_double fuel ds target :
  forall low high,
  (low < high)%nat -> (high - low <= S fuel)%nat ->
  let l := fst (bisect fuel ds target low high) in
  let h := snd (bisect fuel ds target low high) in
  h = S l /\ (low <= l)%nat /\ (h <= high)%nat /\
  (l = low \/ (nth l ds nan <=? target) = true) /\
  (h = high \/ (nth h ds nan <=? target) = false).
Proof.
  induction fuel as [|fuel IH]; intros low high Hlt Hfuel; cbn zeta.
  - cbn [bisect fst snd]. repeat split; try lia; auto.
  - cbn [bisect].
    destruct (low <? high - 1)%nat eqn:Hgo.
    + apply Nat.ltb_lt in Hgo.
      pose proof (midpoint_between low high Hgo) as [Hm1 Hm2].
      set (mid := ((low + high) / 2)%nat) in *.
      destruct (nth mid ds nan <=? target) eqn:Hmid.
      * destruct (IH mid high) as (Hh & Hl1 & Hh1 & Hlo & Hhi); try lia.
        repeat split; try lia; auto.
        destruct Hlo as [->|Hlo]; auto.
      * destruct (IH low mid) as (Hh & Hl1 & Hh1 & Hlo & Hhi); try lia.
        repeat split; try lia; auto.
        destruct Hhi as [->|Hhi]; auto.
    + apply Nat.ltb_ge in Hgo. cbn [fst snd].
      repeat split; try lia; auto.
Qed.





End DoubleTimeAtDistance.

(** ** Counting loops *)

(** The invariant rule for [for (i = start; i < start + len; i++)]. *)
Lemma for_loop_invariant {S : Type} (P : nat -> S -> Prop)
    (step : S -> nat -> S) (len : nat) :
  forall (start : nat) (st : S),
  P start st ->
  (forall i st', (start <= i < start + len)%nat ->
                 P i st' -> P (Datatypes.S i) (step st' i)) ->
  P (start + len)%nat (fold_left step (seq start len) st).
Proof.
  induction len as [|len IH]; intros start st H0 Hstep.
  - rewrite Nat.add_0_r. exact H0.
  - cbn [seq fold_left]. rewrite <- Nat.add_succ_comm.
    apply IH.
    + apply Hstep; [lia|exact H0].
    + intros i st' Hi. apply Hstep. lia.
Qed.

Lemma ascending_snoc (l : list Q) (y : Q) :
  Spec.ascending l -> Forall (fun x => x <= y) l -> Spec.ascending (l ++ [y]).
Proof.
  intros Hasc Hall i j [Hij Hj].
  rewrite length_app in Hj. cbn [length] in Hj.
  rewrite Forall_forall in Hall.
  destruct (Nat.lt_ge_cases j (length l)) as [Hjl|Hjl].
  - rewrite !app_nth1 by lia. apply Hasc. lia.
  - assert (j = length l) by lia. subst j.
    assert (Hy : nth (length l) (l ++ [y]) 0 = y).
    { rewrite app_nth2 by lia. rewrite Nat.sub_diag. reflexivity. }
    destruct (Nat.lt_ge_cases i (length l)) as [Hil|Hil].
    + rewrite Hy. rewrite app_nth1 by lia. apply Hall. apply nth_In. exact Hil.
    + assert (i = length l) by lia. subst i. apply Qle_refl.
Qed.

Lemma ascending_singleton (x : Q) : Spec.ascending [x].
Proof.
  intros i j [Hij Hj]. cbn [length] in Hj.
  assert (j = 0%nat) by lia. assert (i = 0%nat) by lia. subst.
  apply Qle_refl.
Qed.

Lemma Forall_le_snoc (l : list Q) (y b : Q) :
  Forall (fun x => x <= b) l -> y <= b -> Forall (fun x => x <= b) (l ++ [y]).
Proof.
  intros Hl Hy. apply Forall_app. split; [exact Hl|].
  constructor; [exact Hy|constructor].
Qed.

Lemma Forall_le_trans (l : list Q) (a b : Q) :
  Forall (fun x => x <= a) l -> a <= b -> Forall (fun x => x <= b) l.
Proof.
  intros Hl Hab. eapply Forall_impl; [|exact Hl].
  cbn. intros x Hx. lra.
Qed.

(** ** buildTimeDistanceMap *)

Section TimeDistanceMap.
Import Utils Spec.

Variable haversineDistance : Coordinate -> Coordinate -> Q.

Lemma elapsed_mono (startTime a b : Z) :
  (a <= b)%Z -> elapsed startTime a <= elapsed startTime b.
Proof.
  intro H. unfold elapsed.
  assert (Hq : inject_Z (a - startTime) <= inject_Z (b - startTime)).
  { rewrite <- Zle_Qle. lia. }
  unfold Qdiv. apply Qmult_le_compat_r; [exact Hq|].
  apply Qlt_le_weak. reflexivity.
Qed.

Lemma elapsed_start (startTime : Z) : elapsed startTime startTime == 0.
Proof. unfold elapsed. rewrite Z.sub_diag. reflexivity. Qed.

Lemma buildStep_invariant (route : Route) (startTime : Z) (i : nat)
    (st : Q * DistanceTimeMap) :
  (forall i j a b, (i <= j)%nat ->
     nth i (timestamps route) None = Some a ->
     nth j (timestamps route) None = Some b -> (a <= b)%Z) ->
  legsNonNegative haversineDistance route ->
  (1 <= i < length (coordinates route))%nat ->
  buildInvariant route startTime i st ->
  buildInvariant route startTime (S i)
    (buildStep haversineDistance route startTime st i).
Proof.
  intros Hmono Hlegs Hi (Hlen & Hn & Hd0 & Ht0 & Had & Hat & Hcum & Hfut).
  unfold buildStep.
  set (dist := haversineDistance _ _).
  assert (Hdist : 0 <= dist) by (apply Hlegs; exact Hi).
  destruct (nth i (timestamps route) None) as [t|] eqn:Hti.
  - unfold buildInvariant. cbn [fst snd distances times].
    repeat split.
    + rewrite !length_app. cbn [length]. lia.
    + rewrite length_app. lia.
    + rewrite app_nth1 by lia. exact Hd0.
    + rewrite app_nth1 by lia. exact Ht0.
    + apply ascending_snoc; [exact Had|].
      apply Forall_le_trans with (a := fst st); [exact Hcum|lra].
    + apply ascending_snoc; [exact Hat|].
      apply (Hfut i t); [lia|exact Hti].
    + apply Forall_le_snoc; [|lra].
      apply Forall_le_trans with (a := fst st); [exact Hcum|lra].
    + intros j t' Hj Htj. apply Forall_le_snoc.
      * apply (Hfut j t'); [lia|exact Htj].
      * apply elapsed_mono. apply (Hmono i j); [lia|exact Hti|exact Htj].
  - unfold buildInvariant. cbn [fst snd].
    repeat split; auto.
    + apply Forall_le_trans with (a := fst st); [exact Hcum|lra].
    + intros j t' Hj Htj. apply (Hfut j t'); [lia|exact Htj].
Qed.

Lemma buildLoop_invariant (route : Route) (startTime : Z) :
  (forall i j a b, (i <= j)%nat ->
     nth i (timestamps route) None = Some a ->
     nth j (timestamps route) None = Some b -> (a <= b)%Z) ->
  legsNonNegative haversineDistance route ->
  nth 0 (timestamps route) None = Some startTime ->
  buildInvariant route startTime (1 + (length (coordinates route) - 1))
    (fold_left (buildStep haversineDistance route startTime)
               (seq 1 (length (coordinates route) - 1))
               (0, {| distances := [0]; times := [0] |})).
Proof.
  intros Hmono Hlegs Hstart.
  apply (for_loop_invariant (buildInvariant route startTime)).
  - unfold buildInvariant. cbn [fst snd distances times length nth].
    repeat split; try lia.
    + apply ascending_singleton.
    + apply ascending_singleton.
    + constructor; [apply Qle_refl|constructor].
    + intros j t Hj Htj. constructor; [|constructor].
      rewrite <- (elapsed_start startTime).
      apply elapsed_mono. apply (Hmono 0%nat j); [lia|exact Hstart|exact Htj].
  - intros i st' Hi Hinv. apply buildStep_invariant; try assumption. lia.
Qed.

(** A map that was built is a DistanceTimeMap of the data model. *)
Lemma buildTimeDistanceMap_IsDistanceTimeMap (route : Route)
    (m : DistanceTimeMap) :
  (forall i j a b, (i <= j)%nat ->
     nth i (timestamps route) None = Some a ->
     nth j (timestamps route) None = Some b -> (a <= b)%Z) ->
  legsNonNegative haversineDistance route ->
  buildTimeDistanceMap haversineDistance route = Some m ->
  IsDistanceTimeMap m.
Proof.
  intros Hmono Hlegs. unfold buildTimeDistanceMap.
  destruct (nth 0 (timestamps route) None) as [startTime|] eqn:Hstart;
    [|discriminate].
  destruct (startTime =? 0)%Z; [discriminate|].
  pose proof (buildLoop_invariant route startTime Hmono Hlegs Hstart)
    as (Hlen & Hn & Hd0 & Ht0 & Had & _).
  destruct (1 <? length _)%nat eqn:Hsize; [|discriminate].
  apply Nat.ltb_lt in Hsize.
  intros [= <-]. unfold IsDistanceTimeMap. rewrite Hd0, Ht0.
  repeat split; auto; reflexivity.
Qed.

(** C3. On a route whose non-null timestamps are non-decreasing and
    whose legs all have a distance that is a number, not negative, a map
    that [buildTimeDistanceMap] returns has two arrays of the same length,
    at least 2, both starting at 0 and both non-decreasing; consecutive
    identical coordinates (distance 0) are within the assumption. *)
Theorem buildTimeDistanceMap_ascending (route : Route) (m : DistanceTimeMap) :
  (forall i j a b, (i <= j)%nat ->
     nth i (timestamps route) None = Some a ->
     nth j (timestamps route) None = Some b -> (a <= b)%Z) ->
  legsNonNegative haversineDistance route ->
  buildTimeDistanceMap haversineDistance route = Some m ->
  length (distances m) = length (times m) /\
  (2 <= length (distances m))%nat /\
  nth 0 (distances m) 0 = 0 /\
  nth 0 (times m) 0 = 0 /\
  ascending (distances m) /\
  ascending (times m).
Proof.
  intros Hmono Hlegs. unfold buildTimeDistanceMap.
  destruct (nth 0 (timestamps route) None) as [startTime|] eqn:Hstart;
    [|discriminate].
  destruct (startTime =? 0)%Z; [discriminate|].
  pose proof (buildLoop_invariant route startTime Hmono Hlegs Hstart)
    as (Hlen & Hn & Hd0 & Ht0 & Had & Hat & _).
  destruct (1 <? length _)%nat eqn:Hsize; [|discriminate].
  apply Nat.ltb_lt in Hsize.
  intros [= <-]. repeat split; auto.
Qed.

End TimeDistanceMap.

(** ** buildTimeDistanceMap over the doubles *)

Section DoubleTimeDistanceMap.
Import Floats Double DoubleSpec.
Local Open Scope float_scope.

Lemma nan_add (x : float) : nan + x = nan.
Proof. apply Prim2SF_inj. rewrite add_spec. reflexivity. Qed.

Section Engine.

Variables (Math_sin Math_cos : float -> float).
Variable Math_atan2 : float -> float -> float.

Hypothesis sin_half_dLat : Math_sin 1.4311699866353502 = 0.9902680687415704.
Hypothesis cos_lat1 : Math_cos (-1.4311699866353502) = 0.13917310096006547.
Hypothesis cos_lat2 : Math_cos 1.4311699866353502 = 0.13917310096006547.
Hypothesis sin_half_dLon : Math_sin 1.5707963267948966 = 1.
Hypothesis atan2_nan : forall y, Math_atan2 y nan = nan.

(** From (-82, -179) to (82, 1), nearly the antipode, the sum [a] of the
    haversine formula comes out as 1.0000000000000002: [1 - a] is
    negative, its square root is NaN, and so is the distance. *)
Lemma haversineDistance_nan :
  haversineDistance Math_sin Math_cos Math_atan2
    {| lat := -82; lng := -179 |} {| lat := 82; lng := 1 |} = nan.
Proof.
  unfold haversineDistance, toRad, PI. cbn [lat lng].
  change (82 - -82) with 164. change (1 - -179) with 180.
  change (164 * (0x1.921fb54442d18p+1 / 180) / 2) with 1.4311699866353502.
  change (180 * (0x1.921fb54442d18p+1 / 180) / 2) with 1.5707963267948966.
  change (-82 * (0x1.921fb54442d18p+1 / 180)) with (-1.4311699866353502).
  change (82 * (0x1.921fb54442d18p+1 / 180)) with 1.4311699866353502.
  rewrite sin_half_dLat, cos_lat1, cos_lat2, sin_half_dLon.
  change (0.9902680687415704 * 0.9902680687415704 +
          0.13917310096006547 * 0.13917310096006547 * 1 * 1)
    with 1.0000000000000002.
  change (sqrt (1 - 1.0000000000000002)) with nan.
  rewrite atan2_nan. reflexivity.
Qed.

(** The NaN stays in the running sum: every distance of the map after the
    first is NaN. *)
Lemma buildTimeDistanceMap_nan :
  buildTimeDistanceMap Math_sin Math_cos Math_atan2 antipodalRoute
  = Some {| distances := [0; nan; nan]; times := [0; 1; 2] |}.
Proof.
  unfold buildTimeDistanceMap, antipodalRoute.
  cbn [timestamps coordinates nth length Nat.sub seq fold_left].
  change ((1000 =? 0) || is_nan 1000) with false. cbv iota.
  unfold buildStep.
  cbn [timestamps coordinates nth Nat.sub fst snd distances times app].
  rewrite haversineDistance_nan, nan_add. reflexivity.
Qed.

End Engine.

(** The timestamps of [antipodalRoute] are non-decreasing and its map is
    built, but the distances of the map are [[0, NaN, NaN]], and 0 <= NaN
    is false. *)
Lemma buildTimeDistanceMap_not_ascending :
  timestamps antipodalRoute = [Some 1000; Some 2000; Some 3000] /\
  (1000 <=? 2000) = true /\ (2000 <=? 3000) = true /\
  exists m,
    buildTimeDistanceMap sinAt cosAt atan2At antipodalRoute = Some m /\
    distances m = [0; nan; nan] /\
    times m = [0; 1; 2] /\
    (nth 0 (distances m) nan <=? nth 1 (distances m) nan) = false /\
    (nth 1 (distances m) nan <=? nth 2 (distances m) nan) = false.
Proof.
  split; [reflexivity|]. split; [reflexivity|]. split; [reflexivity|].
  exists {| distances := [0; nan; nan]; times := [0; 1; 2] |}.
  split; [|repeat split].
  apply buildTimeDistanceMap_nan; try reflexivity.
  intro y. unfold atan2At. rewrite Bool.orb_true_r. reflexivity.
Qed.

End DoubleTimeDistanceMap.

(** ** Array reads and writes *)

Lemma nth_map_seq {A : Type} (f : nat -> A) (start len i : nat) (d : A) :
  (i < len)%nat -> nth i (map f (seq start len)) d = f (start + i)%nat.
Proof.
  intro Hi.
  rewrite (nth_indep _ d (f 0%nat))
    by (rewrite length_map, length_seq; exact Hi).
  rewrite map_nth. rewrite seq_nth by exact Hi. reflexivity.
Qed.

Lemma nth_js_set {A : Type} (l : list (option A)) (i j : nat) (v : option A) :
  nth j (Utils.js_set None l i v) None =
  if (j =? i)%nat then v else nth j l None.
Proof.
  revert l j. induction i as [|i IH]; intros l j.
  - destruct l as [|x l]; destruct j as [|j]; cbn; try reflexivity.
    destruct j; reflexivity.
  - destruct l as [|x l]; destruct j as [|j]; cbn [Utils.js_set nth Nat.eqb];
      try reflexivity.
    + rewrite IH. destruct (j =? i)%nat; [reflexivity|].
      destruct j; reflexivity.
    + apply IH.
Qed.

Lemma length_js_set {A : Type} (l : list (option A)) (i : nat) (v : option A) :
  (i < length l)%nat -> length (Utils.js_set None l i v) = length l.
Proof.
  revert l. induction i as [|i IH]; intros [|x l] Hi; cbn in *; try lia.
  rewrite IH by lia. reflexivity.
Qed.

(** ** filterAccelerationSpikes *)

Section AccelerationSpikes.
Import Utils Spec.

Lemma filterAccelerationSpikes_length speeds timestamps maxAcceleration :
  length (filterAccelerationSpikes speeds timestamps maxAcceleration)
  = length speeds.
Proof.
  unfold filterAccelerationSpikes.
  destruct (length speeds <? 2)%nat eqn:E; [reflexivity|].
  apply Nat.ltb_ge in E. cbn [length]. rewrite length_map, length_seq. lia.
Qed.

(** The output, index by index: the first entry is copied, every later
    one is decided by [accelerationStep] on the raw arrays. *)
Lemma filterAccelerationSpikes_nth speeds timestamps maxAcceleration i :
  (2 <= length speeds)%nat -> (i < length speeds)%nat ->
  nth i (filterAccelerationSpikes speeds timestamps maxAcceleration) None =
  match i with
  | O => nth 0 speeds None
  | S _ => accelerationStep speeds timestamps maxAcceleration i
  end.
Proof.
  intros Hn Hi. unfold filterAccelerationSpikes.
  assert (E : (length speeds <? 2)%nat = false) by (apply Nat.ltb_ge; lia).
  rewrite E. destruct i as [|i]; [reflexivity|].
  cbn [nth]. rewrite nth_map_seq by lia. reflexivity.
Qed.

(** Every output entry is the raw speed at that index or null. *)
Lemma accelerationStep_cases speeds timestamps maxAcceleration i :
  accelerationStep speeds timestamps maxAcceleration i = nth i speeds None \/
  accelerationStep speeds timestamps maxAcceleration i = None.
Proof.
  unfold accelerationStep.
  destruct (nth i timestamps None), (nth (i - 1) timestamps None); auto.
  destruct (falsy _ || falsy _); auto.
  destruct (Qltb 0 _); auto.
  destruct (Qltb maxAcceleration _); auto.
Qed.

Lemma filterAccelerationSpikes_cases speeds timestamps maxAcceleration i :
  nth i (filterAccelerationSpikes speeds timestamps maxAcceleration) None
    = nth i speeds None \/
  nth i (filterAccelerationSpikes speeds timestamps maxAcceleration) None
    = None.
Proof.
  destruct (Nat.lt_ge_cases i (length speeds)) as [Hi|Hi].
  - destruct (Nat.lt_ge_cases (length speeds) 2) as [Hn|Hn].
    + left. unfold filterAccelerationSpikes.
      apply Nat.ltb_lt in Hn. rewrite Hn. reflexivity.
    + rewrite filterAccelerationSpikes_nth by assumption.
      destruct i; [left; reflexivity|apply accelerationStep_cases].
  - right. apply nth_overflow. rewrite filterAccelerationSpikes_length.
    exact Hi.
Qed.

(** The step at [i] reads the raw arrays at [i - 1] and [i] only. *)
Lemma accelerationStep_local speeds speeds' timestamps maxAcceleration i :
  nth i speeds' None = nth i speeds None ->
  nth (i - 1) speeds' None = nth (i - 1) speeds None ->
  accelerationStep speeds' timestamps maxAcceleration i =
  accelerationStep speeds timestamps maxAcceleration i.
Proof.
  intros H1 H2. unfold accelerationStep. rewrite H1, H2. reflexivity.
Qed.

(** Between two present, non-zero speeds with present timestamps and a
    positive elapsed time, the later speed is rejected exactly when the
    acceleration exceeds the threshold. *)
Lemma accelerationStep_nonzero speeds timestamps maxAcceleration i si sp ti tp :
  nth i speeds None = Some si -> nth (i - 1) speeds None = Some sp ->
  ~ si == 0 -> ~ sp == 0 ->
  nth i timestamps None = Some ti -> nth (i - 1) timestamps None = Some tp ->
  0 < inject_Z (ti - tp) / 1000 ->
  (accelerationStep speeds timestamps maxAcceleration i = None <->
   maxAcceleration <
     Qabs (si - sp) * (1000 / 3600) / (inject_Z (ti - tp) / 1000)) /\
  (accelerationStep speeds timestamps maxAcceleration i <> None ->
   accelerationStep speeds timestamps maxAcceleration i = Some si).
Proof.
  intros Hsi Hsp Hzi Hzp Hti Htp Hdt. unfold accelerationStep.
  rewrite Hsi, Hsp, Hti, Htp. cbn [falsy toNumber].
  case_Qeq_bool si 0; [contradiction|].
  case_Qeq_bool sp 0; [contradiction|]. cbn [orb].
  apply Qltb_lt in Hdt. rewrite Hdt.
  match goal with |- context [Qltb maxAcceleration ?a] =>
    case_Qltb maxAcceleration a end.
  - split; [tauto|]. intro H. contradiction.
  - split; [|reflexivity]. split; [discriminate|]. intro H. lra.
Qed.

(** C6 (the zero speed). From a standstill to 100 km/h within one second
    is 27.8 m/s^2, above the threshold of 10; both speeds and both
    timestamps are present, yet the later speed passes the filter: the
    guard [!speeds[i-1]] takes the speed 0 for a missing one. *)
Theorem filterAccelerationSpikes_zero_speed :
  let speeds := [Some 0; Some 100] in
  let timestamps := [Some 1000%Z; Some 2000%Z] in
  0 < inject_Z (2000 - 1000) / 1000 /\
  10 < Qabs (100 - 0) * (1000 / 3600) / (inject_Z (2000 - 1000) / 1000) /\
  nth 1 (filterAccelerationSpikes speeds timestamps 10) None = Some 100 /\
  nth 1 (filterAccelerationSpikes [Some 1; Some 100] timestamps 10) None
    = None.
Proof.
  cbv zeta. repeat split.
Qed.

End AccelerationSpikes.

(** ** cleanGPSData *)

Section CleanGPSData.
Import Utils Spec.

Variable haversineDistance : Coordinate -> Coordinate -> Q.
Variables (rawSpeeds rawPaces : list (option Q)).
Variable coordinates : list Coordinate.
Variable timestamps : list (option Z).
Variable maxSpeed : Q.

Local Abbreviation distanceFlags :=
  (filterDistanceJumps haversineDistance coordinates timestamps maxSpeed).
Local Abbreviation accelFiltered :=
  (filterAccelerationSpikes rawSpeeds timestamps defaultMaxAcceleration).
Local Abbreviation cleaned :=
  (cleanGPSData haversineDistance rawSpeeds rawPaces coordinates timestamps
                maxSpeed).
Local Abbreviation rejectedb :=
  (Spec.rejectedb rawSpeeds distanceFlags accelFiltered maxSpeed).
Local Abbreviation rejected :=
  (Spec.rejected rawSpeeds distanceFlags accelFiltered maxSpeed).
Local Abbreviation cleanInvariant :=
  (Spec.cleanInvariant rawSpeeds rawPaces distanceFlags accelFiltered maxSpeed).

Lemma rejectedb_rejected (i : nat) : rejectedb i = true <-> rejected i.
Proof.
  unfold rejectedb, rejected.
  rewrite !orb_true_iff, negb_true_iff.
  split.
  - intros [[H|H]|H].
    + left. exact H.
    + right. left.
      destruct (nth i accelFiltered None); [discriminate|reflexivity].
    + destruct (nth i rawSpeeds None) as [v|] eqn:Hv.
      * right. right. exists v. split; [reflexivity|].
        cbn [toNumber] in H.
        destruct H as [H|H]; apply Qltb_lt in H; auto.
      * right. left.
        destruct (filterAccelerationSpikes_cases rawSpeeds timestamps
                    defaultMaxAcceleration i) as [Hc|Hc];
          fold accelFiltered in Hc; rewrite Hc; [exact Hv|reflexivity].
  - intros [H|[H|(v & Hv & H)]].
    + left. left. exact H.
    + left. right. rewrite H. reflexivity.
    + right. rewrite Hv. cbn [toNumber].
      destruct H as [H|H]; apply Qltb_lt in H; auto.
Qed.

Lemma cleanStep_rejectedb (st : Cleaned) (i : nat) :
  cleanStep rawSpeeds distanceFlags accelFiltered maxSpeed st i =
  if rejectedb i then invalidate st i
  else {| speeds := speeds st; paces := paces st;
          validIndices := validIndices st ++ [i] |}.
Proof.
  unfold cleanStep, rejectedb.
  destruct (negb (nth i distanceFlags false)
            || missing (nth i accelFiltered None)); [reflexivity|].
  cbn [orb]. reflexivity.
Qed.

Lemma write_null_step (l raw : list (option Q)) (k : nat) :
  (forall j, nth j l None =
             if (j <? k)%nat && rejectedb j then None else nth j raw None) ->
  rejectedb k = true ->
  forall j, nth j (js_set None l k None) None =
            if (j <? S k)%nat && rejectedb j then None else nth j raw None.
Proof.
  intros H Hk j. rewrite nth_js_set, H.
  destruct (j =? k)%nat eqn:Ejk.
  - apply Nat.eqb_eq in Ejk. subst j.
    assert (E : (k <? S k)%nat = true) by (apply Nat.ltb_lt; lia).
    rewrite E, Hk. reflexivity.
  - apply Nat.eqb_neq in Ejk.
    destruct (j <? k)%nat eqn:E1; destruct (j <? S k)%nat eqn:E2;
      try reflexivity.
    + apply Nat.ltb_lt in E1. apply Nat.ltb_ge in E2. lia.
    + apply Nat.ltb_ge in E1. apply Nat.ltb_lt in E2. lia.
Qed.

Lemma keep_step (l raw : list (option Q)) (k : nat) :
  (forall j, nth j l None =
             if (j <? k)%nat && rejectedb j then None else nth j raw None) ->
  rejectedb k = false ->
  forall j, nth j l None =
            if (j <? S k)%nat && rejectedb j then None else nth j raw None.
Proof.
  intros H Hk j. rewrite H.
  destruct (Nat.eq_dec j k) as [->|Hjk].
  - rewrite Hk, !andb_false_r. reflexivity.
  - destruct (j <? k)%nat eqn:E1; destruct (j <? S k)%nat eqn:E2;
      try reflexivity.
    + apply Nat.ltb_lt in E1. apply Nat.ltb_ge in E2. lia.
    + apply Nat.ltb_ge in E1. apply Nat.ltb_lt in E2. lia.
Qed.

Lemma cleanStep_invariant (k : nat) (st : Cleaned) :
  cleanInvariant k st ->
  cleanInvariant (S k)
    (cleanStep rawSpeeds distanceFlags accelFiltered maxSpeed st k).
Proof.
  intros (Hs & Hp & Hv). rewrite cleanStep_rejectedb.
  assert (Hseq : filter (fun j => negb (rejectedb j)) (seq 0 (S k)) =
                 filter (fun j => negb (rejectedb j)) (seq 0 k) ++
                 (if rejectedb k then [] else [k])).
  { rewrite seq_S, filter_app. cbn [filter Nat.add].
    destruct (rejectedb k); reflexivity. }
  destruct (rejectedb k) eqn:Hk; unfold cleanInvariant;
    cbn [invalidate speeds paces validIndices]; rewrite Hseq.
  - repeat split.
    + apply write_null_step; assumption.
    + apply write_null_step; assumption.
    + rewrite app_nil_r. exact Hv.
  - repeat split.
    + apply keep_step; assumption.
    + apply keep_step; assumption.
    + rewrite Hv. reflexivity.
Qed.

Lemma cleanGPSData_invariant : cleanInvariant (length rawSpeeds) cleaned.
Proof.
  unfold cleaned, cleanGPSData.
  apply (for_loop_invariant cleanInvariant
           (cleanStep rawSpeeds distanceFlags accelFiltered maxSpeed)
           (length rawSpeeds) 0%nat).
  - unfold cleanInvariant. cbn [speeds paces validIndices seq filter].
    repeat split.
  - intros i st _ Hinv. apply cleanStep_invariant. exact Hinv.
Qed.

(** C5. When raw speed and pace are null together, [cleanGPSData] leaves
    cleaned speed and pace null together; a point is invalidated exactly
    when its distance-jump flag is false, or its acceleration-filtered
    speed is null, or its raw speed is outside [[0, maxSpeed]];
    [validIndices] holds exactly the indices that pass the three checks;
    and a valid index keeps its raw speed, which is a number within
    [[0, maxSpeed]]. *)
Theorem cleanGPSData_spec :
  (forall i, (i < length rawSpeeds)%nat ->
     (nth i rawSpeeds None = None <-> nth i rawPaces None = None)) ->
  (forall i, (i < length rawSpeeds)%nat ->
     (nth i (speeds cleaned) None = None <->
      nth i (paces cleaned) None = None)) /\
  (forall i, (i < length rawSpeeds)%nat ->
     (rejected i <->
      nth i (speeds cleaned) None = None /\
      nth i (paces cleaned) None = None)) /\
  (forall i, In i (validIndices cleaned) <->
             (i < length rawSpeeds)%nat /\ ~ rejected i) /\
  (forall i, In i (validIndices cleaned) ->
     exists v, nth i (speeds cleaned) None = Some v /\
               nth i rawSpeeds None = Some v /\
               0 <= v <= maxSpeed).
Proof.
  intros Hraw.
  destruct cleanGPSData_invariant as (Hs & Hp & Hv).
  assert (Hkept : forall i, rejectedb i = false ->
                  exists v, nth i rawSpeeds None = Some v /\
                            0 <= v <= maxSpeed).
  { intros i Hi. unfold rejectedb in Hi.
    rewrite !orb_false_iff, negb_false_iff in Hi.
    destruct Hi as [[_ Hacc] [Hhi Hlo]].
    destruct (nth i rawSpeeds None) as [v|] eqn:Hsp.
    - exists v. cbn [toNumber] in Hhi, Hlo.
      apply Qltb_ge in Hhi, Hlo. repeat split; auto.
    - exfalso.
      destruct (filterAccelerationSpikes_cases rawSpeeds timestamps
                  defaultMaxAcceleration i) as [Hc|Hc];
        fold accelFiltered in Hc; rewrite Hc in Hacc;
        [rewrite Hsp in Hacc|]; discriminate. }
  assert (Hin : forall i, In i (validIndices cleaned) <->
                          (i < length rawSpeeds)%nat /\ rejectedb i = false).
  { intro i. rewrite Hv, filter_In, in_seq, negb_true_iff. intuition lia. }
  split; [|split; [|split]].
  - intros i Hi. rewrite Hs, Hp.
    apply Nat.ltb_lt in Hi. rewrite Hi. cbn [andb].
    destruct (rejectedb i); [tauto|]. apply Hraw. apply Nat.ltb_lt. exact Hi.
  - intros i Hi. rewrite <- rejectedb_rejected, Hs, Hp.
    pose proof Hi as Hi'. apply Nat.ltb_lt in Hi'. rewrite Hi'. cbn [andb].
    destruct (rejectedb i) eqn:Hr; [tauto|].
    destruct (Hkept i Hr) as (v & Hsv & _). rewrite Hsv.
    split; [discriminate|intros [H _]; discriminate].
  - intro i. rewrite Hin, <- rejectedb_rejected.
    destruct (rejectedb i); intuition congruence.
  - intros i Hi. apply Hin in Hi. destruct Hi as [Hi Hr].
    destruct (Hkept i Hr) as (v & Hsv & Hrange).
    exists v. rewrite Hs, Hr, andb_false_r. auto.
Qed.

End CleanGPSData.

(** ** calculateTimeGaps *)

Section TimeGaps.
Import Utils Spec.

Variable haversineDistance : Coordinate -> Coordinate -> Q.

Lemma sampleAt_linear (sampleInterval : Q) (k : nat) :
  sampleAt sampleInterval k == inject_Z (Z.of_nat k) * sampleInterval.
Proof.
  induction k as [|k IH].
  - change (0 == 0 * sampleInterval). lra.
  - cbn [sampleAt]. rewrite IH, Nat2Z.inj_succ. unfold Z.succ.
    rewrite inject_Z_plus. change (inject_Z 1) with 1. ring.
Qed.

Lemma sampleAt_mono (sampleInterval : Q) (j k : nat) :
  0 < sampleInterval -> (j <= k)%nat ->
  sampleAt sampleInterval j <= sampleAt sampleInterval k.
Proof.
  intros Hpos Hjk. induction Hjk as [|k Hjk IH].
  - apply Qle_refl.
  - cbn [sampleAt]. lra.
Qed.

Lemma sampleCount_spec (maxDist sampleInterval : Q) :
  0 < sampleInterval ->
  (forall j, (j < sampleCount maxDist sampleInterval)%nat ->
             sampleAt sampleInterval j <= maxDist) /\
  maxDist < sampleAt sampleInterval (sampleCount maxDist sampleInterval).
Proof.
  intro Hpos. unfold sampleCount.
  case_Qltb maxDist 0.
  - split; [intros j Hj; lia|]. cbn. exact E.
  - set (q := maxDist / sampleInterval).
    assert (Hq : q * sampleInterval == maxDist).
    { unfold q. field. intro Hz. lra. }
    assert (Hq0 : 0 <= q).
    { unfold q. apply Qle_shift_div_l; [exact Hpos|]. lra. }
    assert (HF : (0 <= Qfloor q)%Z).
    { change 0%Z with (Qfloor 0). apply Qfloor_resp_le. exact Hq0. }
    pose proof (Qfloor_le q) as Hlo.
    pose proof (Qlt_floor q) as Hhi.
    split.
    + intros j Hj. rewrite sampleAt_linear, <- Hq.
      apply Qmult_le_compat_r; [|lra].
      apply Qle_trans with (inject_Z (Qfloor q)); [|exact Hlo].
      rewrite <- Zle_Qle. lia.
    + rewrite sampleAt_linear, <- Hq. rewrite Z2Nat.id by lia.
      apply Qmult_lt_compat_r; assumption.
Qed.

(** The sampling loop, started at the [k]-th sample with [m] samples left
    within range and at least as much fuel, returns, having appended the
    points of those [m] samples in order. *)
Lemma sampleLoop_returns refMap compMaps maxDist sampleInterval :
  forall m fuel k gaps,
  (forall j, (k <= j < k + m)%nat -> sampleAt sampleInterval j <= maxDist) ->
  maxDist < sampleAt sampleInterval (k + m) ->
  (m <= fuel)%nat ->
  sampleLoop fuel refMap compMaps maxDist sampleInterval
             (sampleAt sampleInterval k) gaps =
  Returned (gaps ++
            flat_map (fun j => pointsAt refMap compMaps
                                        (sampleAt sampleInterval j))
                     (seq k m)).
Proof.
  induction m as [|m IH]; intros fuel k gaps Hin Hout Hfuel.
  - rewrite Nat.add_0_r in Hout. apply Qle_bool_gt in Hout.
    cbn [seq flat_map]. rewrite app_nil_r.
    destruct fuel; cbn [sampleLoop]; rewrite Hout; reflexivity.
  - destruct fuel as [|fuel]; [lia|]. cbn [sampleLoop].
    assert (Hk : Qle_bool (sampleAt sampleInterval k) maxDist = true).
    { apply Qle_bool_iff. apply Hin. lia. }
    rewrite Hk.
    change (sampleAt sampleInterval k + sampleInterval)
      with (sampleAt sampleInterval (S k)).
    rewrite IH.
    + cbn [seq flat_map]. unfold pointsAt at 2.
      destruct (samplePoint refMap compMaps (sampleAt sampleInterval k)).
      * rewrite <- app_assoc. reflexivity.
      * reflexivity.
    + intros j Hj. apply Hin. lia.
    + rewrite Nat.add_succ_comm. exact Hout.
    + lia.
Qed.

Lemma minOf_spec (rest : list Q) :
  forall first, isMinimumOf (first :: rest) (minOf first rest).
Proof.
  induction rest as [|x rest IH]; intro first.
  - cbn. split; [left; reflexivity|]. intros y [<-|[]]. apply Qle_refl.
  - unfold minOf. cbn [fold_left].
    fold (minOf (if Qltb x first then x else first) rest).
    destruct (IH (if Qltb x first then x else first)) as [Hin Hle].
    case_Qltb x first.
    + split.
      * destruct Hin as [<-|Hin]; [right; left; reflexivity|].
        right; right; exact Hin.
      * intros y [<-|[<-|Hy]].
        -- specialize (Hle x (or_introl eq_refl)). lra.
        -- apply Hle. left; reflexivity.
        -- apply Hle. right; exact Hy.
    + split.
      * destruct Hin as [<-|Hin]; [left; reflexivity|].
        right; right; exact Hin.
      * intros y [<-|[<-|Hy]].
        -- apply Hle. left; reflexivity.
        -- specialize (Hle first (or_introl eq_refl)). lra.
        -- apply Hle. right; exact Hy.
Qed.

Lemma in_buildCompMaps (comparisonRoutes : list Route) (r : Route)
    (m : DistanceTimeMap) :
  In (r, m) (buildCompMaps haversineDistance comparisonRoutes) <->
  In r comparisonRoutes /\ buildTimeDistanceMap haversineDistance r = Some m.
Proof.
  unfold buildCompMaps. rewrite in_flat_map. split.
  - intros (r' & Hr' & Hin).
    destruct (buildTimeDistanceMap haversineDistance r') as [m'|] eqn:Hb;
      [|contradiction].
    destruct Hin as [[= <- <-]|[]]. split; assumption.
  - intros [Hr Hb]. exists r. split; [exact Hr|].
    rewrite Hb. left. reflexivity.
Qed.

Lemma in_comparisonsAt compMaps d refTime (e : Comparison) :
  In e (comparisonsAt compMaps d refTime) <->
  exists m, In (route e, m) compMaps /\
            getTimeAtDistance m d = Some (time e) /\
            gap e = time e - refTime.
Proof.
  unfold comparisonsAt. rewrite in_flat_map. split.
  - intros ([r m] & Hc & Hin). cbn [fst snd] in Hin.
    destruct (getTimeAtDistance m d) as [t|] eqn:Ht; [|contradiction].
    destruct Hin as [<-|[]]. cbn [route time gap].
    exists m. repeat split; assumption.
  - intros (m & Hc & Ht & Hg). exists (route e, m). split; [exact Hc|].
    cbn [fst snd]. rewrite Ht. left.
    destruct e as [r t g]. cbn [route time gap] in *. rewrite Hg. reflexivity.
Qed.

(** What a recorded point holds. *)
Lemma samplePoint_Some refMap compMaps d (g : GapPoint) :
  samplePoint refMap compMaps d = Some g <->
  distance g = d /\
  getTimeAtDistance refMap d = Some (referenceTime g) /\
  comparisons g = comparisonsAt compMaps d (referenceTime g) /\
  comparisons g <> [].
Proof.
  unfold samplePoint. split.
  - destruct (getTimeAtDistance refMap d) as [refTime|]; [|discriminate].
    destruct (comparisonsAt compMaps d refTime) as [|c cs] eqn:Hcs;
      [discriminate|].
    intros [= <-]. cbn [distance referenceTime comparisons].
    repeat split; auto. discriminate.
  - intros (Hd & Hr & Hc & Hne). rewrite Hr, <- Hc.
    destruct g as [gd gr gc]. cbn [distance referenceTime comparisons] in *.
    subst gd. destruct gc; [contradiction|reflexivity].
Qed.

Lemma samplePoint_exists refMap compMaps d refTime r m t :
  getTimeAtDistance refMap d = Some refTime ->
  In (r, m) compMaps -> getTimeAtDistance m d = Some t ->
  exists g, samplePoint refMap compMaps d = Some g.
Proof.
  intros Hr Hc Ht. unfold samplePoint. rewrite Hr.
  assert (Hin : In {| route := r; time := t; gap := t - refTime |}
                   (comparisonsAt compMaps d refTime)).
  { apply in_comparisonsAt. exists m. cbn [route time gap]. auto. }
  destruct (comparisonsAt compMaps d refTime); [contradiction|].
  eexists. reflexivity.
Qed.

Lemma calculateTimeGaps_unfold fuel referenceRoute comparisonRoutes
    sampleInterval refMap :
  buildTimeDistanceMap haversineDistance referenceRoute = Some refMap ->
  buildCompMaps haversineDistance comparisonRoutes <> [] ->
  calculateTimeGaps haversineDistance fuel referenceRoute comparisonRoutes
                    sampleInterval =
  let compMaps := buildCompMaps haversineDistance comparisonRoutes in
  let maxDist := minOf (lastDistance refMap)
                       (map (fun c => lastDistance (snd c)) compMaps) in
  match sampleLoop fuel refMap compMaps maxDist sampleInterval 0 [] with
  | OutOfFuel => OutOfFuel
  | Returned gaps =>
      Returned (Some {| referenceRoute := referenceRoute; gaps := gaps;
                        maxDistance := maxDist |})
  end.
Proof.
  intros Href Hne. unfold calculateTimeGaps. rewrite Href.
  destruct (buildCompMaps haversineDistance comparisonRoutes);
    [contradiction|reflexivity].
Qed.


End TimeGaps.

(** ** calculateSplits *)

Section Splits.
Import Utils Spec.

Variable haversineDistance : Coordinate -> Coordinate -> Q.

Local Abbreviation totalDistanceOf := (Spec.totalDistanceOf haversineDistance).
Local Abbreviation segmentDistance := (Spec.segmentDistance haversineDistance).

Lemma splitCount_spec (totalDistance splitDistanceKm : Q) :
  0 < splitDistanceKm ->
  (forall j, (j < splitCount totalDistance splitDistanceKm)%nat ->
             sampleAt splitDistanceKm j < totalDistance) /\
  totalDistance <=
    sampleAt splitDistanceKm (splitCount totalDistance splitDistanceKm).
Proof.
  intro Hpos. unfold splitCount.
  case_Qle totalDistance 0.
  - split; [intros j Hj; lia|]. exact E.
  - set (q := totalDistance / splitDistanceKm).
    assert (Hq : q * splitDistanceKm == totalDistance).
    { unfold q. field. intro Hz. lra. }
    assert (Hq0 : 0 < q).
    { unfold q. apply Qlt_shift_div_l; [exact Hpos|]. lra. }
    pose proof (Qle_ceiling q) as Hhi.
    pose proof (Qceiling_lt q) as Hlo.
    assert (HC : (0 < Qceiling q)%Z).
    { rewrite Zlt_Qlt. change (inject_Z 0) with 0. lra. }
    split.
    + intros j Hj. rewrite sampleAt_linear, <- Hq.
      apply Qmult_lt_compat_r; [exact Hpos|].
      apply Qle_lt_trans with (inject_Z (Qceiling q - 1)); [|exact Hlo].
      rewrite <- Zle_Qle. lia.
    + rewrite sampleAt_linear, <- Hq. rewrite Z2Nat.id by lia.
      apply Qmult_le_compat_r; [exact Hhi|lra].
Qed.

(** The split loop, started at the [k]-th window with [m] windows left and
    at least as much fuel, returns, having appended those windows. *)
Lemma splitLoop_returns route distances totalDistance splitDistanceKm :
  forall m fuel k splits,
  (forall j, (k <= j < k + m)%nat ->
             sampleAt splitDistanceKm j < totalDistance) ->
  totalDistance <= sampleAt splitDistanceKm (k + m) ->
  (m <= fuel)%nat ->
  splitLoop haversineDistance fuel route distances totalDistance
            splitDistanceKm (S k) (sampleAt splitDistanceKm k) splits =
  Returned (splits ++
            map (fun j => makeSplit haversineDistance route distances
                            totalDistance splitDistanceKm (S j)
                            (sampleAt splitDistanceKm j))
                (seq k m)).
Proof.
  induction m as [|m IH]; intros fuel k splits Hin Hout Hfuel.
  - rewrite Nat.add_0_r in Hout. apply Qltb_ge in Hout.
    cbn [seq map]. rewrite app_nil_r.
    destruct fuel; cbn [splitLoop]; rewrite Hout; reflexivity.
  - destruct fuel as [|fuel]; [lia|]. cbn [splitLoop].
    assert (Hk : Qltb (sampleAt splitDistanceKm k) totalDistance = true).
    { apply Qltb_lt. apply Hin. lia. }
    rewrite Hk.
    change (sampleAt splitDistanceKm k + splitDistanceKm)
      with (sampleAt splitDistanceKm (S k)).
    rewrite Nat.add_1_r. rewrite IH.
    + cbn [seq map]. rewrite <- app_assoc. reflexivity.
    + intros j Hj. apply Hin. lia.
    + rewrite Nat.add_succ_comm. exact Hout.
    + lia.
Qed.

(** The cumulative distance array of [calculateSplits] has one entry per
    coordinate, starts at 0 and, for a distance that is never negative,
    is non-decreasing: what [findIndexAtDistance] relies on. *)
Lemma cumulativeDistances_ascending (coordinates : list Coordinate) :
  (forall a b, 0 <= haversineDistance a b) ->
  (1 <= length coordinates)%nat ->
  length (cumulativeDistances haversineDistance coordinates)
    = length coordinates /\
  nth 0 (cumulativeDistances haversineDistance coordinates) 0 = 0 /\
  ascending (cumulativeDistances haversineDistance coordinates).
Proof.
  intros Hnonneg Hlen. unfold cumulativeDistances.
  assert (Hinv :
    (fun i ds => length ds = i /\ nth 0 ds 0 = 0 /\ ascending ds)
      (1 + (length coordinates - 1))%nat
      (fold_left
         (fun distances i =>
            distances ++
            [nth (i - 1) distances 0 +
             haversineDistance (nth (i - 1) coordinates origin)
                               (nth i coordinates origin)])
         (seq 1 (length coordinates - 1)) [0])).
  { apply (for_loop_invariant
             (fun i ds => length ds = i /\ nth 0 ds 0 = 0 /\ ascending ds)).
    - repeat split. apply ascending_singleton.
    - intros i ds Hi (Hl & H0 & Hasc). split; [|split].
      + rewrite length_app. cbn [length]. lia.
      + rewrite app_nth1 by lia. exact H0.
      + apply ascending_snoc; [exact Hasc|].
        apply Forall_forall. intros x Hx.
        apply (In_nth _ _ 0) in Hx. destruct Hx as (j & Hj & <-).
        assert (Hji : nth j ds 0 <= nth (i - 1) ds 0) by (apply Hasc; lia).
        pose proof (Hnonneg (nth (i - 1) coordinates origin)
                            (nth i coordinates origin)).
        lra. }
  cbv beta in Hinv. destruct Hinv as (Hl & H0 & Hasc).
  repeat split; [lia|exact H0|exact Hasc].
Qed.

(** On an ascending array that starts at 0, [findIndexAtDistance] returns
    0 for a target at or below 0, the last index for a target at or beyond
    the last distance, and otherwise the last index whose distance is at
    most the target. *)
Lemma findIndexAtDistance_spec (distances : list Q) (targetKm : Q) :
  (1 <= length distances)%nat -> nth 0 distances 0 == 0 ->
  (targetKm <= 0 -> findIndexAtDistance distances targetKm = 0%nat) /\
  (0 < targetKm -> nth (length distances - 1) distances 0 <= targetKm ->
   findIndexAtDistance distances targetKm = (length distances - 1)%nat) /\
  (0 < targetKm -> targetKm < nth (length distances - 1) distances 0 ->
   let idx := findIndexAtDistance distances targetKm in
   (S idx < length distances)%nat /\
   nth idx distances 0 <= targetKm < nth (S idx) distances 0).
Proof.
  intros Hlen H0. unfold findIndexAtDistance.
  assert (E0 : (length distances =? 0)%nat = false)
    by (apply Nat.eqb_neq; lia).
  rewrite E0. split; [|split].
  - intro Hle. apply Qle_bool_iff in Hle. rewrite Hle. reflexivity.
  - intros Hpos Hlast. apply Qle_bool_gt in Hpos. rewrite Hpos.
    apply Qle_bool_iff in Hlast. rewrite Hlast. reflexivity.
  - intros Hpos Hlast. cbv zeta.
    assert (E1 : Qle_bool targetKm 0 = false) by (apply Qle_bool_gt; exact Hpos).
    assert (E2 : Qle_bool (nth (length distances - 1) distances 0) targetKm
                 = false) by (apply Qle_bool_gt; exact Hlast).
    rewrite E1, E2.
    assert (Hn : (2 <= length distances)%nat).
    { destruct (Nat.lt_ge_cases (length distances) 2) as [H|H]; [|exact H].
      exfalso. replace (length distances - 1)%nat with 0%nat in Hlast by lia.
      lra. }
    destruct (bisect_spec (length distances) distances targetKm
                0 (length distances - 1))
      as (Hh & _ & Hhi & Hlo & Hup); try lia.
    { lra. }
    rewrite Hh in Hhi, Hup. split; [lia|]. split; [exact Hlo|].
    destruct Hup as [Hup|Hup]; [rewrite Hup; exact Hlast|exact Hup].
Qed.

(** When [calculateSplitPace] returns a pace: both boundary timestamps are
    present, the elapsed time and the segment distance are positive, and
    the pace is their quotient in min/km, within (0, 30). *)
Lemma calculateSplitPace_Some route startIdx endIdx p :
  calculateSplitPace haversineDistance route startIdx endIdx = Some p ->
  (startIdx < endIdx)%nat /\
  exists startTime endTime,
    nth startIdx (timestamps route) None = Some startTime /\
    nth endIdx (timestamps route) None = Some endTime /\
    0 < inject_Z (endTime - startTime) / 1000 /\
    0 < segmentDistance route startIdx endIdx /\
    p = (inject_Z (endTime - startTime) / 1000 / 60)
        / segmentDistance route startIdx endIdx /\
    0 < p < 30.
Proof.
  unfold calculateSplitPace. fold (segmentDistance route startIdx endIdx).
  destruct (endIdx <=? startIdx)%nat eqn:Hidx; [discriminate|].
  apply Nat.leb_gt in Hidx.
  destruct (nth startIdx (timestamps route) None) as [startTime|];
    [|discriminate].
  destruct (nth endIdx (timestamps route) None) as [endTime|];
    [|discriminate].
  case_Qle (inject_Z (endTime - startTime) / 1000) 0; [discriminate|].
  match goal with |- context [Qle_bool ?a 0] => case_Qle a 0 end;
    [discriminate|].
  match goal with |- context [Qltb 0 ?a && _] => case_Qltb 0 a end;
    [|discriminate].
  match goal with |- context [Qltb ?a 30] => case_Qltb a 30 end;
    [|discriminate].
  cbn [andb]. intros [= <-]. split; [exact Hidx|].
  exists startTime, endTime. repeat split; auto.
Qed.

Lemma nth_error_map_seq {A : Type} (f : nat -> A) (start len j : nat) (x : A) :
  nth_error (map f (seq start len)) j = Some x ->
  (j < len)%nat /\ x = f (start + j)%nat.
Proof.
  intro H.
  assert (Hj : (j < len)%nat).
  { assert (Hn : nth_error (map f (seq start len)) j <> None)
      by (rewrite H; discriminate).
    apply nth_error_Some in Hn. rewrite length_map, length_seq in Hn.
    exact Hn. }
  split; [exact Hj|].
  apply (nth_error_nth _ _ x) in H. rewrite nth_map_seq in H by exact Hj.
  symmetry. exact H.
Qed.


End Splits.

(** ** calculateSplits over the doubles *)

Section DoubleSplits.
Import Floats Double.
Local Open Scope float_scope.


End DoubleSplits.

(** ** validateParsedData *)

Section ValidateParsedData.
Import FileParser.

Variable rawData : Raw.Data.

Local Abbreviation coordAt := (Spec.coordAt rawData).
Local Abbreviation coordValid := (Spec.coordValid rawData).
Local Abbreviation kept := (Spec.kept rawData).
Local Abbreviation lastBefore := (Spec.lastBefore rawData).
Local Abbreviation elevationResult := (Spec.elevationResult rawData).
Local Abbreviation timestampResult := (Spec.timestampResult rawData).
Local Abbreviation warningsAt := (Spec.warningsAt rawData).
Local Abbreviation validatedUpTo := (Spec.validatedUpTo rawData).

Lemma validateUpTo_S (k : nat) :
  validateUpTo rawData (S k) = validateStep rawData (validateUpTo rawData k) k.
Proof.
  unfold validateUpTo. rewrite seq_S, fold_left_app. reflexivity.
Qed.

Lemma kept_S (k : nat) :
  kept (S k) = kept k ++ (if coordValid k then [k] else []).
Proof.
  unfold kept. rewrite seq_S, filter_app. cbn [filter Nat.add].
  destruct (coordValid k); reflexivity.
Qed.

Lemma validateUpTo_spec (k : nat) :
  validatedUpTo k (fst (validateUpTo rawData k)).
Proof.
  induction k as [|k IH].
  - unfold validatedUpTo. cbn. repeat split.
  - destruct IH as (Hc & He & Ht & Hh & Hca & Hp & Hs & Hw).
    rewrite validateUpTo_S. unfold validateStep, validatedUpTo.
    rewrite kept_S, seq_S, flat_map_app. cbn [flat_map Nat.add].
    rewrite app_nil_r. unfold warningsAt at 2. unfold coordValid.
    fold (coordAt k). fold (lastBefore k).
    fold (elevationResult k). fold (timestampResult k).
    destruct (validateCoordinate (lat (coordAt k)) (lng (coordAt k)))
      as [u|reason]; cbn [isValid fst].
    + cbn [coordinates elevations timestamps heartRates cadences powers
           skipped warnings].
      rewrite !map_app, length_app. cbn [map length].
      rewrite Hc, He, Ht, Hh, Hca, Hp, Hw.
      repeat split; try reflexivity; try lia.
    + cbn [coordinates elevations timestamps heartRates cadences powers
           skipped warnings].
      rewrite !app_nil_r. rewrite Hw.
      repeat split; try assumption; try lia.
Qed.

(** How [lastValidTimestamp] moves over raw point [i]. *)
Lemma lastBefore_S (i : nat) :
  lastBefore (S i) =
  if coordValid i then advance (timestampResult i) (lastBefore i)
  else lastBefore i.
Proof.
  unfold lastBefore at 1. rewrite validateUpTo_S.
  unfold validateStep, coordValid. fold (coordAt i). fold (lastBefore i).
  fold (timestampResult i).
  destruct (validateCoordinate (lat (coordAt i)) (lng (coordAt i)));
    reflexivity.
Qed.

Lemma in_warnings (k i : nat) (w : Warning) :
  (i < k)%nat -> In w (warningsAt i) ->
  In w (flat_map warningsAt (seq 0 k)).
Proof.
  intros Hi Hw. apply in_flat_map. exists i. split; [|exact Hw].
  apply in_seq. lia.
Qed.

Lemma lastNonNull_snoc {A : Type} (l : list (option A)) (x : option A) :
  Spec.lastNonNull (l ++ [x]) =
  match x with
  | Some y => Some y
  | None => Spec.lastNonNull l
  end.
Proof.
  induction l as [|a l IH]; cbn [app Spec.lastNonNull].
  - destruct x; reflexivity.
  - rewrite IH. destruct x; [reflexivity|].
    destruct (Spec.lastNonNull l); reflexivity.
Qed.

(** [lastValidTimestamp] is the last timestamp of the result so far that is
    not null. *)
Lemma lastBefore_lastNonNull (k : nat) :
  lastBefore k =
  Spec.lastNonNull (timestamps (fst (validateUpTo rawData k))).
Proof.
  destruct (validateUpTo_spec k) as (_ & _ & -> & _).
  induction k as [|k IH]; [reflexivity|].
  rewrite lastBefore_S, kept_S.
  destruct (coordValid k); [|rewrite app_nil_r; exact IH].
  rewrite map_app. cbn [map]. rewrite lastNonNull_snoc, <- IH.
  destruct (timestampResult k) as [[t|]|reason]; reflexivity.
Qed.

(** The [j]-th kept point is a raw point with a valid coordinate, and the
    kept points before it are the first [j] of the result. *)
Lemma kept_nth_error (N j i : nat) :
  nth_error (kept N) j = Some i ->
  (i < N)%nat /\ coordValid i = true /\ firstn j (kept N) = kept i.
Proof.
  induction N as [|N IH]; [destruct j; discriminate|].
  rewrite kept_S. intro Hj.
  destruct (Nat.lt_ge_cases j (length (kept N))) as [Hlt|Hge].
  - rewrite nth_error_app1 in Hj by exact Hlt.
    destruct (IH Hj) as (Hi & Hv & Hf).
    split; [lia|]. split; [exact Hv|].
    rewrite firstn_app.
    replace (j - length (kept N))%nat with 0%nat by lia.
    rewrite firstn_O, app_nil_r. exact Hf.
  - rewrite nth_error_app2 in Hj by exact Hge.
    destruct (coordValid N) eqn:Hv;
      [|destruct (j - length (kept N))%nat; discriminate].
    destruct (j - length (kept N))%nat as [|d] eqn:Hd;
      [|destruct d; discriminate].
    injection Hj as <-.
    assert (j = length (kept N)) by lia. subst j.
    split; [lia|]. split; [exact Hv|].
    rewrite firstn_app, Nat.sub_diag, firstn_O, app_nil_r.
    apply firstn_all.
Qed.

(** C4. [validateParsedData] drops a raw point exactly when its
    coordinate is invalid, counting it in [skipped] and recording a
    warning; the six result arrays have the same length, [N - skipped],
    and entry [j] of each comes from the same raw point (the [j]-th kept
    one).  Of a kept point every field is kept as it is, except that an
    invalid elevation or timestamp is replaced by null, with a warning.
    A timestamp strictly earlier than the last accepted one (the last
    timestamp of the result so far that is not null) is
    [not_chronological], an equal or later one is accepted;
    [lastValidTimestamp] is that last accepted timestamp, and changes only
    at a kept point whose timestamp was accepted and is not null, to that
    timestamp. *)
Theorem validateParsedData_spec :
  let N := length (Raw.coordinates rawData) in
  let v := validateParsedData rawData in
  (* which points are dropped *)
  (forall i, In i (kept N) <-> (i < N)%nat /\ coordValid i = true) /\
  (skipped v + length (kept N) = N)%nat /\
  (forall i, (i < N)%nat -> coordValid i = false ->
     exists reason,
       validateCoordinate (lat (coordAt i)) (lng (coordAt i)) = Invalid reason
       /\ In (InvalidCoordinate i reason) (warnings v)) /\
  (* the result arrays: same length, same raw point at the same index *)
  (length (coordinates v) = (N - skipped v)%nat /\
   length (elevations v) = (N - skipped v)%nat /\
   length (timestamps v) = (N - skipped v)%nat /\
   length (heartRates v) = (N - skipped v)%nat /\
   length (cadences v) = (N - skipped v)%nat /\
   length (powers v) = (N - skipped v)%nat) /\
  (coordinates v = map coordAt (kept N) /\
   elevations v = map (fun i => valueOrNull (elevationResult i)) (kept N) /\
   timestamps v = map (fun i => valueOrNull (timestampResult i)) (kept N) /\
   heartRates v = map (fun i => nth i (Raw.heartRates rawData) None) (kept N) /\
   cadences v = map (fun i => nth i (Raw.cadences rawData) None) (kept N) /\
   powers v = map (fun i => nth i (Raw.powers rawData) None) (kept N)) /\
  (* a bad elevation or timestamp becomes null, with a warning *)
  (forall i reason, In i (kept N) ->
     (elevationResult i = Invalid reason ->
      valueOrNull (elevationResult i) = None /\
      In (InvalidElevation i reason) (warnings v)) /\
     (timestampResult i = Invalid reason ->
      valueOrNull (timestampResult i) = None /\
      In (InvalidTimestamp i reason) (warnings v))) /\
  (* the fields of the j-th kept point, from the raw data alone *)
  (forall j i, nth_error (kept N) j = Some i ->
     let rawElevation := nth i (Raw.elevations rawData) RawAbsent in
     let rawTimestamp := nth i (Raw.timestamps rawData) RawNoDate in
     let lastAccepted := Spec.lastNonNull (firstn j (timestamps v)) in
     nth_error (coordinates v) j = Some (coordAt i) /\
     nth_error (heartRates v) j = Some (nth i (Raw.heartRates rawData) None) /\
     nth_error (cadences v) j = Some (nth i (Raw.cadences rawData) None) /\
     nth_error (powers v) j = Some (nth i (Raw.powers rawData) None) /\
     (forall e, validateElevation rawElevation = Valid e ->
        nth_error (elevations v) j = Some e) /\
     (forall reason, validateElevation rawElevation = Invalid reason ->
        nth_error (elevations v) j = Some None /\
        In (InvalidElevation i reason) (warnings v)) /\
     (rawTimestamp = RawNoDate -> nth_error (timestamps v) j = Some None) /\
     (rawTimestamp = RawBadDate ->
        nth_error (timestamps v) j = Some None /\
        In (InvalidTimestamp i invalid_date) (warnings v)) /\
     (forall t, rawTimestamp = RawDate t ->
        (forall prev, lastAccepted = Some prev -> (t < prev)%Z ->
           nth_error (timestamps v) j = Some None /\
           In (InvalidTimestamp i not_chronological) (warnings v)) /\
        (forall prev, lastAccepted = Some prev -> (prev <= t)%Z ->
           nth_error (timestamps v) j = Some (Some t)) /\
        (lastAccepted = None ->
           nth_error (timestamps v) j = Some (Some t)))) /\
  (* the chronology check *)
  (forall t prev, (t < prev)%Z ->
     validateTimestamp (RawDate t) (Some prev) = Invalid not_chronological) /\
  (forall t prev, (prev <= t)%Z ->
     validateTimestamp (RawDate t) (Some prev) = Valid (Some t)) /\
  (* lastValidTimestamp *)
  (forall i, lastBefore i =
             Spec.lastNonNull (timestamps (fst (validateUpTo rawData i)))) /\
  (forall i, lastBefore (S i) <> lastBefore i ->
     coordValid i = true /\
     exists t, nth i (Raw.timestamps rawData) RawNoDate = RawDate t /\
               timestampResult i = Valid (Some t) /\
               lastBefore (S i) = Some t).
Proof.
  intros N v.
  pose proof (validateUpTo_spec N) as Hinv.
  change (validatedUpTo N v) in Hinv.
  destruct Hinv as (Hc & He & Ht & Hh & Hca & Hp & Hs & Hw).
  split; [|split; [|split; [|split; [|split; [|split; [|split;
    [|split; [|split; [|split]]]]]]]]].
  - intro i. unfold kept. rewrite filter_In, in_seq. intuition lia.
  - exact Hs.
  - intros i Hi Hinv. unfold coordValid in Hinv.
    destruct (validateCoordinate (lat (coordAt i)) (lng (coordAt i)))
      as [u|reason] eqn:Hvc; [discriminate|].
    exists reason. split; [reflexivity|].
    rewrite Hw. apply (in_warnings N i); [exact Hi|].
    unfold warningsAt. rewrite Hvc. left. reflexivity.
  - rewrite Hc, He, Ht, Hh, Hca, Hp, !length_map. repeat split; lia.
  - repeat split; assumption.
  - intros i reason Hi.
    assert (Hi' : (i < N)%nat /\ coordValid i = true).
    { unfold kept in Hi. rewrite filter_In, in_seq in Hi. intuition lia. }
    destruct Hi' as [HiN Hval]. unfold coordValid in Hval.
    destruct (validateCoordinate (lat (coordAt i)) (lng (coordAt i)))
      as [u|r] eqn:Hvc; [|discriminate].
    split; intro Hbad; rewrite Hbad; (split; [reflexivity|]);
      rewrite Hw; apply (in_warnings N i); try exact HiN;
      unfold warningsAt; rewrite Hvc, Hbad; apply in_or_app.
    + left. left. reflexivity.
    + right. left. reflexivity.
  - intros j i Hj rawElevation rawTimestamp lastAccepted.
    destruct (kept_nth_error N j i Hj) as (HiN & Hval & Hfirst).
    assert (Hlast : lastAccepted = lastBefore i).
    { subst lastAccepted. rewrite Ht, firstn_map, Hfirst.
      rewrite lastBefore_lastNonNull.
      destruct (validateUpTo_spec i) as (_ & _ & -> & _). reflexivity. }
    assert (Hwarn : forall w, In w (warningsAt i) -> In w (warnings v)).
    { intros w Hin. rewrite Hw. apply (in_warnings N i); assumption. }
    assert (Hvc : exists u,
               validateCoordinate (lat (coordAt i)) (lng (coordAt i))
               = Valid u).
    { unfold coordValid in Hval.
      destruct (validateCoordinate (lat (coordAt i)) (lng (coordAt i)))
        as [u|r]; [exists u; reflexivity|discriminate]. }
    destruct Hvc as [u Hvc].
    assert (Hts : timestampResult i
                  = validateTimestamp rawTimestamp lastAccepted).
    { rewrite Hlast. reflexivity. }
    rewrite Hc, He, Ht, Hh, Hca, Hp, !nth_error_map, Hj.
    cbn [option_map].
    repeat split.
    + intros e Hve. fold (elevationResult i). unfold Spec.elevationResult.
      fold rawElevation. rewrite Hve. reflexivity.
    + unfold Spec.elevationResult. fold rawElevation. rewrite H.
      reflexivity.
    + apply Hwarn. unfold warningsAt. rewrite Hvc.
      unfold Spec.elevationResult. fold rawElevation. rewrite H.
      apply in_or_app. left. left. reflexivity.
    + intro Hr. rewrite Hts, Hr. reflexivity.
    + rewrite Hts, H. reflexivity.
    + apply Hwarn. unfold warningsAt. rewrite Hvc, Hts, H.
      apply in_or_app. right. left. reflexivity.
    + rewrite Hts, H, H0. cbn [validateTimestamp].
      apply Z.ltb_lt in H1. rewrite H1. reflexivity.
    + apply Hwarn. unfold warningsAt. rewrite Hvc, Hts, H, H0.
      cbn [validateTimestamp]. apply Z.ltb_lt in H1. rewrite H1.
      apply in_or_app. right. left. reflexivity.
    + intros prev Hprev Hle. rewrite Hts, H, Hprev.
      cbn [validateTimestamp]. apply Z.ltb_ge in Hle. rewrite Hle.
      reflexivity.
    + intro Hnone. rewrite Hts, H, Hnone. reflexivity.
  - intros t prev Hlt. cbn [validateTimestamp].
    apply Z.ltb_lt in Hlt. rewrite Hlt. reflexivity.
  - intros t prev Hle. cbn [validateTimestamp].
    apply Z.ltb_ge in Hle. rewrite Hle. reflexivity.
  - apply lastBefore_lastNonNull.
  - intros i Hch. rewrite lastBefore_S in Hch |- *.
    destruct (coordValid i); [|contradiction].
    split; [reflexivity|].
    unfold timestampResult in *.
    destruct (nth i (Raw.timestamps rawData) RawNoDate) as [| |t];
      cbn [validateTimestamp advance] in Hch |- *; try contradiction.
    exists t. split; [reflexivity|].
    destruct (lastBefore i) as [prev|]; cbn [advance] in *.
    + destruct (t <? prev)%Z; cbn [advance] in *; [contradiction|].
      split; reflexivity.
    + split; reflexivity.
Qed.

End ValidateParsedData.

(** ** calculateZones *)

Section ZoneAnalysis.
Import Zones.

Lemma sumZ_app (a b : list Z) : sumZ (a ++ b) = (sumZ a + sumZ b)%Z.
Proof.
  induction a as [|x a IH]; cbn [app sumZ fold_right].
  - reflexivity.
  - fold (sumZ (a ++ b)). fold (sumZ a). rewrite IH. lia.
Qed.

Lemma argmax_lt (l : list Z) : l <> [] -> (argmax l < length l)%nat.
Proof.
  induction l as [|x l IH]; [contradiction|]. intros _.
  cbn [argmax length]. destruct l as [|y l]; [lia|].
  destruct (nth (argmax (y :: l)) (y :: l) 0 <=? x)%Z; [lia|].
  assert ((argmax (y :: l) < length (y :: l))%nat) by (apply IH; discriminate).
  lia.
Qed.

(** The first largest entry is at least every entry. *)
Lemma argmax_ge (l : list Z) (i : nat) :
  (i < length l)%nat -> (nth i l 0 <= nth (argmax l) l 0)%Z.
Proof.
  revert i. induction l as [|x l IH]; intros i Hi; [cbn in Hi; lia|].
  cbn [argmax]. destruct l as [|y l].
  - cbn in Hi. assert (i = 0%nat) by lia. subst. apply Z.le_refl.
  - destruct (nth (argmax (y :: l)) (y :: l) 0 <=? x)%Z eqn:E.
    + apply Z.leb_le in E. destruct i as [|i]; [apply Z.le_refl|].
      change (nth (S i) (x :: y :: l) 0%Z) with (nth i (y :: l) 0%Z).
      change (nth 0 (x :: y :: l) 0%Z) with x.
      assert (Hi' : (i < length (y :: l))%nat) by (cbn [length] in *; lia).
      specialize (IH i Hi'). lia.
    + apply Z.leb_gt in E.
      change (nth (S (argmax (y :: l))) (x :: y :: l) 0%Z)
        with (nth (argmax (y :: l)) (y :: l) 0%Z).
      destruct i as [|i].
      * change (nth 0 (x :: y :: l) 0%Z) with x. lia.
      * change (nth (S i) (x :: y :: l) 0%Z) with (nth i (y :: l) 0%Z).
        apply IH. cbn [length] in *. lia.
Qed.

Lemma adjustToHundred_spec (rounded : list Z) :
  rounded <> [] ->
  length (adjustToHundred rounded) = length rounded /\
  sumZ (adjustToHundred rounded) = 100%Z.
Proof.
  intro Hne. unfold adjustToHundred.
  pose proof (argmax_lt rounded Hne) as Hk.
  set (k := argmax rounded) in *.
  pose proof (firstn_skipn k rounded) as Hsplit.
  destruct (skipn k rounded) as [|x rest] eqn:Hskip.
  - exfalso. assert (Hl : length (skipn k rounded) = 0%nat)
      by (rewrite Hskip; reflexivity).
    rewrite length_skipn in Hl. lia.
  - pose proof (f_equal (@length Z) Hsplit) as Hl.
    pose proof (f_equal sumZ Hsplit) as Hsum.
    rewrite length_app in Hl. rewrite sumZ_app in Hsum.
    cbn [length] in Hl.
    change (sumZ (x :: rest)) with (x + sumZ rest)%Z in Hsum.
    split.
    + rewrite length_app. cbn [length]. exact Hl.
    + rewrite sumZ_app.
      change (sumZ ((x + (100 - sumZ rounded))%Z :: rest))
        with (x + (100 - sumZ rounded) + sumZ rest)%Z.
      lia.
Qed.

Lemma map_nth_seq5 (l : list Z) :
  length l = 5%nat -> map (fun z => nth z l 0%Z) (seq 0 5) = l.
Proof.
  intro H. do 5 (destruct l as [|? l]; [discriminate|]).
  destruct l; [reflexivity|discriminate].
Qed.

(** C8. [calculateZones] returns null when fewer than 10 values are
    non-null; otherwise it returns exactly 5 zones whose percentages sum
    to exactly 100. *)
Theorem calculateZones_spec (values : list (option Q))
    (timestamps : list (option Z)) :
  ((length (nonNull values) < 10)%nat ->
   calculateZones values timestamps = None) /\
  ((10 <= length (nonNull values))%nat ->
   exists r, calculateZones values timestamps = Some r /\
             length (zones r) = 5%nat /\
             sumZ (map percent (zones r)) = 100%Z).
Proof.
  unfold calculateZones. split.
  - intro Hlt. destruct (nonNull values) as [|first rest]; [reflexivity|].
    apply Nat.ltb_lt in Hlt. rewrite Hlt. reflexivity.
  - intro Hge. destruct (nonNull values) as [|first rest];
      [cbn in Hge; lia|].
    apply Nat.ltb_ge in Hge. rewrite Hge.
    eexists. split; [reflexivity|]. cbn [zones].
    split; [rewrite length_map, length_seq; reflexivity|].
    rewrite map_map. cbn [percent].
    match goal with
    | |- sumZ (map (fun z => nth z (adjustToHundred ?l) _) _) = _ =>
      destruct (adjustToHundred_spec l) as [Hlen Hsum];
        [ discriminate | rewrite map_nth_seq5; [exact Hsum|exact Hlen] ]
    end.
Qed.

End ZoneAnalysis.

(** ** haversineDistance *)

Section GreatCircle.
Import Geo.
Local Open Scope R_scope.

Lemma atan_nonneg (z : R) : 0 <= z -> 0 <= atan z.
Proof.
  intros [Hz|Hz].
  - left. rewrite <- atan_0. apply atan_increasing. exact Hz.
  - rewrite <- Hz, atan_0. apply Rle_refl.
Qed.

Lemma atan2_nonneg (y x : R) : 0 <= y -> 0 <= x -> 0 <= atan2 y x.
Proof.
  intros Hy Hx. unfold atan2.
  destruct (Rlt_dec 0 x) as [Hx0|Hx0].
  - apply atan_nonneg. unfold Rdiv. apply Rmult_le_pos; [exact Hy|].
    left. apply Rinv_0_lt_compat. exact Hx0.
  - destruct (Rlt_dec x 0) as [Hneg|_]; [Lra.lra|].
    destruct (Rlt_dec 0 y) as [_|_].
    + pose proof PI_RGT_0. Lra.lra.
    + destruct (Rlt_dec y 0) as [Hneg|_]; [Lra.lra|apply Rle_refl].
Qed.

(** The distance is never negative: the assumption under which the
    rational pipeline is verified. *)
Lemma haversineDistance_nonneg (a b : Coordinate) :
  0 <= haversineDistance a b.
Proof.
  unfold haversineDistance. cbv zeta.
  apply Rmult_le_pos; [Lra.lra|].
  apply Rmult_le_pos; [Lra.lra|].
  apply atan2_nonneg; apply sqrt_pos.
Qed.

Lemma toRad_half_opp (x y : R) : toRad (y - x) / 2 = - (toRad (x - y) / 2).
Proof. unfold toRad. field. Qed.

Lemma sin_sqr_swap (x y : R) :
  sin (toRad (y - x) / 2) * sin (toRad (y - x) / 2) =
  sin (toRad (x - y) / 2) * sin (toRad (x - y) / 2).
Proof. rewrite toRad_half_opp, sin_neg. ring. Qed.

(** C10. [haversineDistance] is symmetric in its two coordinates, and the
    distance from a coordinate to itself is 0. *)
Theorem haversineDistance_symmetric :
  (forall a b : Coordinate, haversineDistance a b = haversineDistance b a) /\
  (forall a : Coordinate, haversineDistance a a = 0).
Proof.
  split.
  - intros a b. unfold haversineDistance. cbv zeta.
    assert (Ha :
      sin (toRad (lat b - lat a) / 2) * sin (toRad (lat b - lat a) / 2) +
      cos (toRad (lat a)) * cos (toRad (lat b)) *
      sin (toRad (lng b - lng a) / 2) * sin (toRad (lng b - lng a) / 2) =
      sin (toRad (lat a - lat b) / 2) * sin (toRad (lat a - lat b) / 2) +
      cos (toRad (lat b)) * cos (toRad (lat a)) *
      sin (toRad (lng a - lng b) / 2) * sin (toRad (lng a - lng b) / 2)).
    { rewrite (sin_sqr_swap (lat a) (lat b)).
      rewrite !Rmult_assoc. rewrite (sin_sqr_swap (lng a) (lng b)). ring. }
    rewrite Ha. reflexivity.
  - intro a. unfold haversineDistance. cbv zeta.
    assert (Hz : forall x, toRad (x - x) / 2 = 0)
      by (intro x; unfold toRad; field).
    rewrite !Hz, sin_0.
    replace (0 * 0 + cos (toRad (lat a)) * cos (toRad (lat a)) * 0 * 0)
      with 0 by ring.
    rewrite Rminus_0_r, sqrt_0, sqrt_1.
    unfold atan2. destruct (Rlt_dec 0 1) as [_|H]; [|Lra.lra].
    replace (0 / 1) with 0 by field. rewrite atan_0. ring.
Qed.

End GreatCircle.

(** ** Worked examples *)

Section WorkedExamples.
Import Utils Spec.

Lemma flatDistance_nonneg (a b : Coordinate) : 0 <= flatDistance a b.
Proof.
  unfold flatDistance.
  pose proof (Qabs_nonneg (lat b - lat a)).
  pose proof (Qabs_nonneg (lng b - lng a)).
  apply Qmult_le_0_compat; lra.
Qed.

Lemma routeA_chronological (i j : nat) (a b : Z) :
  (i <= j)%nat ->
  nth i (timestamps routeA) None = Some a ->
  nth j (timestamps routeA) None = Some b -> (a <= b)%Z.
Proof.
  intros Hij Hi Hj.
  destruct i as [|[|[|[|[|i]]]]]; cbn in Hi; try discriminate;
    destruct j as [|[|[|[|[|j]]]]]; cbn in Hj; try discriminate;
    try lia; injection Hi as <-; injection Hj as <-; lia.
Qed.

(** The map built from [routeA]: the standstill gives the distance 0
    twice, the point without a timestamp is left out. *)
Lemma buildTimeDistanceMap_ascending_witness :
  exists m, buildTimeDistanceMap flatDistance routeA = Some m /\
    (length (distances m) = length (times m) /\
     (2 <= length (distances m))%nat /\
     nth 0 (distances m) 0 = 0 /\
     nth 0 (times m) 0 = 0 /\
     ascending (distances m) /\
     ascending (times m)).
Proof.
  destruct (buildTimeDistanceMap flatDistance routeA) as [m|] eqn:Hm;
    [|vm_compute in Hm; discriminate].
  exists m. split; [reflexivity|].
  assert (Hlegs : legsNonNegative flatDistance routeA)
    by (intros i _; apply flatDistance_nonneg).
  exact (buildTimeDistanceMap_ascending flatDistance routeA m
           routeA_chronological Hlegs Hm).
Defined.

Lemma testSpeeds_aligned (i : nat) :
  (i < length testSpeeds)%nat ->
  (nth i testSpeeds None = None <-> nth i testPaces None = None).
Proof.
  intro Hi. destruct i as [|[|[|[|i]]]]; cbn in Hi |- *; try lia;
    split; discriminate.
Qed.

(** The cleaning test of the repository, on the stand-in distance. *)
Lemma cleanGPSData_spec_witness :
  (forall i, (i < length testSpeeds)%nat ->
     (nth i testSpeeds None = None <-> nth i testPaces None = None)) /\
  validIndices (cleanGPSData flatDistance testSpeeds testPaces
                             testCoordinates testTimestamps 35)
    = [0; 2; 3]%nat /\
  (forall i,
     In i (validIndices (cleanGPSData flatDistance testSpeeds testPaces
                                      testCoordinates testTimestamps 35)) ->
     exists v,
       nth i (speeds (cleanGPSData flatDistance testSpeeds testPaces
                                   testCoordinates testTimestamps 35)) None
         = Some v /\
       nth i testSpeeds None = Some v /\ 0 <= v <= 35).
Proof.
  split; [exact testSpeeds_aligned|].
  split; [vm_compute; reflexivity|].
  exact (proj2 (proj2 (proj2
           (cleanGPSData_spec flatDistance testSpeeds testPaces
              testCoordinates testTimestamps 35 testSpeeds_aligned)))).
Defined.


Lemma calculateSplits_example :
  match calculateSplits flatDistance 2 routeB 1 with
  | Returned splits =>
      map (fun s => (number s, Qred (startKm s), Qred (endKm s), isPartial s,
                     option_map Qred (pace s))) splits
      = [ (1%nat, 0, 1, false, Some (5500 # 999));
          (2%nat, 1, 999 # 500, false, Some (5500 # 999)) ]
  | OutOfFuel => False
  end.
Proof. vm_compute. reflexivity. Qed.


Lemma calculateTimeGaps_example :
  match calculateTimeGaps flatDistance 4 routeA [routeB] 0.5 with
  | Returned (Some result) =>
      Qred (maxDistance result) = 999 # 500 /\
      map (fun g => (Qred (distance g), Qred (referenceTime g),
                     map (fun e => Qred (gap e)) (comparisons g)))
          (gaps result)
      = [ (0, 0, [0]);
          (1 # 2, 150749 # 999, [14251 # 999]);
          (1, 300499 # 999, [29501 # 999]);
          (3 # 2, 150083 # 333, [14917 # 333]) ]
  | _ => False
  end.
Proof. vm_compute. split; reflexivity. Qed.

(** The dropped point leaves no trace but its warning (its timestamp is
    not remembered either); a bad elevation or timestamp is nulled in
    place; a timestamp equal to the last accepted one is accepted. *)
Lemma validateParsedData_example :
  FileParser.validateParsedData rawExample =
  {| FileParser.coordinates :=
       [ nth 0 (FileParser.Raw.coordinates rawExample)
             FileParser.absentCoordinate;
         nth 2 (FileParser.Raw.coordinates rawExample)
             FileParser.absentCoordinate;
         nth 3 (FileParser.Raw.coordinates rawExample)
             FileParser.absentCoordinate;
         nth 4 (FileParser.Raw.coordinates rawExample)
             FileParser.absentCoordinate ];
     FileParser.elevations := [Some 10; None; None; Some 30];
     FileParser.timestamps := [Some 5000%Z; Some 7000%Z; None; Some 7000%Z];
     FileParser.heartRates := [Some 120; Some 122; None; Some 124];
     FileParser.cadences := [None; None; None; None];
     FileParser.powers := [None; None; None; None];
     FileParser.skipped := 1;
     FileParser.warnings :=
       [ FileParser.InvalidCoordinate 1 FileParser.lat_out_of_range;
         FileParser.InvalidElevation 2 FileParser.out_of_range;
         FileParser.InvalidTimestamp 3 FileParser.not_chronological ] |}.
Proof. vm_compute. reflexivity. Qed.

(** The rounded shares are 18, 18, 18, 18 and 27: the residual of 1 goes
    to the largest zone. *)
Lemma calculateZones_example :
  option_map (fun r => (map Zones.percent (Zones.zones r),
                        Zones.dominantZone r))
             (Zones.calculateZones zoneValues zoneTimestamps)
  = Some ([18; 18; 18; 18; 28]%Z, 4%nat) /\
  Zones.calculateZones (firstn 9 zoneValues ++ [None]) zoneTimestamps = None.
Proof. vm_compute. split; reflexivity. Qed.

End WorkedExamples.

(* ================================================================== *)
(** * Part III: the rest of the pipeline *)
(* ================================================================== *)

(** ** Sorting *)

Section Sorting.
Import Utils Spec.

Lemma insertSorted_length (x : Q) (l : list Q) :
  length (insertSorted x l) = S (length l).
Proof.
  induction l as [|y l IH]; cbn [insertSorted]; [reflexivity|].
  destruct (Qle_bool x y); cbn [length]; [reflexivity|]. rewrite IH.
  reflexivity.
Qed.

Lemma insertSorted_In (x y : Q) (l : list Q) :
  In y (insertSorted x l) <-> y = x \/ In y l.
Proof.
  induction l as [|z l IH]; cbn [insertSorted].
  - cbn. intuition.
  - destruct (Qle_bool x z); cbn [In] in *; [intuition|].
    rewrite IH. intuition.
Qed.

Lemma insertSorted_count (f : Q -> bool) (x : Q) (l : list Q) :
  countIf f (insertSorted x l) = countIf f (x :: l).
Proof.
  unfold countIf. induction l as [|z l IH]; cbn [insertSorted];
    [reflexivity|].
  destruct (Qle_bool x z); [reflexivity|].
  cbn [filter] in *. destruct (f z), (f x); cbn [length] in *; lia.
Qed.

Lemma sortNumbers_length (l : list Q) : length (sortNumbers l) = length l.
Proof.
  induction l as [|x l IH]; [reflexivity|].
  cbn [sortNumbers fold_right]. fold (sortNumbers l).
  rewrite insertSorted_length, IH. reflexivity.
Qed.

Lemma sortNumbers_In (y : Q) (l : list Q) :
  In y (sortNumbers l) <-> In y l.
Proof.
  induction l as [|x l IH]; [reflexivity|].
  cbn [sortNumbers fold_right]. fold (sortNumbers l).
  rewrite insertSorted_In, IH. cbn [In]. intuition.
Qed.

(** Sorting moves entries, it neither adds nor drops any. *)
Lemma sortNumbers_count (f : Q -> bool) (l : list Q) :
  countIf f (sortNumbers l) = countIf f l.
Proof.
  induction l as [|x l IH]; [reflexivity|].
  cbn [sortNumbers fold_right]. fold (sortNumbers l).
  rewrite insertSorted_count. unfold countIf in *. cbn [filter].
  destruct (f x); cbn [length]; rewrite IH; reflexivity.
Qed.

Lemma ascending_cons (x : Q) (l : list Q) :
  ascending l -> (forall y, In y l -> x <= y) -> ascending (x :: l).
Proof.
  intros Hasc Hx i j [Hij Hj]. cbn [length] in Hj.
  destruct j as [|j].
  - assert (i = 0%nat) by lia. subst. apply Qle_refl.
  - destruct i as [|i].
    + cbn [nth]. apply Hx. apply nth_In. lia.
    + cbn [nth]. apply Hasc. lia.
Qed.

Lemma ascending_tail (x : Q) (l : list Q) :
  ascending (x :: l) -> ascending l /\ forall y, In y l -> x <= y.
Proof.
  intro Hasc. split.
  - intros i j [Hij Hj].
    apply (Hasc (S i) (S j)). cbn [length]. lia.
  - intros y Hy. apply (In_nth _ _ 0) in Hy. destruct Hy as (k & Hk & <-).
    apply (Hasc 0%nat (S k)). cbn [length]. lia.
Qed.

Lemma insertSorted_ascending (x : Q) (l : list Q) :
  ascending l -> ascending (insertSorted x l).
Proof.
  induction l as [|z l IH]; intro Hasc; cbn [insertSorted].
  - apply ascending_singleton.
  - destruct (ascending_tail z l Hasc) as [Hl Hz].
    case_Qle x z.
    + apply ascending_cons; [exact Hasc|].
      intros y [<-|Hy]; [exact E|]. specialize (Hz y Hy). lra.
    + apply ascending_cons; [apply IH; exact Hl|].
      intros y Hy. apply insertSorted_In in Hy.
      destruct Hy as [->|Hy]; [lra|apply Hz; exact Hy].
Qed.

Lemma sortNumbers_ascending (l : list Q) : ascending (sortNumbers l).
Proof.
  induction l as [|x l IH].
  - intros i j [Hij Hj]. cbn in Hj. lia.
  - cbn [sortNumbers fold_right]. fold (sortNumbers l).
    apply insertSorted_ascending. exact IH.
Qed.

(** If [f] holds at the indices [i..j] of [l], at least [j - i + 1]
    entries of [l] satisfy it. *)
Lemma countIf_range (f : Q -> bool) (l : list Q) (i j : nat) :
  (i <= j < length l)%nat ->
  (forall k, (i <= k <= j)%nat -> f (nth k l 0) = true) ->
  (j - i + 1 <= countIf f l)%nat.
Proof.
  revert i j. induction l as [|x l IH]; intros i j [Hij Hj] Hf.
  - cbn in Hj. lia.
  - unfold countIf in *. cbn [filter length] in *.
    destruct i as [|i].
    + assert (Hx : f x = true) by (apply (Hf 0%nat); lia).
      rewrite Hx. cbn [length].
      destruct j as [|j]; [lia|].
      assert (H : (j - 0 + 1 <= length (filter f l))%nat).
      { apply IH; [lia|]. intros k Hk. apply (Hf (S k)). lia. }
      lia.
    + destruct j as [|j]; [lia|].
      assert (H : (j - i + 1 <= length (filter f l))%nat).
      { apply IH; [lia|]. intros k Hk. apply (Hf (S k)). lia. }
      destruct (f x); cbn [length]; lia.
Qed.

End Sorting.

(** ** median and the outlier filters *)

Section RobustStatistics.
Import Utils Spec.

(** The median of a non-empty array, from its sorted copy. *)
Lemma median_sorted (arr : list Q) :
  arr <> [] ->
  let sorted := sortNumbers arr in
  let mid := (length arr / 2)%nat in
  median arr =
  Some (if (length arr mod 2 =? 0)%nat
        then (nth (mid - 1) sorted 0 + nth mid sorted 0) / 2
        else nth mid sorted 0).
Proof.
  intro Hne. cbv zeta. unfold median.
  destruct arr as [|x arr]; [contradiction|].
  rewrite sortNumbers_length.
  destruct (length (x :: arr) mod 2 =? 0)%nat; reflexivity.
Qed.

(** The median of a non-empty array lies between two of its entries and
    splits it in two halves. *)
Lemma median_facts (arr : list Q) :
  arr <> [] ->
  exists m, median arr = Some m /\
    (exists a b, In a arr /\ In b arr /\ a <= m <= b) /\
    (length arr <= 2 * countIf (fun x => Qle_bool x m) arr)%nat /\
    (length arr <= 2 * countIf (fun x => Qle_bool m x) arr)%nat.
Proof.
  intros Hne.
  rewrite (median_sorted arr Hne). cbv zeta.
  pose proof (sortNumbers_ascending arr) as Hasc.
  pose proof (sortNumbers_length arr) as Hlen.
  assert (Hn : (1 <= length arr)%nat).
  { destruct arr; [contradiction|cbn; lia]. }
  assert (Hnth : forall k, (k < length arr)%nat ->
                           In (nth k (sortNumbers arr) 0) arr).
  { intros k Hk. apply sortNumbers_In. apply nth_In.
    rewrite Hlen. exact Hk. }
  eexists. split; [reflexivity|].
  rewrite <- !(sortNumbers_count _ arr).
  set (sorted := sortNumbers arr) in *. clearbody sorted.
  set (n := length arr) in *. clearbody n.
  destruct (n mod 2 =? 0)%nat eqn:Hpar.
  - apply Nat.eqb_eq in Hpar.
    assert (Hmid : (n = 2 * (n / 2))%nat).
    { pose proof (Nat.div_mod_eq n 2). lia. }
    set (mid := (n / 2)%nat) in *.
    assert (Hlo : nth (mid - 1) sorted 0 <= nth mid sorted 0)
      by (apply Hasc; lia).
    split; [|split].
    + exists (nth (mid - 1) sorted 0), (nth mid sorted 0).
      split; [apply Hnth; lia|]. split; [apply Hnth; lia|].
      split.
      * apply Qle_shift_div_l; [reflexivity|]. lra.
      * apply Qle_shift_div_r; [reflexivity|]. lra.
    + match goal with
      | |- (_ <= 2 * countIf ?f _)%nat =>
          assert (Hc : ((mid - 1) - 0 + 1 <= countIf f sorted)%nat)
      end.
      { apply countIf_range; [lia|]. intros k Hk. apply Qle_bool_iff.
        assert (nth k sorted 0 <= nth (mid - 1) sorted 0) by (apply Hasc; lia).
        apply Qle_shift_div_l; [reflexivity|]. lra. }
      lia.
    + match goal with
      | |- (_ <= 2 * countIf ?f _)%nat =>
          assert (Hc : ((n - 1) - mid + 1 <= countIf f sorted)%nat)
      end.
      { apply countIf_range; [lia|]. intros k Hk. apply Qle_bool_iff.
        assert (nth mid sorted 0 <= nth k sorted 0) by (apply Hasc; lia).
        apply Qle_shift_div_r; [reflexivity|]. lra. }
      lia.
  - apply Nat.eqb_neq in Hpar.
    assert (Hmid : (n = 2 * (n / 2) + 1)%nat).
    { pose proof (Nat.div_mod_eq n 2).
      pose proof (Nat.mod_upper_bound n 2). lia. }
    set (mid := (n / 2)%nat) in *.
    split; [|split].
    + exists (nth mid sorted 0), (nth mid sorted 0).
      split; [apply Hnth; lia|]. split; [apply Hnth; lia|].
      split; apply Qle_refl.
    + match goal with
      | |- (_ <= 2 * countIf ?f _)%nat =>
          assert (Hc : (mid - 0 + 1 <= countIf f sorted)%nat)
      end.
      { apply countIf_range; [lia|]. intros k Hk. apply Qle_bool_iff.
        apply Hasc; lia. }
      lia.
    + match goal with
      | |- (_ <= 2 * countIf ?f _)%nat =>
          assert (Hc : ((n - 1) - mid + 1 <= countIf f sorted)%nat)
      end.
      { apply countIf_range; [lia|]. intros k Hk. apply Qle_bool_iff.
        apply Hasc; lia. }
      lia.
Qed.


Lemma countIf_map {A B : Type} (f : A -> B) (g : B -> bool) (l : list A) :
  countIf g (map f l) = countIf (fun x => g (f x)) l.
Proof.
  unfold countIf. induction l as [|x l IH]; [reflexivity|].
  cbn [map filter]. destruct (g (f x)); cbn [length]; rewrite IH; reflexivity.
Qed.

Lemma countIf_le {A : Type} (f g : A -> bool) (l : list A) :
  (forall x, In x l -> f x = true -> g x = true) ->
  (countIf f l <= countIf g l)%nat.
Proof.
  unfold countIf. induction l as [|x l IH]; intro H; [cbn; lia|].
  cbn [filter].
  assert (IH' : (length (filter f l) <= length (filter g l))%nat).
  { apply IH. intros y Hy. apply H. right. exact Hy. }
  destruct (f x) eqn:Hf.
  - rewrite (H x (or_introl eq_refl) Hf). cbn [length]. lia.
  - destruct (g x); cbn [length]; lia.
Qed.

Lemma countIf_bound {A : Type} (f : A -> bool) (l : list A) :
  (countIf f l <= length l)%nat.
Proof. unfold countIf. apply filter_length_le. Qed.

(** The median absolute deviation of a non-empty array. *)
Lemma calculateMAD_facts (arr : list Q) :
  arr <> [] ->
  exists med mad,
    calculateMAD arr = (Some med, Some mad) /\
    median arr = Some med /\
    0 <= mad /\
    (length arr <=
     2 * countIf (fun x => Qle_bool (Qabs (x - med)) mad) arr)%nat.
Proof.
  intro Hne.
  destruct (median_facts arr Hne) as (med & Hmed & _).
  assert (Hdev : map (fun val => Qabs (val - med)) arr <> []).
  { destruct arr; [contradiction|discriminate]. }
  destruct (median_facts _ Hdev) as (mad & Hmad & (a & _ & Ha & _ & Hle & _)
                                     & Hbelow & _).
  exists med, mad. split; [|split; [exact Hmed|split]].
  - unfold calculateMAD. destruct arr as [|x arr]; [contradiction|].
    rewrite Hmed. cbn [toNumber]. rewrite Hmad. reflexivity.
  - apply in_map_iff in Ha. destruct Ha as (x & <- & _).
    pose proof (Qabs_nonneg (x - med)). lra.
  - rewrite length_map, countIf_map in Hbelow. exact Hbelow.
Qed.

(** X2. [calculateMAD] propagates null on the empty array; otherwise its
    [median] is the median of the array, its [mad] is not negative, and at
    least half of the entries deviate from the median by at most [mad]. *)
Theorem calculateMAD_spec :
  calculateMAD [] = (None, None) /\
  forall arr, arr <> [] ->
    exists med mad,
      calculateMAD arr = (Some med, Some mad) /\
      median arr = Some med /\
      0 <= mad /\
      (length arr <=
       2 * countIf (fun x => Qle_bool (Qabs (x - med)) mad) arr)%nat.
Proof.
  split; [reflexivity|]. intros arr Hne.
  destruct (calculateMAD_facts arr Hne) as (med & mad & H1 & H2 & H3 & H4).
  exists med, mad. repeat split; assumption.
Qed.



End RobustStatistics.

(** ** rollingMedian and smoothData *)

Section Smoothing.
Import Utils Spec.

Lemma slice_nth {A : Type} (l : list A) (a b k : nat) (d : A) :
  nth k (slice l a b) d = if (k <? b - a)%nat then nth (a + k) l d else d.
Proof.
  unfold slice. rewrite nth_firstn.
  destruct (k <? b - a)%nat; [apply nth_skipn|reflexivity].
Qed.

Lemma slice_length {A : Type} (l : list A) (a b : nat) :
  length (slice l a b) = Nat.min (b - a) (length l - a).
Proof. unfold slice. rewrite length_firstn, length_skipn. reflexivity. Qed.

Lemma in_slice {A : Type} (l : list A) (a b : nat) (x : A) :
  In x (slice l a b) -> In x l.
Proof.
  intro Hx. apply (In_nth _ _ x) in Hx. destruct Hx as (k & Hk & Hnth).
  rewrite slice_length in Hk. rewrite slice_nth in Hnth.
  assert (E : (k <? b - a)%nat = true) by (apply Nat.ltb_lt; lia).
  rewrite E in Hnth. rewrite <- Hnth. apply nth_In. lia.
Qed.

Lemma nth_in_slice {A : Type} (l : list A) (a b i : nat) (d : A) :
  (a <= i < b)%nat -> (i < length l)%nat -> In (nth i l d) (slice l a b).
Proof.
  intros Hi Hl.
  replace (nth i l d) with (nth (i - a) (slice l a b) d).
  - apply nth_In. rewrite slice_length. lia.
  - rewrite slice_nth.
    assert (E : (i - a <? b - a)%nat = true) by (apply Nat.ltb_lt; lia).
    rewrite E. f_equal. lia.
Qed.

Lemma in_validValues (l : list (option Q)) (x : Q) :
  In x (validValues l) <-> In (Some x) l.
Proof.
  unfold validValues. rewrite in_flat_map. split.
  - intros ([y|] & Hy & Hx); [|contradiction].
    destruct Hx as [<-|[]]. exact Hy.
  - intro H. exists (Some x). split; [exact H|left; reflexivity].
Qed.

(** The window of index [i] holds the entry at [i]. *)
Lemma own_window (data : list (option Q)) (half i : nat) (x : Q) :
  nth i data None = Some x ->
  In x (validValues (slice data (i - half)
                           (Nat.min (length data) (i + half + 1)))).
Proof.
  intro Hx.
  assert (Hi : (i < length data)%nat).
  { destruct (Nat.lt_ge_cases i (length data)) as [H|H]; [exact H|].
    rewrite nth_overflow in Hx by exact H. discriminate. }
  apply in_validValues. rewrite <- Hx. apply nth_in_slice; lia.
Qed.

Lemma rollingMedianAt_cases (data : list (option Q)) (half i : nat) :
  (rollingMedianAt data half i = nth i data None /\
   nth i data None = None) \/
  (exists m a b,
     rollingMedianAt data half i = Some m /\
     In (Some a) data /\ In (Some b) data /\ a <= m <= b).
Proof.
  unfold rollingMedianAt.
  set (window := validValues (slice data (i - half)
                                (Nat.min (length data) (i + half + 1)))).
  destruct window as [|w ws] eqn:Hw.
  - left. split; [reflexivity|].
    destruct (nth i data None) as [x|] eqn:Hx; [|reflexivity].
    pose proof (own_window data half i x Hx) as Hin.
    fold window in Hin. rewrite Hw in Hin. contradiction.
  - right.
    destruct (median_facts (w :: ws)) as (m & Hm & (a & b & Ha & Hb & Hab) & _);
      [discriminate|].
    exists m, a, b. split; [exact Hm|].
    rewrite <- Hw in Ha, Hb. unfold window in Ha, Hb.
    apply in_validValues in Ha, Hb. apply in_slice in Ha, Hb. auto.
Qed.


Lemma sum_bounds (valid : list Q) (lo hi : Q) :
  (forall v, In v valid -> lo <= v <= hi) ->
  forall acc,
  acc + inject_Z (Z.of_nat (length valid)) * lo <= fold_left Qplus valid acc /\
  fold_left Qplus valid acc <= acc + inject_Z (Z.of_nat (length valid)) * hi.
Proof.
  induction valid as [|x valid IH]; intros Hb acc.
  - cbn [fold_left length Z.of_nat]. change (inject_Z 0) with 0. split; lra.
  - cbn [fold_left]. cbn [length]. rewrite Nat2Z.inj_succ. unfold Z.succ.
    rewrite inject_Z_plus. change (inject_Z 1) with 1.
    destruct (IH (fun v Hv => Hb v (or_intror Hv)) (acc + x)) as [H1 H2].
    destruct (Hb x (or_introl eq_refl)) as [Hx1 Hx2].
    split; nra.
Qed.

Lemma smoothDataAt_cases (data : list (option Q)) (windowSize i : nat)
    (lo hi : Q) :
  (forall v, In (Some v) data -> lo <= v <= hi) ->
  (smoothDataAt data windowSize i = nth i data None /\
   nth i data None = None) \/
  (exists m, smoothDataAt data windowSize i = Some m /\ lo <= m <= hi).
Proof.
  intro Hb. unfold smoothDataAt.
  set (valid := validValues (slice data (i - windowSize / 2)
                   (Nat.min (length data) (i + windowSize / 2 + 1)))).
  destruct (0 <? length valid)%nat eqn:Hc.
  - right. apply Nat.ltb_lt in Hc. eexists. split; [reflexivity|].
    assert (Hv : forall v, In v valid -> lo <= v <= hi).
    { intros v Hv. apply Hb. unfold valid in Hv.
      apply in_validValues in Hv. apply in_slice in Hv. exact Hv. }
    destruct (sum_bounds valid lo hi Hv 0) as [H1 H2].
    assert (Hn : 0 < inject_Z (Z.of_nat (length valid))).
    { change 0 with (inject_Z 0). rewrite <- Zlt_Qlt. lia. }
    split.
    + apply Qle_shift_div_l; [exact Hn|]. lra.
    + apply Qle_shift_div_r; [exact Hn|]. lra.
  - left. apply Nat.ltb_ge in Hc. split; [reflexivity|].
    destruct (nth i data None) as [x|] eqn:Hx; [|reflexivity].
    pose proof (own_window data (windowSize / 2) i x Hx) as Hin.
    fold valid in Hin. destruct valid; [contradiction|cbn in Hc; lia].
Qed.

Lemma smoothDataAt_keeps (data : list (option Q)) (windowSize i : nat) :
  nth i data None <> None -> smoothDataAt data windowSize i <> None.
Proof.
  intro Hi. destruct (nth i data None) as [x|] eqn:Hx; [|contradiction].
  pose proof (own_window data (windowSize / 2) i x Hx) as Hin.
  unfold smoothDataAt.
  set (valid := validValues (slice data (i - windowSize / 2)
                   (Nat.min (length data) (i + windowSize / 2 + 1)))) in *.
  destruct valid as [|v valid]; [contradiction|].
  cbn [length Nat.ltb Nat.leb]. discriminate.
Qed.

(** Every array of nullable numbers lies within some bounds. *)
Lemma values_bounded (data : list (option Q)) :
  exists lo hi, forall v, In (Some v) data -> lo <= v <= hi.
Proof.
  induction data as [|[x|] data (lo & hi & IH)].
  - exists 0, 0. intros v [].
  - exists (if Qltb x lo then x else lo), (if Qltb hi x then x else hi).
    intros v [[= <-]|Hv].
    + case_Qltb x lo; case_Qltb hi x; lra.
    + specialize (IH v Hv). case_Qltb x lo; case_Qltb hi x; lra.
  - exists lo, hi. intros v [Hv|Hv]; [discriminate|]. apply IH. exact Hv.
Qed.

(** X6. [smoothData] returns an array of the same length, and the array
    itself when it is shorter than the window; it never turns a value
    into null; and it keeps the sign of a series: when no value of the
    input is negative, none of the output is, and when none is positive,
    none of the output is. *)
Theorem smoothData_spec (data : list (option Q)) (windowSize : nat) :
  length (smoothData data windowSize) = length data /\
  ((length data < windowSize)%nat -> smoothData data windowSize = data) /\
  (forall i, nth i data None <> None ->
             nth i (smoothData data windowSize) None <> None) /\
  ((forall v, In (Some v) data -> 0 <= v) ->
   forall v, In (Some v) (smoothData data windowSize) -> 0 <= v) /\
  ((forall v, In (Some v) data -> v <= 0) ->
   forall v, In (Some v) (smoothData data windowSize) -> v <= 0).
Proof.
  assert (Hbounds : forall lo hi,
            (forall v, In (Some v) data -> lo <= v <= hi) ->
            forall v, In (Some v) (smoothData data windowSize) ->
                      lo <= v <= hi).
  { unfold smoothData.
    destruct (length data <? windowSize)%nat eqn:Hshort; [auto|].
    intros lo hi Hb v Hv. apply in_map_iff in Hv.
    destruct Hv as (i & Hi & _).
    destruct (smoothDataAt_cases data windowSize i lo hi Hb)
      as [[Hsame Hnull]|(m & Hm & Hlohi)].
    - rewrite Hsame, Hnull in Hi. discriminate.
    - rewrite Hm in Hi. injection Hi as <-. exact Hlohi. }
  destruct (values_bounded data) as (lo & hi & Hlohi).
  split; [|split; [|split; [|split]]].
  - unfold smoothData.
    destruct (length data <? windowSize)%nat; [reflexivity|].
    rewrite length_map, length_seq. reflexivity.
  - intro Hlt. unfold smoothData.
    apply Nat.ltb_lt in Hlt. rewrite Hlt. reflexivity.
  - unfold smoothData.
    destruct (length data <? windowSize)%nat eqn:Hshort; [auto|].
    intros i Hi.
    assert (Hlt : (i < length data)%nat).
    { destruct (Nat.lt_ge_cases i (length data)) as [H|H]; [exact H|].
      rewrite nth_overflow in Hi by exact H. contradiction. }
    rewrite nth_map_seq by exact Hlt. cbn [Nat.add].
    apply smoothDataAt_keeps. exact Hi.
  - intros Hpos v Hv.
    apply (Hbounds 0 (if Qltb hi 0 then 0 else hi)); [|exact Hv].
    intros w Hw. specialize (Hpos w Hw). specialize (Hlohi w Hw).
    case_Qltb hi 0; lra.
  - intros Hneg v Hv.
    apply (Hbounds (if Qltb 0 lo then 0 else lo) 0); [|exact Hv].
    intros w Hw. specialize (Hneg w Hw). specialize (Hlohi w Hw).
    case_Qltb 0 lo; lra.
Qed.

End Smoothing.

(** ** decimateData *)

Section Decimation.
Import Utils Spec.

Lemma map_seq_S {A : Type} (f : nat -> A) (m : nat) :
  map f (seq 0 (S m)) = f 0%nat :: map (fun j => f (S j)) (seq 0 m).
Proof.
  cbn [seq map]. rewrite <- seq_shift, map_map. reflexivity.
Qed.

(** The decimation loop, started at index [i] with [m] indices left below
    the last one and at least as much fuel, returns, having appended the
    entries at [i], [i + factor], ... to both arrays. *)
Lemma decimateLoop_returns (data distances : list (option Q)) (factor : nat) :
  forall m fuel i acc,
  (forall j, (j < m)%nat -> (i + j * factor < length data - 1)%nat) ->
  (length data - 1 <= i + m * factor)%nat ->
  (m <= fuel)%nat ->
  decimateLoop fuel data distances factor i acc =
  Returned
    (fst acc ++ map (fun j => nth (i + j * factor) data None) (seq 0 m),
     snd acc ++ map (fun j => nth (i + j * factor) distances None) (seq 0 m)).
Proof.
  induction m as [|m IH]; intros fuel i acc Hin Hout Hfuel.
  - cbn [seq map]. rewrite !app_nil_r.
    assert (E : (i <? length data - 1)%nat = false)
      by (apply Nat.ltb_ge; lia).
    destruct fuel; cbn [decimateLoop]; rewrite E; destruct acc; reflexivity.
  - destruct fuel as [|fuel]; [lia|]. cbn [decimateLoop].
    assert (E : (i <? length data - 1)%nat = true).
    { apply Nat.ltb_lt. specialize (Hin 0%nat). lia. }
    rewrite E. rewrite IH.
    + cbn [fst snd]. rewrite !map_seq_S, <- !app_assoc. cbn [app].
      rewrite !Nat.mul_0_l, !Nat.add_0_r.
      assert (Hm : forall d : list (option Q),
                 map (fun j => nth (i + factor + j * factor) d None)
                     (seq 0 m) =
                 map (fun j => nth (i + S j * factor) d None) (seq 0 m))
        by (intro d; apply map_ext; intro j; f_equal; lia).
      rewrite !Hm. reflexivity.
    + intros j Hj. specialize (Hin (S j)). lia.
    + lia.
    + lia.
Qed.

Lemma decimatedIndices_bounds (len factor : nat) :
  (0 < factor)%nat -> (factor * 2 < len)%nat ->
  (forall j, (j < (len - 2) / factor)%nat ->
             (factor + j * factor < len - 1)%nat) /\
  (len - 1 <= factor + (len - 2) / factor * factor)%nat.
Proof.
  intros Hf Hlen.
  pose proof (Nat.div_mod_eq (len - 2) factor) as Hdm.
  pose proof (Nat.mod_upper_bound (len - 2) factor) as Hr.
  set (q := ((len - 2) / factor)%nat) in *.
  set (r := ((len - 2) mod factor)%nat) in *.
  split.
  - intros j Hj. assert ((j + 1) * factor <= q * factor)%nat by nia. nia.
  - nia.
Qed.

Lemma In_decimatedIndices (len factor i : nat) :
  (0 < factor)%nat -> (factor * 2 < len)%nat ->
  In i (decimatedIndices len factor) -> (0 < i < len - 1)%nat.
Proof.
  intros Hf Hlen Hi. unfold decimatedIndices in Hi.
  apply in_map_iff in Hi. destruct Hi as (j & <- & Hj).
  apply in_seq in Hj.
  pose proof (proj1 (decimatedIndices_bounds len factor Hf Hlen) j). lia.
Qed.

Lemma decimateData_small (fuel : nat) (data distances : list (option Q))
    (factor : nat) :
  (length data <= factor * 2)%nat ->
  decimateData fuel data distances factor = Returned (data, distances).
Proof.
  intro H. unfold decimateData.
  apply Nat.leb_le in H. rewrite H. reflexivity.
Qed.

Lemma decimateData_large (fuel : nat) (data distances : list (option Q))
    (factor : nat) :
  (0 < factor)%nat -> (factor * 2 < length data)%nat ->
  ((length data - 2) / factor <= fuel)%nat ->
  decimateData fuel data distances factor =
  Returned
    (nth 0 data None ::
       map (fun i => nth i data None)
           (decimatedIndices (length data) factor) ++
       [nth (length data - 1) data None],
     nth 0 distances None ::
       map (fun i => nth i distances None)
           (decimatedIndices (length data) factor) ++
       [nth (length distances - 1) distances None]).
Proof.
  intros Hf Hlen Hfuel. unfold decimateData.
  assert (E : (length data <=? factor * 2)%nat = false)
    by (apply Nat.leb_gt; exact Hlen).
  rewrite E.
  destruct (decimatedIndices_bounds (length data) factor Hf Hlen)
    as [Hin Hout].
  rewrite (decimateLoop_returns data distances factor _ fuel factor _
             Hin Hout Hfuel).
  cbn [fst snd app]. unfold decimatedIndices. rewrite !map_map.
  reflexivity.
Qed.

(** X7. For a positive factor [decimateData] returns once the fuel covers
    its iterations.  An input of at most [2 * factor] entries is returned
    unchanged; otherwise the result holds the first entry, the entries at
    the multiples of [factor] strictly between the first and the last
    index, and the last entry, taken at the same indices from both arrays.
    In both cases the first and the last entry of the data are kept, and
    arrays of the same length give arrays of the same length. *)
Theorem decimateData_spec (data distances : list (option Q)) (factor : nat) :
  (0 < factor)%nat ->
  exists n0 data' distances',
    (forall fuel, (n0 <= fuel)%nat ->
       decimateData fuel data distances factor = Returned (data', distances'))
    /\
    ((length data <= factor * 2)%nat ->
     data' = data /\ distances' = distances) /\
    ((factor * 2 < length data)%nat ->
     data' = nth 0 data None ::
             map (fun i => nth i data None)
                 (decimatedIndices (length data) factor) ++
             [nth (length data - 1) data None] /\
     distances' = nth 0 distances None ::
                  map (fun i => nth i distances None)
                      (decimatedIndices (length data) factor) ++
                  [nth (length distances - 1) distances None] /\
     forall i, In i (decimatedIndices (length data) factor) ->
               (0 < i < length data - 1)%nat) /\
    nth 0 data' None = nth 0 data None /\
    nth (length data' - 1) data' None = nth (length data - 1) data None /\
    (length data = length distances -> length data' = length distances').
Proof.
  intro Hf.
  destruct (Nat.le_gt_cases (length data) (factor * 2)) as [Hsmall|Hlarge].
  - exists 0%nat, data, distances.
    split; [|split; [|split; [|split; [|split]]]].
    + intros fuel _. apply decimateData_small. exact Hsmall.
    + intros _. split; reflexivity.
    + intro H. lia.
    + reflexivity.
    + reflexivity.
    + intro H. exact H.
  - exists ((length data - 2) / factor)%nat. eexists. eexists.
    split; [|split; [|split; [|split; [|split]]]].
    + intros fuel Hfuel.
      apply decimateData_large; [exact Hf|exact Hlarge|exact Hfuel].
    + intro H. lia.
    + intros _. split; [reflexivity|]. split; [reflexivity|].
      intros i Hi. apply (In_decimatedIndices _ factor); assumption.
    + reflexivity.
    + cbn [length]. rewrite length_app, length_map. cbn [length].
      replace (S (length (decimatedIndices (length data) factor) + 1) - 1)%nat
        with (S (length (decimatedIndices (length data) factor))) by lia.
      cbn [nth]. rewrite app_nth2; rewrite length_map; [|lia].
      rewrite Nat.sub_diag. reflexivity.
    + intros _. cbn [length]. rewrite !length_app, !length_map.
      reflexivity.
Qed.

(** A series of nine samples, of which one is missing, decimated by 2. *)
Lemma decimateData_spec_witness :
  (0 < 2)%nat /\
  exists n0,
    forall fuel, (n0 <= fuel)%nat ->
      decimateData fuel
        [Some 1; Some 2; None; Some 4; Some 5; Some 6; Some 7; Some 8;
         Some 9]
        [Some 10; Some 11; Some 12; Some 13; Some 14; Some 15; Some 16;
         Some 17; Some 18] 2%nat
      = Returned ([Some 1; None; Some 5; Some 7; Some 9],
                  [Some 10; Some 12; Some 14; Some 16; Some 18]).
Proof.
  split; [lia|].
  destruct (decimateData_spec
              [Some 1; Some 2; None; Some 4; Some 5; Some 6; Some 7; Some 8;
               Some 9]
              [Some 10; Some 11; Some 12; Some 13; Some 14; Some 15; Some 16;
               Some 17; Some 18] 2%nat)
    as (n0 & data' & distances' & Hret & _ & Hlarge & _); [lia|].
  exists n0. intros fuel Hfuel. rewrite (Hret fuel Hfuel).
  destruct Hlarge as (-> & -> & _); [cbn [length]; lia|].
  reflexivity.
Defined.

Lemma getAdaptiveSmoothingParams_positive (d : Q) :
  (0 < snd (getAdaptiveSmoothingParams d))%nat.
Proof.
  unfold getAdaptiveSmoothingParams.
  case_Qltb d 10; [cbn; lia|]. case_Qltb d 25; [cbn; lia|].
  case_Qltb d 50; [cbn; lia|]. case_Qltb d 100; cbn; lia.
Qed.

(** X8. [getAdaptiveSmoothingParams] never returns a smaller window or a
    smaller decimation factor for a longer route. *)
Theorem getAdaptiveSmoothingParams_monotone (d1 d2 : Q) :
  d1 <= d2 ->
  (fst (getAdaptiveSmoothingParams d1)
     <= fst (getAdaptiveSmoothingParams d2))%nat /\
  (snd (getAdaptiveSmoothingParams d1)
     <= snd (getAdaptiveSmoothingParams d2))%nat.
Proof.
  intro Hle. unfold getAdaptiveSmoothingParams.
  case_Qltb d1 10; case_Qltb d2 10; cbn [fst snd]; try lia; try lra;
  case_Qltb d1 25; case_Qltb d2 25; cbn [fst snd]; try lia; try lra;
  case_Qltb d1 50; case_Qltb d2 50; cbn [fst snd]; try lia; try lra;
  case_Qltb d1 100; case_Qltb d2 100; cbn [fst snd]; try lia; try lra.
Qed.

(** A route of 12 km against one of 60 km. *)
Lemma getAdaptiveSmoothingParams_monotone_witness :
  12 <= 60 /\
  (fst (getAdaptiveSmoothingParams 12)
     <= fst (getAdaptiveSmoothingParams 60))%nat /\
  (snd (getAdaptiveSmoothingParams 12)
     <= snd (getAdaptiveSmoothingParams 60))%nat.
Proof.
  assert (H : 12 <= 60) by (unfold Qle; cbn; lia).
  split; [exact H|]. exact (getAdaptiveSmoothingParams_monotone 12 60 H).
Defined.

End Decimation.

(** ** ChartManager: the series of a chart *)

Section ChartSeries.
Import Utils Spec.

Variable haversineDistance : Coordinate -> Coordinate -> Q.

Lemma nth_map_lt {A B : Type} (f : A -> B) (l : list A) (i : nat)
    (d : A) (d' : B) :
  (i < length l)%nat -> nth i (map f l) d' = f (nth i l d).
Proof.
  intro Hi. rewrite (nth_indep _ d' (f d)) by (rewrite length_map; exact Hi).
  apply map_nth.
Qed.

Lemma ascending_map_add (l : list Q) (c : Q) :
  ascending l -> ascending (map (fun d => d + c) l).
Proof.
  intros Hasc i j [Hij Hj]. rewrite length_map in Hj.
  rewrite (nth_map_lt _ l i 0) by lia.
  rewrite (nth_map_lt _ l j 0) by lia.
  assert (nth i l 0 <= nth j l 0) by (apply Hasc; lia). lra.
Qed.

(** Entries picked from an ascending array at ascending indices are
    ascending. *)
Lemma ascending_pick (l : list Q) (indices : list nat) :
  ascending l ->
  (forall a b, (a <= b < length indices)%nat ->
               (nth a indices 0 <= nth b indices 0 < length l)%nat) ->
  ascending (map (fun i => nth i l 0) indices).
Proof.
  intros Hasc Hidx a b [Hab Hb]. rewrite length_map in Hb.
  rewrite (nth_map_lt _ indices a 0%nat) by lia.
  rewrite (nth_map_lt _ indices b 0%nat) by lia.
  apply Hasc. apply Hidx. lia.
Qed.

Lemma decimatedIndices_ascending (len factor : nat) :
  (0 < factor)%nat -> (factor * 2 < len)%nat ->
  forall a b,
    (a <= b < length (0 :: decimatedIndices len factor ++ [len - 1]))%nat ->
    (nth a (0 :: decimatedIndices len factor ++ [len - 1]) 0
       <= nth b (0 :: decimatedIndices len factor ++ [len - 1]) 0 < len)%nat.
Proof.
  intros Hf Hlen a b [Hab Hb].
  destruct (decimatedIndices_bounds len factor Hf Hlen) as [Hin _].
  unfold decimatedIndices in *.
  set (m := ((len - 2) / factor)%nat) in *.
  cbn [length] in Hb. rewrite length_app, length_map, length_seq in Hb.
  cbn [length] in Hb.
  set (indices := (0 :: map (fun j => factor + j * factor) (seq 0 m)
                     ++ [len - 1])%nat).
  assert (Hnth : forall k, (k < m)%nat ->
                 nth (S k) indices 0%nat = (factor + k * factor)%nat).
  { intros k Hk. unfold indices. cbn [nth].
    rewrite app_nth1 by (rewrite length_map, length_seq; exact Hk).
    rewrite nth_map_seq by exact Hk. reflexivity. }
  assert (Hlast : nth (S m) indices 0%nat = (len - 1)%nat).
  { unfold indices. cbn [nth].
    rewrite app_nth2; rewrite length_map, length_seq; [|lia].
    rewrite Nat.sub_diag. reflexivity. }
  assert (Hfirst : nth 0 indices 0%nat = 0%nat) by reflexivity.
  assert (Hval : forall k, (k <= S m)%nat ->
            (nth k indices 0 < len)%nat /\
            forall k', (k' <= k)%nat ->
                       (nth k' indices 0 <= nth k indices 0)%nat).
  { intros k Hk. destruct k as [|k].
    - split; [rewrite Hfirst; lia|].
      intros k' Hk'. assert (k' = 0%nat) by lia. subst. lia.
    - destruct (Nat.eq_dec k m) as [->|Hne].
      + rewrite Hlast. split; [lia|].
        intros k' Hk'. destruct k' as [|k']; [rewrite Hfirst; lia|].
        destruct (Nat.eq_dec k' m) as [->|Hne']; [rewrite Hlast; lia|].
        rewrite Hnth by lia. specialize (Hin k'). lia.
      + rewrite Hnth by lia. split; [specialize (Hin k); lia|].
        intros k' Hk'. destruct k' as [|k']; [rewrite Hfirst; lia|].
        rewrite Hnth by lia. nia. }
  destruct (Hval b) as [Hlt Hle]; [lia|].
  split; [apply Hle; exact Hab|exact Hlt].
Qed.

Lemma smoothData_length (data : list (option Q)) (windowSize : nat) :
  length (smoothData data windowSize) = length data.
Proof.
  unfold smoothData.
  destruct (length data <? windowSize)%nat; [reflexivity|].
  rewrite length_map, length_seq. reflexivity.
Qed.

(** X9. The series [drawChart] draws for a route that has a metric value
    (possibly null) per coordinate: with a distance that is never negative
    the processing returns; the metric series and the distance series have
    the same length, at most that of the route; every distance is a
    number, the cumulative distance of a point of the route plus the
    route's offset; the distances are non-decreasing, start at the offset
    and end at the route's total distance plus the offset, where the total
    distance is the cumulative distance of the last point. *)
Theorem processRoute_spec (coordinates : list Coordinate)
    (metricData : list (option Q)) (offset : Q) :
  (forall a b, 0 <= haversineDistance a b) ->
  (1 <= length coordinates)%nat ->
  length metricData = length coordinates ->
  let distances := cumulativeDistances haversineDistance coordinates in
  exists n0 r,
    (forall fuel, (n0 <= fuel)%nat ->
       ChartManager.processRoute haversineDistance fuel coordinates
                                 metricData offset = Returned r) /\
    length (ChartManager.cumulativeDistances r)
      = length (ChartManager.metricData r) /\
    (length (ChartManager.metricData r) <= length coordinates)%nat /\
    ChartManager.totalDistance r
      = nth (length coordinates - 1) distances 0 /\
    exists ds,
      ChartManager.cumulativeDistances r = map Some ds /\
      (1 <= length ds)%nat /\
      (forall d, In d ds ->
         exists i, (i < length coordinates)%nat /\
                   d = nth i distances 0 + offset) /\
      ascending ds /\
      nth 0 ds 0 == offset /\
      nth (length ds - 1) ds 0 == ChartManager.totalDistance r + offset.
Proof.
  intros Hnonneg Hlen Hmetric distances0.
  destruct (cumulativeDistances_ascending haversineDistance coordinates
              Hnonneg Hlen) as (Hdl & Hd0 & Hasc).
  unfold ChartManager.processRoute. subst distances0.
  set (distances := cumulativeDistances haversineDistance coordinates) in *.
  set (totalDist := nth (length distances - 1) distances 0).
  set (params := getAdaptiveSmoothingParams totalDist).
  set (smoothed := smoothData metricData (fst params)).
  assert (Hsl : length smoothed = length distances).
  { unfold smoothed. rewrite smoothData_length. lia. }
  assert (Hf : (0 < snd params)%nat)
    by apply getAdaptiveSmoothingParams_positive.
  destruct (Nat.le_gt_cases (length smoothed) (snd params * 2))
    as [Hsmall|Hlarge].
  - exists 0%nat. eexists. split; [|split; [|split; [|split]]].
    + intros fuel _. rewrite decimateData_small by exact Hsmall.
      cbn [fst snd]. reflexivity.
    + cbn [ChartManager.cumulativeDistances ChartManager.metricData].
      rewrite !length_map. lia.
    + cbn [ChartManager.metricData]. lia.
    + cbn [ChartManager.totalDistance]. unfold totalDist. rewrite Hdl.
      reflexivity.
    + exists (map (fun d => d + offset) distances).
      cbn [ChartManager.cumulativeDistances ChartManager.totalDistance].
      split; [|split; [|split; [|split; [|split]]]].
      * rewrite !map_map. reflexivity.
      * rewrite length_map. lia.
      * intros d Hd. apply in_map_iff in Hd. destruct Hd as (x & <- & Hx).
        apply (In_nth _ _ 0) in Hx. destruct Hx as (i & Hi & <-).
        exists i. split; [lia|reflexivity].
      * apply ascending_map_add. exact Hasc.
      * rewrite (nth_map_lt _ distances 0%nat 0) by lia.
        rewrite Hd0. lra.
      * rewrite length_map.
        rewrite (nth_map_lt _ distances _ 0) by lia.
        fold totalDist. lra.
  - exists ((length smoothed - 2) / snd params)%nat. eexists.
    split; [|split; [|split; [|split]]].
    + intros fuel Hfuel.
      rewrite decimateData_large by assumption.
      cbn [fst snd]. reflexivity.
    + cbn [ChartManager.cumulativeDistances ChartManager.metricData].
      cbn [map length]. rewrite map_app, !length_app, !length_map.
      reflexivity.
    + cbn [ChartManager.metricData length].
      rewrite length_app, length_map. cbn [length].
      unfold decimatedIndices. rewrite length_map, length_seq.
      assert ((length smoothed - 2) / snd params <= length smoothed - 2)%nat
        by (apply Nat.Div0.div_le_upper_bound; nia).
      lia.
    + cbn [ChartManager.totalDistance]. unfold totalDist. rewrite Hdl.
      reflexivity.
    + cbn [ChartManager.cumulativeDistances ChartManager.totalDistance].
      set (indices :=
             (0 :: decimatedIndices (length smoothed) (snd params)
                ++ [length smoothed - 1])%nat).
      exists (map (fun d => d + offset)
                  (map (fun i => nth i distances 0) indices)).
      assert (Hidx := decimatedIndices_ascending (length smoothed)
                        (snd params) Hf Hlarge).
      fold indices in Hidx. rewrite Hsl in Hidx.
      assert (Hbelow : forall i, In i indices -> (i < length distances)%nat).
      { unfold indices. intros i [<-|Hi]; [lia|].
        apply in_app_or in Hi. destruct Hi as [Hi|[<-|[]]]; [|lia].
        apply (In_decimatedIndices _ (snd params)) in Hi;
          [lia|exact Hf|exact Hlarge]. }
      split; [|split; [|split; [|split; [|split]]]].
      * unfold indices. cbn [map]. rewrite !map_app. cbn [map].
        rewrite !map_map, length_map, <- Hsl.
        f_equal.
        -- rewrite (nth_map_lt _ distances 0%nat 0) by lia. reflexivity.
        -- f_equal.
           ++ apply map_ext_in. intros i Hi.
              apply (In_decimatedIndices _ (snd params)) in Hi;
                [|exact Hf|exact Hlarge].
              rewrite (nth_map_lt _ distances i 0) by lia. reflexivity.
           ++ rewrite (nth_map_lt _ distances _ 0) by lia. reflexivity.
      * rewrite !length_map. unfold indices. cbn [length]. lia.
      * intros d Hd. rewrite map_map in Hd. apply in_map_iff in Hd.
        destruct Hd as (i & <- & Hi). exists i.
        split; [rewrite <- Hdl; apply Hbelow; exact Hi|reflexivity].
      * apply ascending_map_add. apply ascending_pick; assumption.
      * unfold indices. cbn [map nth]. rewrite Hd0. lra.
      * rewrite !length_map.
        assert (Hil : length indices =
                      S (S (length (decimatedIndices (length smoothed)
                                                     (snd params))))).
        { unfold indices. cbn [length]. rewrite length_app. cbn [length].
          lia. }
        rewrite (nth_map_lt _ _ _ 0) by (rewrite length_map; lia).
        rewrite (nth_map_lt _ indices _ 0%nat) by lia.
        assert (Hlast : nth (length indices - 1) indices 0%nat
                        = (length smoothed - 1)%nat).
        { rewrite Hil. unfold indices.
          replace (S (S (length (decimatedIndices (length smoothed)
                                                  (snd params)))) - 1)%nat
            with (S (length (decimatedIndices (length smoothed)
                                              (snd params)))) by lia.
          cbn [nth]. rewrite app_nth2 by lia.
          rewrite Nat.sub_diag. reflexivity. }
        rewrite Hlast, Hsl. fold totalDist. lra.
Qed.

End ChartSeries.

Section ChartSeriesExample.
Import Utils Spec.

(** The four points of the cleaning test with their speeds, drawn without
    an offset. *)
Lemma processRoute_spec_witness :
  (forall a b, 0 <= flatDistance a b) /\
  (1 <= length testCoordinates)%nat /\
  length testSpeeds = length testCoordinates /\
  exists n0 r,
    (forall fuel, (n0 <= fuel)%nat ->
       ChartManager.processRoute flatDistance fuel testCoordinates
                                 testSpeeds 0 = Returned r) /\
    length (ChartManager.cumulativeDistances r)
      = length (ChartManager.metricData r) /\
    (length (ChartManager.metricData r) <= length testCoordinates)%nat /\
    ChartManager.totalDistance r
      = nth (length testCoordinates - 1)
            (cumulativeDistances flatDistance testCoordinates) 0.
Proof.
  split; [exact flatDistance_nonneg|].
  split; [cbn; lia|]. split; [reflexivity|].
  destruct (processRoute_spec flatDistance testCoordinates testSpeeds 0
              flatDistance_nonneg) as (n0 & r & Hret & Hl & Hm & Ht & _);
    [cbn; lia|reflexivity|].
  exists n0, r. auto.
Defined.

End ChartSeriesExample.

(** ** filterDistanceJumps *)

Section DistanceJumps.
Import Floats Double DoubleSpec.
Local Open Scope float_scope.

Variable haversineDistance : Coordinate -> Coordinate -> float.

Local Abbreviation filterDistanceJumps :=
  (Double.filterDistanceJumps haversineDistance).
Local Abbreviation distanceJumpStep :=
  (Double.distanceJumpStep haversineDistance).

Lemma filterDistanceJumps_length (coordinates : list Coordinate)
    (timestamps : list (option float)) (maxSpeedKmh : float) :
  length (filterDistanceJumps coordinates timestamps maxSpeedKmh)
  = length coordinates.
Proof.
  unfold Double.filterDistanceJumps.
  destruct (length coordinates <? 2)%nat eqn:Hlen.
  - apply length_map.
  - apply Nat.ltb_ge in Hlen. cbn [length].
    rewrite length_map, length_seq. lia.
Qed.

(** A flag beyond index 0 is the result of the loop body at that index. *)
Lemma filterDistanceJumps_nth (coordinates : list Coordinate)
    (timestamps : list (option float)) (maxSpeedKmh : float) (i : nat) :
  (i < length coordinates)%nat ->
  nth i (filterDistanceJumps coordinates timestamps maxSpeedKmh) true =
  match i with
  | O => true
  | S _ => distanceJumpStep coordinates timestamps maxSpeedKmh i
  end.
Proof.
  intro Hi. unfold Double.filterDistanceJumps.
  destruct (length coordinates <? 2)%nat eqn:Hlen.
  - apply Nat.ltb_lt in Hlen.
    destruct i as [|i]; [|lia].
    destruct coordinates; [cbn in Hi; lia|reflexivity].
  - destruct i as [|i]; [reflexivity|]. cbn [nth].
    rewrite nth_map_seq by lia. reflexivity.
Qed.

(** The loop body rejects exactly a step between two timestamped points,
    taken in positive time, at more than the maximum speed. *)
Lemma distanceJumpStep_false (coordinates : list Coordinate)
    (timestamps : list (option float)) (maxSpeedKmh : float) (i : nat) :
  distanceJumpStep coordinates timestamps maxSpeedKmh i = false <->
  exists ti tp,
    nth i timestamps None = Some ti /\
    nth (i - 1) timestamps None = Some tp /\
    (0 <? deltaSeconds ti tp) = true /\
    (maxSpeedKmh <?
     impliedSpeed (haversineDistance (nth (i - 1) coordinates origin)
                                     (nth i coordinates origin)) ti tp)
    = true.
Proof.
  unfold Double.distanceJumpStep, impliedSpeed, deltaSeconds.
  destruct (nth i timestamps None) as [ti|] eqn:Hti;
    [|split; [discriminate|intros (ti & tp & H & _); discriminate]].
  destruct (nth (i - 1) timestamps None) as [tp|] eqn:Htp;
    [|split; [discriminate|intros (ti' & tp' & _ & H & _); discriminate]].
  cbv zeta.
  destruct (0 <? (ti - tp) / 1000) eqn:Hdt.
  - match goal with |- (if ?c then _ else _) = _ <-> _ =>
      destruct c eqn:Hsp
    end.
    + split; [intros _|reflexivity].
      exists ti, tp. repeat split; assumption.
    + split; [discriminate|].
      intros (ti' & tp' & Hi' & Hp' & _ & Hsp').
      injection Hi' as <-. injection Hp' as <-. congruence.
  - split; [discriminate|].
    intros (ti' & tp' & Hi' & Hp' & Hdt' & _).
    injection Hi' as <-. injection Hp' as <-. congruence.
Qed.

(** X10. [filterDistanceJumps], in doubles, returns one flag per
    coordinate, the first of them true.  A flag is false exactly when
    both the point and its predecessor are timestamped, the time between
    them is positive, and the speed the step implies, computed as the
    source computes it (metres over seconds, times 3.6), exceeds
    [maxSpeedKmh]; points without a timestamp, and steps that take no
    positive time, are never flagged.  Raising the maximum speed never
    flags more points.  The comparison is on the rounded speed: 1 km in
    120 s computes to 30.000000000000004 km/h and is flagged at a
    maximum of 30. *)
Theorem filterDistanceJumps_spec (coordinates : list Coordinate)
    (timestamps : list (option float)) (maxSpeedKmh : float) :
  length (filterDistanceJumps coordinates timestamps maxSpeedKmh)
    = length coordinates /\
  nth 0 (filterDistanceJumps coordinates timestamps maxSpeedKmh) true
    = true /\
  (forall i, (i < length coordinates)%nat ->
     (nth i (filterDistanceJumps coordinates timestamps maxSpeedKmh) true
        = false <->
      (1 <= i)%nat /\
      exists ti tp,
        nth i timestamps None = Some ti /\
        nth (i - 1) timestamps None = Some tp /\
        (0 <? deltaSeconds ti tp) = true /\
        (maxSpeedKmh <?
         impliedSpeed (haversineDistance (nth (i - 1) coordinates origin)
                                         (nth i coordinates origin)) ti tp)
        = true)) /\
  (forall i, (i < length coordinates)%nat ->
     (nth i timestamps None = None \/ nth (i - 1) timestamps None = None \/
      exists ti tp, nth i timestamps None = Some ti /\
                    nth (i - 1) timestamps None = Some tp /\
                    (0 <? deltaSeconds ti tp) = false) ->
     nth i (filterDistanceJumps coordinates timestamps maxSpeedKmh) true
       = true) /\
  (forall higher i,
     (maxSpeedKmh <=? higher) = true ->
     nth i (filterDistanceJumps coordinates timestamps maxSpeedKmh) true
       = true ->
     nth i (filterDistanceJumps coordinates timestamps higher) true = true)
  /\
  impliedSpeed 1 120000 0 = 30.000000000000004 /\
  Double.filterDistanceJumps oneKm [origin; origin] [Some 0; Some 120000] 30
  = [true; false].
Proof.
  assert (Hiff : forall i, (i < length coordinates)%nat ->
     (nth i (filterDistanceJumps coordinates timestamps maxSpeedKmh) true
        = false <->
      (1 <= i)%nat /\
      exists ti tp,
        nth i timestamps None = Some ti /\
        nth (i - 1) timestamps None = Some tp /\
        (0 <? deltaSeconds ti tp) = true /\
        (maxSpeedKmh <?
         impliedSpeed (haversineDistance (nth (i - 1) coordinates origin)
                                         (nth i coordinates origin)) ti tp)
        = true)).
  { intros i Hi. rewrite filterDistanceJumps_nth by exact Hi.
    destruct i as [|i].
    - split; [discriminate|]. intros [H _]. lia.
    - rewrite distanceJumpStep_false. split.
      + intro H. split; [lia|exact H].
      + intros [_ H]. exact H. }
  split; [apply filterDistanceJumps_length|].
  split; [|split; [exact Hiff|split; [|split; [|split]]]].
  - unfold Double.filterDistanceJumps.
    destruct (length coordinates <? 2)%nat; [|reflexivity].
    destruct coordinates; reflexivity.
  - intros i Hi Hcase.
    destruct (nth i (filterDistanceJumps coordinates timestamps maxSpeedKmh)
                  true) eqn:Hflag; [reflexivity|].
    exfalso. apply (Hiff i Hi) in Hflag.
    destruct Hflag as (_ & ti & tp & Hti & Htp & Hdt & _).
    destruct Hcase as [H|[H|(ti' & tp' & H1 & H2 & H3)]]; congruence.
  - intros higher i Hle Hflag.
    destruct (Nat.lt_ge_cases i (length coordinates)) as [Hi|Hi].
    + rewrite filterDistanceJumps_nth in Hflag |- * by exact Hi.
      destruct i as [|i]; [reflexivity|].
      destruct (Double.distanceJumpStep haversineDistance coordinates
                  timestamps higher (S i)) eqn:Hh; [reflexivity|].
      apply distanceJumpStep_false in Hh.
      destruct Hh as (ti & tp & H1 & H2 & H3 & H4).
      assert (Hl : distanceJumpStep coordinates timestamps maxSpeedKmh (S i)
                   = false).
      { apply distanceJumpStep_false. exists ti, tp.
        split; [exact H1|]. split; [exact H2|]. split; [exact H3|].
        clear - Hle H4. float_order. }
      congruence.
    + apply nth_overflow.
      rewrite filterDistanceJumps_length. lia.
  - reflexivity.
  - reflexivity.
Qed.

End DistanceJumps.

(** ** calculateDistance and the distance of a split *)

Section TotalDistance.
Import Utils Spec.

Variable haversineDistance : Coordinate -> Coordinate -> Q.

Local Abbreviation calculateDistance :=
  (Utils.calculateDistance haversineDistance).
Local Abbreviation cumulativeDistances :=
  (Utils.cumulativeDistances haversineDistance).
Local Abbreviation segmentDistance :=
  (Spec.segmentDistance haversineDistance).
Local Abbreviation calculateSplitPace :=
  (Utils.calculateSplitPace haversineDistance).

Lemma fold_left_ext_in {A B : Type} (f g : A -> B -> A) (l : list B) :
  (forall a x, In x l -> f a x = g a x) ->
  forall a, fold_left f l a = fold_left g l a.
Proof.
  induction l as [|x l IH]; intros H a; [reflexivity|].
  cbn [fold_left]. rewrite (H a x) by (left; reflexivity).
  apply IH. intros a' y Hy. apply H. right. exact Hy.
Qed.

(** The cumulative distance array entry by entry. *)
Lemma cumulativeDistances_entries (coordinates : list Coordinate) :
  length (cumulativeDistances coordinates)
    = (1 + (length coordinates - 1))%nat /\
  nth 0 (cumulativeDistances coordinates) 0 = 0 /\
  forall i, (S i < length coordinates)%nat ->
    nth (S i) (cumulativeDistances coordinates) 0 =
    nth i (cumulativeDistances coordinates) 0 +
    haversineDistance (nth i coordinates origin)
                      (nth (S i) coordinates origin).
Proof.
  unfold Utils.cumulativeDistances.
  pose (P := fun (k : nat) (ds : list Q) =>
    length ds = k /\ nth 0 ds 0 = 0 /\
    forall i, (S i < k)%nat ->
      nth (S i) ds 0 =
      nth i ds 0 + haversineDistance (nth i coordinates origin)
                                     (nth (S i) coordinates origin)).
  assert (Hinv : P (1 + (length coordinates - 1))%nat
    (fold_left
       (fun distances i =>
          distances ++
          [nth (i - 1) distances 0 +
           haversineDistance (nth (i - 1) coordinates origin)
                             (nth i coordinates origin)])
       (seq 1 (length coordinates - 1)) [0])).
  { apply (for_loop_invariant P).
    - unfold P. split; [reflexivity|]. split; [reflexivity|].
      intros i Hi. lia.
    - intros i ds Hi (Hl & H0 & Hs). unfold P. split; [|split].
      + rewrite length_app. cbn [length]. lia.
      + rewrite app_nth1 by lia. exact H0.
      + intros j Hj. destruct (Nat.eq_dec (S j) i) as [E|E].
        * rewrite <- E. rewrite (app_nth1 _ _ _ (n := j)) by lia.
          rewrite app_nth2 by lia.
          replace (S j - length ds)%nat with 0%nat by lia.
          cbn [nth]. replace (S j - 1)%nat with j by lia. reflexivity.
        * rewrite !app_nth1 by lia. apply Hs. lia. }
  destruct Hinv as (Hl & H0 & Hs).
  split; [exact Hl|]. split; [exact H0|].
  intros i Hi. apply Hs. lia.
Qed.

Lemma calculateDistance_last (coordinates : list Coordinate) :
  calculateDistance coordinates =
  nth (length coordinates - 1) (cumulativeDistances coordinates) 0.
Proof.
  destruct (cumulativeDistances_entries coordinates) as (Hl & H0 & Hs).
  unfold Utils.calculateDistance.
  pose (P := fun (k : nat) (total : Q) =>
                total = nth (k - 1) (cumulativeDistances coordinates) 0).
  assert (Hinv : P (1 + (length coordinates - 1))%nat
    (fold_left
       (fun totalDistance i =>
          totalDistance + haversineDistance (nth (i - 1) coordinates origin)
                                            (nth i coordinates origin))
       (seq 1 (length coordinates - 1)) 0)).
  { apply (for_loop_invariant P).
    - unfold P. cbn [Nat.sub]. symmetry. exact H0.
    - intros i total Hi Ht. unfold P in *. rewrite Ht.
      replace (S i - 1)%nat with (S (i - 1)) by lia.
      rewrite Hs by lia.
      replace (S (i - 1)) with i by lia. reflexivity. }
  unfold P in Hinv. rewrite Hinv. f_equal. lia.
Qed.

(** The point-to-point distance from [startIdx] to [endIdx] is the
    difference of the cumulative distances at the two indices. *)
Lemma segmentDistance_difference (route : Route) (startIdx endIdx : nat) :
  (startIdx <= endIdx < length (coordinates route))%nat ->
  segmentDistance route startIdx endIdx ==
  nth endIdx (cumulativeDistances (coordinates route)) 0 -
  nth startIdx (cumulativeDistances (coordinates route)) 0.
Proof.
  intros [Hse He].
  destruct (cumulativeDistances_entries (coordinates route))
    as (Hl & H0 & Hs).
  unfold Spec.segmentDistance.
  pose (P := fun (k : nat) (acc : Q) =>
     acc == nth (k - 1) (cumulativeDistances (coordinates route)) 0 -
            nth startIdx (cumulativeDistances (coordinates route)) 0).
  assert (Hinv : P (startIdx + 1 + (endIdx - startIdx))%nat
    (fold_left
       (fun acc i =>
          acc + haversineDistance (nth (i - 1) (coordinates route) origin)
                                  (nth i (coordinates route) origin))
       (seq (startIdx + 1) (endIdx - startIdx)) 0)).
  { apply (for_loop_invariant P).
    - unfold P. replace (startIdx + 1 - 1)%nat with startIdx by lia. lra.
    - intros i acc Hi Hacc. unfold P in *.
      replace (S i - 1)%nat with (S (i - 1)) by lia.
      rewrite Hs by lia.
      replace (S (i - 1)) with i by lia. rewrite Hacc. lra. }
  unfold P in Hinv.
  replace (startIdx + 1 + (endIdx - startIdx) - 1)%nat with endIdx in Hinv
    by lia.
  exact Hinv.
Qed.

(** X11. [calculateDistance] is the last entry of the cumulative distance
    array that the charts and the splits are built on.  It is 0 for a
    route of at most one point, appending a point adds the distance from
    the last point to it, and with a distance that is never negative no
    cumulative distance exceeds it. *)
Theorem calculateDistance_spec (coordinates : list Coordinate) :
  calculateDistance coordinates =
    nth (length coordinates - 1) (cumulativeDistances coordinates) 0 /\
  ((length coordinates <= 1)%nat -> calculateDistance coordinates = 0) /\
  (forall p, (1 <= length coordinates)%nat ->
     calculateDistance (coordinates ++ [p]) =
     calculateDistance coordinates +
     haversineDistance (nth (length coordinates - 1) coordinates origin) p) /\
  ((forall a b, 0 <= haversineDistance a b) ->
   forall i, nth i (cumulativeDistances coordinates) 0
             <= calculateDistance coordinates).
Proof.
  split; [apply calculateDistance_last|]. split; [|split].
  - intro Hlen. unfold Utils.calculateDistance.
    replace (length coordinates - 1)%nat with 0%nat by lia. reflexivity.
  - intros p Hlen. unfold Utils.calculateDistance.
    rewrite length_app. cbn [length].
    replace (length coordinates + 1 - 1)%nat
      with (S (length coordinates - 1)) by lia.
    rewrite seq_S, fold_left_app. cbn [fold_left].
    replace (1 + (length coordinates - 1))%nat with (length coordinates)
      by lia.
    rewrite app_nth1 by lia.
    rewrite app_nth2 by lia. rewrite Nat.sub_diag. cbn [nth].
    f_equal. apply fold_left_ext_in.
    intros a i Hi. apply in_seq in Hi.
    rewrite !app_nth1 by lia. reflexivity.
  - intros Hnonneg i.
    rewrite calculateDistance_last.
    destruct (Nat.le_gt_cases 1 (length coordinates)) as [Hlen|Hlen].
    + destruct (cumulativeDistances_ascending haversineDistance coordinates
                  Hnonneg Hlen) as (Hl & H0 & Hasc).
      destruct (Nat.lt_ge_cases i (length coordinates)) as [Hi|Hi].
      * apply Hasc. lia.
      * rewrite (nth_overflow _ _ (n := i)) by lia.
        rewrite <- H0 at 1. apply Hasc. lia.
    + destruct (cumulativeDistances_entries coordinates) as (Hl & H0 & _).
      replace (length coordinates - 1)%nat with 0%nat by lia.
      destruct i as [|i]; [apply Qle_refl|].
      rewrite nth_overflow by lia. rewrite H0. apply Qle_refl.
Qed.


End TotalDistance.

Section TotalDistanceExample.
Import Utils Spec.


End TotalDistanceExample.

(** ** The helpers of calculateSplits *)

Section SplitHelpers.
Import Utils Spec.

(** For a positive target the index returned is the last one whose
    distance is at most the target. *)
Lemma findIndexAtDistance_char (distances : list Q) (targetKm : Q) :
  (1 <= length distances)%nat ->
  nth 0 distances 0 == 0 ->
  ascending distances ->
  0 < targetKm ->
  (findIndexAtDistance distances targetKm < length distances)%nat /\
  forall j, (j < length distances)%nat ->
    (nth j distances 0 <= targetKm <->
     (j <= findIndexAtDistance distances targetKm)%nat).
Proof.
  intros Hlen H0 Hasc Ht.
  destruct (findIndexAtDistance_spec distances targetKm Hlen H0)
    as (_ & Hbig & Hmid).
  destruct (Qlt_le_dec targetKm (nth (length distances - 1) distances 0))
    as [Hlt|Hge].
  - destruct (Hmid Ht Hlt) as (Hidx & Hlo & Hhi).
    split; [lia|]. intros j Hj. split.
    + intro Hle.
      destruct (Nat.le_gt_cases j (findIndexAtDistance distances targetKm))
        as [H|H]; [exact H|].
      exfalso.
      assert (nth (S (findIndexAtDistance distances targetKm)) distances 0
              <= nth j distances 0) by (apply Hasc; lia).
      lra.
    + intro Hle.
      assert (nth j distances 0
              <= nth (findIndexAtDistance distances targetKm) distances 0)
        by (apply Hasc; lia).
      lra.
  - rewrite (Hbig Ht Hge). split; [lia|]. intros j Hj. split.
    + intros _. lia.
    + intros _.
      assert (nth j distances 0
              <= nth (length distances - 1) distances 0)
        by (apply Hasc; lia).
      lra.
Qed.

Lemma findIndexAtDistance_zero (distances : list Q) (targetKm : Q) :
  (1 <= length distances)%nat ->
  nth 0 distances 0 == 0 ->
  targetKm <= 0 -> findIndexAtDistance distances targetKm = 0%nat.
Proof.
  intros Hlen H0 Ht.
  destruct (findIndexAtDistance_spec distances targetKm Hlen H0) as (Hz & _).
  apply Hz. exact Ht.
Qed.

Lemma findIndexAtDistance_mono (distances : list Q) (targetKm larger : Q) :
  (1 <= length distances)%nat ->
  nth 0 distances 0 == 0 ->
  ascending distances ->
  targetKm <= larger ->
  (findIndexAtDistance distances targetKm
     <= findIndexAtDistance distances larger)%nat.
Proof.
  intros Hlen H0 Hasc Hle.
  destruct (Qlt_le_dec 0 targetKm) as [Hpos|Hneg].
  - assert (Hpos' : 0 < larger) by lra.
    destruct (findIndexAtDistance_char distances targetKm Hlen H0 Hasc Hpos)
      as [Hi Hc].
    destruct (findIndexAtDistance_char distances larger Hlen H0 Hasc Hpos')
      as [_ Hc'].
    apply Hc'; [exact Hi|].
    assert (nth (findIndexAtDistance distances targetKm) distances 0
            <= targetKm) by (apply Hc; [exact Hi|lia]).
    lra.
  - rewrite (findIndexAtDistance_zero distances targetKm) by assumption.
    lia.
Qed.

(** X13. On a non-decreasing distance array that starts at 0,
    [findIndexAtDistance] returns a valid index; for a positive target it
    is the last index whose distance is at most the target; and a larger
    target never gives a smaller index. *)
Theorem findIndexAtDistance_last_index (distances : list Q) (targetKm : Q) :
  (1 <= length distances)%nat ->
  nth 0 distances 0 == 0 ->
  ascending distances ->
  (findIndexAtDistance distances targetKm < length distances)%nat /\
  (0 < targetKm ->
   forall j, (j < length distances)%nat ->
     (nth j distances 0 <= targetKm <->
      (j <= findIndexAtDistance distances targetKm)%nat)) /\
  (forall larger, targetKm <= larger ->
     (findIndexAtDistance distances targetKm
        <= findIndexAtDistance distances larger)%nat).
Proof.
  intros Hlen H0 Hasc.
  split; [|split].
  - destruct (Qlt_le_dec 0 targetKm) as [Hpos|Hneg].
    + apply findIndexAtDistance_char; assumption.
    + rewrite findIndexAtDistance_zero by assumption. lia.
  - intro Hpos. apply findIndexAtDistance_char; assumption.
  - intros larger Hle. apply findIndexAtDistance_mono; assumption.
Qed.

(** The distances of the specification's example, looked up at 1.5 km. *)
Lemma findIndexAtDistance_last_index_witness :
  (1 <= length (distances exampleMap))%nat /\
  nth 0 (distances exampleMap) 0 == 0 /\
  ascending (distances exampleMap) /\
  findIndexAtDistance (distances exampleMap) 1.5 = 1%nat /\
  (findIndexAtDistance (distances exampleMap) 1.5
     < length (distances exampleMap))%nat /\
  (0 < 1.5 ->
   forall j, (j < length (distances exampleMap))%nat ->
     (nth j (distances exampleMap) 0 <= 1.5 <->
      (j <= findIndexAtDistance (distances exampleMap) 1.5)%nat)) /\
  (forall larger, 1.5 <= larger ->
     (findIndexAtDistance (distances exampleMap) 1.5
        <= findIndexAtDistance (distances exampleMap) larger)%nat).
Proof.
  assert (Hasc : ascending (distances exampleMap)).
  { intros i j [Hij Hj]. cbn [length distances exampleMap] in Hj.
    destruct i as [|[|[|i]]]; destruct j as [|[|[|j]]]; try lia;
      cbn [nth distances exampleMap]; unfold Qle; cbn; lia. }
  assert (Hlen : (1 <= length (distances exampleMap))%nat) by (cbn; lia).
  assert (H0 : nth 0 (distances exampleMap) 0 == 0) by reflexivity.
  split; [exact Hlen|]. split; [exact H0|]. split; [exact Hasc|].
  split; [reflexivity|].
  exact (findIndexAtDistance_last_index (distances exampleMap) 1.5
           Hlen H0 Hasc).
Defined.

(** One step of the gain loop adds a non-negative amount. *)
Lemma elevGain_fold (elevations : list (option Q)) (l : list nat) :
  forall acc,
  let step := fun (gain : Q) (i : nat) =>
    match nth (i - 1) elevations None, nth i elevations None with
    | Some prev, Some curr =>
        let diff := curr - prev in
        if Qltb 0 diff then gain + diff else gain
    | _, _ => gain
    end in
  fold_left step l acc == acc + fold_left step l 0 /\
  0 <= fold_left step l 0.
Proof.
  cbv zeta. induction l as [|i l IH]; intro acc.
  - cbn [fold_left]. split; lra.
  - cbn [fold_left].
    destruct (nth (i - 1) elevations None) as [prev|];
      [destruct (nth i elevations None) as [curr|]|].
    + case_Qltb 0 (curr - prev).
      * destruct (IH (acc + (curr - prev))) as [H1 H2].
        destruct (IH (0 + (curr - prev))) as [H3 _].
        split; lra.
      * destruct (IH acc) as [H1 H2]. split; lra.
    + destruct (IH acc) as [H1 H2]. split; lra.
    + destruct (IH acc) as [H1 H2]. split; lra.
Qed.

Lemma calculateSplitElevGain_nonneg (elevations : list (option Q))
    (startIdx endIdx : nat) :
  0 <= calculateSplitElevGain elevations startIdx endIdx.
Proof.
  unfold calculateSplitElevGain.
  destruct (endIdx <=? startIdx)%nat; [apply Qle_refl|].
  apply (elevGain_fold elevations _ 0).
Qed.

Lemma calculateSplitElevGain_empty (elevations : list (option Q))
    (startIdx endIdx : nat) :
  (endIdx <= startIdx)%nat ->
  calculateSplitElevGain elevations startIdx endIdx = 0.
Proof.
  intro H. unfold calculateSplitElevGain.
  apply Nat.leb_le in H. rewrite H. reflexivity.
Qed.

Lemma calculateSplitElevGain_additive (elevations : list (option Q))
    (startIdx midIdx endIdx : nat) :
  (startIdx <= midIdx <= endIdx)%nat ->
  calculateSplitElevGain elevations startIdx endIdx ==
  calculateSplitElevGain elevations startIdx midIdx +
  calculateSplitElevGain elevations midIdx endIdx.
Proof.
  intros [Hsm Hme].
  destruct (Nat.eq_dec midIdx startIdx) as [->|Hs].
  { rewrite (calculateSplitElevGain_empty _ startIdx startIdx) by lia. lra. }
  destruct (Nat.eq_dec midIdx endIdx) as [->|He].
  { rewrite (calculateSplitElevGain_empty _ endIdx endIdx) by lia. lra. }
  unfold calculateSplitElevGain.
  assert (E1 : (endIdx <=? startIdx)%nat = false)
    by (apply Nat.leb_gt; lia).
  assert (E2 : (midIdx <=? startIdx)%nat = false)
    by (apply Nat.leb_gt; lia).
  assert (E3 : (endIdx <=? midIdx)%nat = false) by (apply Nat.leb_gt; lia).
  rewrite E1, E2, E3.
  replace (endIdx - startIdx)%nat
    with ((midIdx - startIdx) + (endIdx - midIdx))%nat by lia.
  rewrite seq_app, fold_left_app.
  replace (startIdx + 1 + (midIdx - startIdx))%nat with (midIdx + 1)%nat
    by lia.
  apply (elevGain_fold elevations (seq (midIdx + 1) (endIdx - midIdx))).
Qed.


Lemma in_slice_iff {A : Type} (l : list A) (a b : nat) (x d : A) :
  In x (slice l a b) <->
  exists j, (a <= j < b)%nat /\ (j < length l)%nat /\ nth j l d = x.
Proof.
  split.
  - intro Hx. apply (In_nth _ _ d) in Hx. destruct Hx as (k & Hk & Hnth).
    rewrite slice_length in Hk. rewrite slice_nth in Hnth.
    assert (E : (k <? b - a)%nat = true) by (apply Nat.ltb_lt; lia).
    rewrite E in Hnth. exists (a + k)%nat. repeat split; auto; lia.
  - intros (j & Hj & Hl & <-). apply nth_in_slice; assumption.
Qed.

(** X15. [calculateSplitAvg] returns null on an empty or reversed range
    and otherwise exactly when no entry from [startIdx] to [endIdx]
    (both included) is a number; an average it returns is not negative
    when none of the numbers of that range is, and not positive when none
    of them is. *)
Theorem calculateSplitAvg_spec (arr : list (option Q))
    (startIdx endIdx : nat) :
  ((endIdx <= startIdx)%nat ->
   calculateSplitAvg arr startIdx endIdx = None) /\
  ((startIdx < endIdx)%nat ->
   (calculateSplitAvg arr startIdx endIdx = None <->
    forall j, (startIdx <= j <= endIdx)%nat -> nth j arr None = None)) /\
  (forall avg,
     calculateSplitAvg arr startIdx endIdx = Some avg ->
     ((forall j x, (startIdx <= j <= endIdx)%nat ->
                   nth j arr None = Some x -> 0 <= x) -> 0 <= avg) /\
     ((forall j x, (startIdx <= j <= endIdx)%nat ->
                   nth j arr None = Some x -> x <= 0) -> avg <= 0)).
Proof.
  destruct (values_bounded arr) as (lo0 & hi0 & Hall).
  assert (Hall' : forall j x, nth j arr None = Some x -> lo0 <= x <= hi0).
  { intros j x Hx. apply Hall. rewrite <- Hx.
    destruct (Nat.lt_ge_cases j (length arr)) as [H|H];
      [apply nth_In; exact H|].
    rewrite nth_overflow in Hx by exact H. discriminate. }
  cut (((endIdx <= startIdx)%nat ->
        calculateSplitAvg arr startIdx endIdx = None) /\
       ((startIdx < endIdx)%nat ->
        (calculateSplitAvg arr startIdx endIdx = None <->
         forall j, (startIdx <= j <= endIdx)%nat -> nth j arr None = None)) /\
       (forall avg lo hi,
          calculateSplitAvg arr startIdx endIdx = Some avg ->
          (forall j x, (startIdx <= j <= endIdx)%nat ->
                       nth j arr None = Some x -> lo <= x <= hi) ->
          lo <= avg <= hi)).
  { intros (H1 & H2 & H3). split; [exact H1|]. split; [exact H2|].
    intros avg Havg. split; intro Hsign.
    - apply (H3 avg 0 (if Qltb hi0 0 then 0 else hi0) Havg).
      intros j x Hj Hx. specialize (Hsign j x Hj Hx).
      specialize (Hall' j x Hx). case_Qltb hi0 0; lra.
    - apply (H3 avg (if Qltb 0 lo0 then 0 else lo0) 0 Havg).
      intros j x Hj Hx. specialize (Hsign j x Hj Hx).
      specialize (Hall' j x Hx). case_Qltb 0 lo0; lra. }
  clear lo0 hi0 Hall Hall'.
  unfold calculateSplitAvg.
  change (firstn (endIdx + 1 - startIdx) (skipn startIdx arr))
    with (slice arr startIdx (endIdx + 1)).
  change (flat_map (fun v : option Q =>
                      match v with Some x => [x] | None => [] end)
                   (slice arr startIdx (endIdx + 1)))
    with (validValues (slice arr startIdx (endIdx + 1))).
  assert (Hin : forall x,
            In x (validValues (slice arr startIdx (endIdx + 1))) <->
            exists j, (startIdx <= j <= endIdx)%nat /\
                      nth j arr None = Some x).
  { intro x. rewrite in_validValues, (in_slice_iff _ _ _ _ None). split.
    - intros (j & Hj & _ & Hx). exists j. split; [lia|exact Hx].
    - intros (j & Hj & Hx). exists j. split; [lia|]. split; [|exact Hx].
      destruct (Nat.lt_ge_cases j (length arr)) as [H|H]; [exact H|].
      rewrite nth_overflow in Hx by exact H. discriminate. }
  split; [|split].
  - intro H. apply Nat.leb_le in H. rewrite H. reflexivity.
  - intro H.
    assert (E : (endIdx <=? startIdx)%nat = false)
      by (apply Nat.leb_gt; exact H).
    rewrite E. cbv zeta.
    destruct (validValues (slice arr startIdx (endIdx + 1)))
      as [|x valid] eqn:Hv.
    + split; [|reflexivity]. intros _ j Hj.
      destruct (nth j arr None) as [y|] eqn:Hy; [|reflexivity].
      exfalso. apply (proj2 (Hin y)). exists j. split; assumption.
    + split; [discriminate|]. intro Hall. exfalso.
      destruct (proj1 (Hin x) (or_introl eq_refl)) as (j & Hj & Hx).
      rewrite (Hall j Hj) in Hx. discriminate.
  - intros avg lo hi Havg Hb.
    destruct (endIdx <=? startIdx)%nat; [discriminate|]. cbv zeta in Havg.
    destruct (validValues (slice arr startIdx (endIdx + 1)))
      as [|x valid] eqn:Hv; [discriminate|].
    assert (Havg' : fold_left Qplus (x :: valid) 0
                    / inject_Z (Z.of_nat (length (x :: valid))) = avg)
      by (injection Havg as H; exact H).
    rewrite <- Havg'. clear Havg Havg'.
    assert (Hb' : forall v, In v (x :: valid) -> lo <= v <= hi).
    { intros v Hv'. apply Hin in Hv'. destruct Hv' as (j & Hj & Hx).
      apply (Hb j v Hj Hx). }
    destruct (sum_bounds (x :: valid) lo hi Hb' 0) as [H1 H2].
    assert (Hc : 0 < inject_Z (Z.of_nat (length (x :: valid)))).
    { change 0 with (inject_Z 0). rewrite <- Zlt_Qlt. cbn [length]. lia. }
    split.
    + apply Qle_shift_div_l; [exact Hc|]. lra.
    + apply Qle_shift_div_r; [exact Hc|]. lra.
Qed.

End SplitHelpers.

(** ** FileParser: the speeds and paces of a track *)

Section TrackSpeeds.
Import Utils Spec.

Variable haversineDistance : Coordinate -> Coordinate -> Q.

Local Abbreviation speedStep := (FileParser.speedStep haversineDistance).
Local Abbreviation calculateSpeeds :=
  (FileParser.calculateSpeeds haversineDistance).
Local Abbreviation cleanAndSmooth :=
  (FileParser.cleanAndSmooth haversineDistance).

Lemma Qdiv_pos_iff (x c : Q) : 0 < c -> (0 < x / c <-> 0 < x).
Proof.
  intro Hc. split; intro H.
  - destruct (Qlt_le_dec 0 x) as [Hp|Hn]; [exact Hp|].
    exfalso. apply (Qlt_not_le _ _ H). apply Qle_shift_div_r; lra.
  - apply Qlt_shift_div_l; lra.
Qed.

Lemma inject_Z_pos (z : Z) : 0 < inject_Z z <-> (0 < z)%Z.
Proof. change 0 with (inject_Z 0). rewrite <- Zlt_Qlt. reflexivity. Qed.

(** The loop body appends one entry to each array, whatever they hold. *)
Lemma speedStep_append (coordinates : list Coordinate)
    (timestamps : list (option Z)) (st : list (option Q) * list (option Q))
    (i : nat) :
  speedStep coordinates timestamps st i =
  (fst st ++ fst (speedStep coordinates timestamps ([], []) i),
   snd st ++ snd (speedStep coordinates timestamps ([], []) i)).
Proof.
  unfold FileParser.speedStep. cbv zeta.
  destruct i as [|i]; [reflexivity|].
  destruct (nth (S i) timestamps None); [|reflexivity].
  destruct (nth (S i - 1) timestamps None); [|reflexivity].
  destruct (_ && _); reflexivity.
Qed.

(** What the loop body appends at index [i]: a speed and the pace that
    goes with it, or two nulls. *)
Lemma speedStep_cases (coordinates : list Coordinate)
    (timestamps : list (option Z)) (i : nat) :
  (speedStep coordinates timestamps ([], []) i = ([None], [None]) /\
   (i = 0%nat \/
    nth i timestamps None = None \/ nth (i - 1) timestamps None = None \/
    exists t prev,
      nth i timestamps None = Some t /\
      nth (i - 1) timestamps None = Some prev /\
      ((t <= prev)%Z \/
       haversineDistance (nth (i - 1) coordinates origin)
                         (nth i coordinates origin) <= 0))) \/
  (exists t prev v,
     (1 <= i)%nat /\
     nth i timestamps None = Some t /\
     nth (i - 1) timestamps None = Some prev /\
     (prev < t)%Z /\
     0 < haversineDistance (nth (i - 1) coordinates origin)
                           (nth i coordinates origin) /\
     v = haversineDistance (nth (i - 1) coordinates origin)
                           (nth i coordinates origin)
         / (inject_Z (t - prev) / 1000 / 3600) /\
     speedStep coordinates timestamps ([], []) i
       = ([Some v], [Some (60 / v)])).
Proof.
  unfold FileParser.speedStep. cbv zeta.
  destruct i as [|i]; [left; split; [reflexivity|left; reflexivity]|].
  destruct (nth (S i) timestamps None) as [t|] eqn:Ht;
    [|left; split; [reflexivity|right; left; reflexivity]].
  destruct (nth (S i - 1) timestamps None) as [prev|] eqn:Hp;
    [|left; split; [reflexivity|right; right; left; reflexivity]].
  assert (Htime : 0 < inject_Z (t - prev) / 1000 / 3600 <-> (prev < t)%Z).
  { rewrite !Qdiv_pos_iff by lra. rewrite inject_Z_pos. lia. }
  case_Qltb 0 (inject_Z (t - prev) / 1000 / 3600).
  - case_Qltb 0 (haversineDistance (nth (S i - 1) coordinates origin)
                                   (nth (S i) coordinates origin)).
    + right. exists t, prev. eexists.
      split; [lia|]. split; [reflexivity|]. split; [reflexivity|].
      split; [apply Htime; exact E|]. split; [exact E0|].
      split; reflexivity.
    + left. split; [reflexivity|]. right. right. right.
      exists t, prev. split; [reflexivity|]. split; [reflexivity|].
      right. exact E0.
  - left. split; [reflexivity|]. right. right. right.
    exists t, prev. split; [reflexivity|]. split; [reflexivity|].
    left. destruct (Z.le_gt_cases t prev) as [H|H]; [exact H|].
    exfalso. apply Htime in H. lra.
Qed.

Lemma calculateSpeeds_entries (coordinates : list Coordinate)
    (timestamps : list (option Z)) :
  length (fst (calculateSpeeds coordinates timestamps))
    = length coordinates /\
  length (snd (calculateSpeeds coordinates timestamps))
    = length coordinates /\
  forall i, (i < length coordinates)%nat ->
    [nth i (fst (calculateSpeeds coordinates timestamps)) None]
      = fst (speedStep coordinates timestamps ([], []) i) /\
    [nth i (snd (calculateSpeeds coordinates timestamps)) None]
      = snd (speedStep coordinates timestamps ([], []) i).
Proof.
  unfold FileParser.calculateSpeeds.
  pose (P := fun (k : nat) (st : list (option Q) * list (option Q)) =>
    length (fst st) = k /\ length (snd st) = k /\
    forall i, (i < k)%nat ->
      [nth i (fst st) None]
        = fst (speedStep coordinates timestamps ([], []) i) /\
      [nth i (snd st) None]
        = snd (speedStep coordinates timestamps ([], []) i)).
  assert (Hinv : P (0 + length coordinates)%nat
                   (fold_left (speedStep coordinates timestamps)
                              (seq 0 (length coordinates)) ([], []))).
  { apply (for_loop_invariant P).
    - unfold P. cbn [fst snd length]. repeat split; intros; lia.
    - intros i st _ (Hl1 & Hl2 & Hn). unfold P.
      rewrite speedStep_append. cbn [fst snd].
      assert (Hone :
        exists a b, speedStep coordinates timestamps ([], []) i
                    = ([a], [b])).
      { destruct (speedStep_cases coordinates timestamps i)
          as [[H _]|(t & prev & v & _ & _ & _ & _ & _ & _ & H)];
          rewrite H; eauto. }
      destruct Hone as (a & b & Hab). rewrite Hab. cbn [fst snd].
      rewrite !length_app. cbn [length].
      split; [lia|]. split; [lia|].
      intros j Hj. destruct (Nat.eq_dec j i) as [->|Hne].
      + rewrite !app_nth2 by lia. rewrite Hl1, Hl2, Nat.sub_diag.
        rewrite Hab. split; reflexivity.
      + rewrite !app_nth1 by lia. apply Hn. lia. }
  exact Hinv.
Qed.


End TrackSpeeds.

(** ** FileParser: cleaning and smoothing of the speeds *)

Section TrackCleaning.
Import Utils Spec.

Variable haversineDistance : Coordinate -> Coordinate -> Q.

Local Abbreviation cleanGPSData := (Utils.cleanGPSData haversineDistance).
Local Abbreviation cleanAndSmooth :=
  (FileParser.cleanAndSmooth haversineDistance).

(** The cleaning loop keeps the length of the speeds, and that of the
    paces when there are as many of them. *)
Lemma cleanGPSData_lengths (rawSpeeds rawPaces : list (option Q))
    (coordinates : list Coordinate) (timestamps : list (option Z))
    (maxSpeed : Q) :
  length (speeds (cleanGPSData rawSpeeds rawPaces coordinates timestamps
                               maxSpeed)) = length rawSpeeds /\
  (length rawPaces = length rawSpeeds ->
   length (paces (cleanGPSData rawSpeeds rawPaces coordinates timestamps
                               maxSpeed)) = length rawSpeeds).
Proof.
  unfold Utils.cleanGPSData. cbv zeta.
  set (step := cleanStep rawSpeeds _ _ maxSpeed).
  pose (P := fun (k : nat) (st : Cleaned) =>
    length (speeds st) = length rawSpeeds /\
    (length rawPaces = length rawSpeeds ->
     length (paces st) = length rawSpeeds)).
  assert (Hinv : P (0 + length rawSpeeds)%nat
                   (fold_left step (seq 0 (length rawSpeeds))
                      {| speeds := rawSpeeds; paces := rawPaces;
                         validIndices := [] |})).
  { apply (for_loop_invariant P).
    - unfold P. cbn [speeds paces]. auto.
    - intros i st Hi (Hs & Hp). unfold P, step, cleanStep, invalidate.
      destruct (_ || _); [|destruct (_ || _)]; cbn [speeds paces].
      + split; [rewrite length_js_set; lia|].
        intro H. rewrite length_js_set; rewrite (Hp H); lia.
      + split; [rewrite length_js_set; lia|].
        intro H. rewrite length_js_set; rewrite (Hp H); lia.
      + auto. }
  exact Hinv.
Qed.

(** What [cleanGPSData] leaves at an index: null, or the raw speed, which
    then lies within [[0, maxSpeed]]; and the pace is nulled with it. *)
Lemma cleanGPSData_entries (rawSpeeds rawPaces : list (option Q))
    (coordinates : list Coordinate) (timestamps : list (option Z))
    (maxSpeed : Q) (i : nat) :
  (nth i (speeds (cleanGPSData rawSpeeds rawPaces coordinates timestamps
                               maxSpeed)) None = None /\
   nth i (paces (cleanGPSData rawSpeeds rawPaces coordinates timestamps
                              maxSpeed)) None = None) \/
  (nth i (speeds (cleanGPSData rawSpeeds rawPaces coordinates timestamps
                               maxSpeed)) None = nth i rawSpeeds None /\
   nth i (paces (cleanGPSData rawSpeeds rawPaces coordinates timestamps
                              maxSpeed)) None = nth i rawPaces None /\
   forall v, nth i rawSpeeds None = Some v -> 0 <= v <= maxSpeed).
Proof.
  destruct (cleanGPSData_invariant haversineDistance rawSpeeds rawPaces
              coordinates timestamps maxSpeed) as (Hs & Hp & _).
  rewrite (Hs i), (Hp i).
  destruct (Nat.lt_ge_cases i (length rawSpeeds)) as [Hi|Hi].
  - assert (E : (i <? length rawSpeeds)%nat = true)
      by (apply Nat.ltb_lt; exact Hi).
    rewrite E. cbn [andb].
    destruct (rejectedb _ _ _ _ i) eqn:Hr; [left; auto|].
    right. split; [reflexivity|]. split; [reflexivity|].
    intros v Hv. unfold rejectedb in Hr.
    rewrite !orb_false_iff in Hr. destruct Hr as [_ [Hhi Hlo]].
    rewrite Hv in Hhi, Hlo. cbn [toNumber] in Hhi, Hlo.
    apply Qltb_ge in Hhi, Hlo. split; assumption.
  - assert (E : (i <? length rawSpeeds)%nat = false)
      by (apply Nat.ltb_ge; exact Hi).
    rewrite E. cbn [andb]. right.
    split; [reflexivity|]. split; [reflexivity|].
    intros v Hv. rewrite nth_overflow in Hv by exact Hi. discriminate.
Qed.

Lemma rollingMedian_between (data : list (option Q)) (windowSize : nat)
    (v : Q) :
  In (Some v) (rollingMedian data windowSize) ->
  exists a b, In (Some a) data /\ In (Some b) data /\ a <= v <= b.
Proof.
  unfold rollingMedian.
  destruct (length data <? windowSize)%nat.
  - intro Hv. exists v, v. repeat split; auto; apply Qle_refl.
  - intro Hv. apply in_map_iff in Hv. destruct Hv as (i & Hi & _).
    destruct (rollingMedianAt_cases data (windowSize / 2) i)
      as [[Hsame Hnull]|(m & a & b & Hm & Ha & Hb & Hab)].
    + rewrite Hsame, Hnull in Hi. discriminate.
    + rewrite Hm in Hi. injection Hi as <-. exists a, b. auto.
Qed.

(** A rolling median is null exactly when its whole window is. *)
Lemma rollingMedianAt_None (data : list (option Q)) (half i : nat) :
  (i < length data)%nat ->
  (rollingMedianAt data half i = None <->
   forall j, (i - half <= j < Nat.min (length data) (i + half + 1))%nat ->
             nth j data None = None).
Proof.
  intro Hi. unfold rollingMedianAt.
  set (window := validValues (slice data (i - half)
                                (Nat.min (length data) (i + half + 1)))).
  assert (Hin : forall x, In x window <->
            exists j,
              (i - half <= j < Nat.min (length data) (i + half + 1))%nat /\
              nth j data None = Some x).
  { intro x. unfold window.
    rewrite in_validValues, (in_slice_iff _ _ _ _ None). split.
    - intros (j & Hj & _ & Hx). exists j. auto.
    - intros (j & Hj & Hx). exists j. split; [exact Hj|].
      split; [lia|exact Hx]. }
  destruct window as [|w ws] eqn:Hw.
  - split.
    + intros _ j Hj. destruct (nth j data None) as [x|] eqn:Hx;
        [|reflexivity].
      exfalso. apply (proj2 (Hin x)). exists j. auto.
    + intro Hall. apply Hall. lia.
  - destruct (median_facts (w :: ws)) as (m & Hm & _); [discriminate|].
    rewrite Hm. split; [discriminate|].
    intro Hall. exfalso.
    destruct (proj1 (Hin w) (or_introl eq_refl)) as (j & Hj & Hx).
    rewrite (Hall j Hj) in Hx. discriminate.
Qed.

(** Two series that are null at the same indices have rolling medians
    that are null at the same indices. *)
Lemma rollingMedian_aligned (a b : list (option Q)) (windowSize : nat) :
  length a = length b ->
  (forall i, nth i a None = None <-> nth i b None = None) ->
  forall i, nth i (rollingMedian a windowSize) None = None <->
            nth i (rollingMedian b windowSize) None = None.
Proof.
  intros Hlen Hal i. unfold rollingMedian. rewrite Hlen.
  destruct (length b <? windowSize)%nat; [apply Hal|].
  destruct (Nat.lt_ge_cases i (length b)) as [Hi|Hi].
  - rewrite !nth_map_seq by exact Hi. cbn [Nat.add].
    rewrite !rollingMedianAt_None by lia. rewrite Hlen.
    split; intros H j Hj; apply Hal; apply H; exact Hj.
  - rewrite !nth_overflow by (rewrite length_map, length_seq; exact Hi).
    split; auto.
Qed.

Lemma rollingMedian_length (data : list (option Q)) (windowSize : nat) :
  length (rollingMedian data windowSize) = length data.
Proof.
  unfold rollingMedian.
  destruct (length data <? windowSize)%nat; [reflexivity|].
  rewrite length_map, length_seq. reflexivity.
Qed.

(** X17. The speeds a parsed route ends up with, after [cleanGPSData] at
    35 km/h and a rolling median over 5 points: one per raw speed, each
    null or a number within [[0, 35]] that lies between two raw speeds;
    and when raw speeds and paces are null together, so are the smoothed
    ones. *)
Theorem cleanAndSmooth_spec (rawSpeeds rawPaces : list (option Q))
    (coordinates : list Coordinate) (timestamps : list (option Z)) :
  let smoothed :=
    cleanAndSmooth rawSpeeds rawPaces coordinates timestamps in
  length (fst smoothed) = length rawSpeeds /\
  (forall v, In (Some v) (fst smoothed) ->
     0 <= v <= 35 /\
     exists a b, In (Some a) rawSpeeds /\ In (Some b) rawSpeeds /\
                 a <= v <= b) /\
  (length rawPaces = length rawSpeeds ->
   (forall i, nth i rawSpeeds None = None <-> nth i rawPaces None = None) ->
   length (snd smoothed) = length rawSpeeds /\
   forall i, nth i (fst smoothed) None = None <->
             nth i (snd smoothed) None = None).
Proof.
  cbv zeta. unfold FileParser.cleanAndSmooth. cbn [fst snd].
  destruct (cleanGPSData_lengths rawSpeeds rawPaces coordinates timestamps
              FileParser.MAX_SPEED_KMH) as [Hls Hlp].
  pose proof (cleanGPSData_entries rawSpeeds rawPaces coordinates timestamps
                FileParser.MAX_SPEED_KMH) as Hent.
  set (cleaned := cleanGPSData rawSpeeds rawPaces coordinates timestamps
                               FileParser.MAX_SPEED_KMH) in *.
  assert (Hclean : forall x, In (Some x) (speeds cleaned) ->
                             In (Some x) rawSpeeds /\ 0 <= x <= 35).
  { intros x Hx. apply (In_nth _ _ None) in Hx.
    destruct Hx as (j & Hj & Hx).
    destruct (Hent j) as [[Hn _]|(Hs & _ & Hb)].
    - rewrite Hn in Hx. discriminate.
    - rewrite Hs in Hx. split; [|apply (Hb x Hx)].
      rewrite <- Hx. apply nth_In. lia. }
  split; [rewrite rollingMedian_length; exact Hls|]. split.
  - intros v Hv. apply rollingMedian_between in Hv.
    destruct Hv as (a & b & Ha & Hb & Hab).
    apply Hclean in Ha, Hb. destruct Ha as [Ha Ha'], Hb as [Hb Hb'].
    split; [lra|]. exists a, b. auto.
  - intros Hlen Hal.
    split; [rewrite rollingMedian_length; apply Hlp; exact Hlen|].
    apply rollingMedian_aligned; [rewrite Hls, (Hlp Hlen); reflexivity|].
    intro i. destruct (Hent i) as [[Hs Hp]|(Hs & Hp & _)];
      rewrite Hs, Hp; [split; auto|apply Hal].
Qed.

End TrackCleaning.

(** ** FileParser: what validation guarantees *)

Section ValidatedOutput.
Import FileParser.

Variable rawData : Raw.Data.

Local Abbreviation coordAt := (Spec.coordAt rawData).
Local Abbreviation coordValid := (Spec.coordValid rawData).
Local Abbreviation kept := (Spec.kept rawData).
Local Abbreviation lastBefore := (Spec.lastBefore rawData).
Local Abbreviation elevationResult := (Spec.elevationResult rawData).
Local Abbreviation timestampResult := (Spec.timestampResult rawData).
Local Abbreviation warningsAt := (Spec.warningsAt rawData).

Lemma chronological_snoc (l : list (option Z)) (x : option Z) :
  Spec.chronological l ->
  (forall t t', x = Some t -> In (Some t') l -> (t' <= t)%Z) ->
  Spec.chronological (l ++ [x]).
Proof.
  intros Hl Hx i j a b Hij Hi Hj.
  destruct (Nat.lt_ge_cases j (length l)) as [Hjl|Hjl].
  - rewrite app_nth1 in Hi, Hj by lia. apply (Hl i j); assumption.
  - destruct (Nat.eq_dec j (length l)) as [->|Hne].
    + rewrite app_nth2, Nat.sub_diag in Hj by lia. cbn [nth] in Hj.
      destruct (Nat.lt_ge_cases i (length l)) as [Hil|Hil].
      * rewrite app_nth1 in Hi by lia.
        apply (Hx b a Hj). rewrite <- Hi. apply nth_In. exact Hil.
      * assert (i = length l) by lia. subst i.
        rewrite app_nth2, Nat.sub_diag in Hi by lia. cbn [nth] in Hi.
        rewrite Hj in Hi. injection Hi as ->. lia.
    + rewrite nth_overflow in Hj; [discriminate|].
      rewrite length_app. cbn [length]. lia.
Qed.

(** A timestamp that validation lets through is the raw one, is not
    earlier than the last accepted one, and becomes the last accepted. *)
Lemma timestampResult_Some (i : nat) (t : Z) :
  valueOrNull (timestampResult i) = Some t ->
  nth i (Raw.timestamps rawData) RawNoDate = RawDate t /\
  advance (timestampResult i) (lastBefore i) = Some t /\
  forall l, lastBefore i = Some l -> (l <= t)%Z.
Proof.
  unfold Spec.timestampResult, validateTimestamp.
  destruct (nth i (Raw.timestamps rawData) RawNoDate) as [| |t'];
    cbn [valueOrNull]; try discriminate.
  destruct (lastBefore i) as [l|].
  - destruct (t' <? l)%Z eqn:E; cbn [valueOrNull advance];
      [discriminate|].
    intros [= ->]. apply Z.ltb_ge in E.
    repeat split; auto. intros l' [= <-]. exact E.
  - cbn [valueOrNull advance]. intros [= ->].
    repeat split; auto. discriminate.
Qed.

Lemma timestampResult_None (i : nat) :
  valueOrNull (timestampResult i) = None ->
  advance (timestampResult i) (lastBefore i) = lastBefore i.
Proof.
  destruct (timestampResult i) as [[t|]|reason]; cbn [valueOrNull advance];
    [discriminate|reflexivity|reflexivity].
Qed.

(** The timestamps kept so far are chronological and none is later than
    [lastValidTimestamp]. *)
Lemma timestamps_invariant (k : nat) :
  Spec.chronological
    (map (fun i => valueOrNull (timestampResult i)) (kept k)) /\
  forall t, In (Some t)
               (map (fun i => valueOrNull (timestampResult i)) (kept k)) ->
            exists l, lastBefore k = Some l /\ (t <= l)%Z.
Proof.
  induction k as [|k [IHc IHb]].
  - cbn [Spec.kept seq filter map]. split; [|intros t []].
    intros i j a b _ Hi. destruct i; discriminate.
  - rewrite (kept_S rawData k), (lastBefore_S rawData k).
    destruct (coordValid k).
    + rewrite map_app. cbn [map].
      destruct (valueOrNull (timestampResult k)) as [t|] eqn:Hk.
      * destruct (timestampResult_Some k t Hk) as (_ & Hadv & Hle).
        rewrite Hadv. split.
        -- apply chronological_snoc; [exact IHc|].
           intros t0 t' [= <-] Hin.
           destruct (IHb t' Hin) as (l & Hl & Ht').
           specialize (Hle l Hl). lia.
        -- intros t' Hin. exists t. split; [reflexivity|].
           apply in_app_or in Hin. destruct Hin as [Hin|[[= <-]|[]]]; [|lia].
           destruct (IHb t' Hin) as (l & Hl & Ht').
           specialize (Hle l Hl). lia.
      * rewrite (timestampResult_None k Hk). split.
        -- apply chronological_snoc; [exact IHc|]. discriminate.
        -- intros t' Hin.
           apply in_app_or in Hin.
           destruct Hin as [Hin|[Habs|[]]]; [|discriminate].
           apply IHb. exact Hin.
    + rewrite app_nil_r. split; assumption.
Qed.

Lemma validateCoordinate_valid (la lo : RawNumber) :
  isValid (validateCoordinate la lo) = true <->
  exists x y, la = RawNum x /\ lo = RawNum y /\
              LAT_MIN <= x <= LAT_MAX /\ LNG_MIN <= y <= LNG_MAX.
Proof.
  unfold validateCoordinate. split.
  - destruct la as [| |x]; destruct lo as [| |y]; cbn [isValid];
      try discriminate.
    case_Qltb x LAT_MIN; cbn [orb isValid]; [discriminate|].
    case_Qltb LAT_MAX x; cbn [orb isValid]; [discriminate|].
    case_Qltb y LNG_MIN; cbn [orb isValid]; [discriminate|].
    case_Qltb LNG_MAX y; cbn [orb isValid]; [discriminate|].
    intros _. exists x, y. repeat split; auto.
  - intros (x & y & -> & -> & [H1 H2] & [H3 H4]).
    apply Qltb_ge in H1, H2, H3, H4. rewrite H1, H2, H3, H4. reflexivity.
Qed.

(** X18. What [validateParsedData] guarantees of its result: the
    timestamps that are not null are non-decreasing and come from the
    raw data; every coordinate is a pair of numbers within
    [[-90, 90]] x [[-180, 180]]; every elevation that is not null lies
    within [[-500, 9000]] metres; and a run without warnings kept every
    raw point. *)
Theorem validateParsedData_output :
  let v := validateParsedData rawData in
  Spec.chronological (timestamps v) /\
  (forall t, In (Some t) (timestamps v) ->
             In (RawDate t) (Raw.timestamps rawData)) /\
  (forall c, In c (coordinates v) ->
     exists x y, lat c = RawNum x /\ lng c = RawNum y /\
                 LAT_MIN <= x <= LAT_MAX /\ LNG_MIN <= y <= LNG_MAX) /\
  (forall e, In (Some e) (elevations v) ->
     ELEV_MIN <= e <= ELEV_MAX /\
     In (RawNum e) (Raw.elevations rawData)) /\
  (warnings v = [] ->
   skipped v = 0%nat /\
   length (coordinates v) = length (Raw.coordinates rawData)).
Proof.
  cbv zeta. unfold validateParsedData.
  set (N := length (Raw.coordinates rawData)).
  destruct (validateUpTo_spec rawData N)
    as (Hc & He & Ht & _ & _ & _ & Hs & Hw).
  set (v := fst (validateUpTo rawData N)) in *.
  assert (Hraw : forall {A : Type} (l : list A) (d x : A) (i : nat),
            nth i l d = x -> x <> d -> In x l).
  { intros A l d x i Hx Hne.
    destruct (Nat.lt_ge_cases i (length l)) as [H|H].
    - rewrite <- Hx. apply nth_In. exact H.
    - rewrite nth_overflow in Hx by exact H. congruence. }
  split; [|split; [|split; [|split]]].
  - rewrite Ht. apply timestamps_invariant.
  - intros t Hin. rewrite Ht in Hin. apply in_map_iff in Hin.
    destruct Hin as (i & Hi & _).
    destruct (timestampResult_Some i t Hi) as (Hr & _).
    apply (Hraw _ _ RawNoDate _ i Hr). discriminate.
  - intros c Hin. rewrite Hc in Hin. apply in_map_iff in Hin.
    destruct Hin as (i & <- & Hi). unfold Spec.kept in Hi.
    apply filter_In in Hi. destruct Hi as [_ Hi].
    apply validateCoordinate_valid. exact Hi.
  - intros e Hin. rewrite He in Hin. apply in_map_iff in Hin.
    destruct Hin as (i & Hi & _). unfold Spec.elevationResult in Hi.
    unfold validateElevation in Hi.
    destruct (nth i (Raw.elevations rawData) RawAbsent) as [| |x] eqn:Hx;
      cbn [valueOrNull] in Hi; try discriminate.
    case_Qltb x ELEV_MIN; cbn [orb valueOrNull] in Hi; [discriminate|].
    case_Qltb ELEV_MAX x; cbn [orb valueOrNull] in Hi; [discriminate|].
    injection Hi as <-. split; [split; assumption|].
    apply (Hraw _ _ RawAbsent _ i Hx). discriminate.
  - intro Hnone. rewrite Hw in Hnone.
    assert (Hall : forall i, (i < N)%nat -> coordValid i = true).
    { intros i Hi.
      assert (Hwi : warningsAt i = []).
      { destruct (warningsAt i) as [|w ws] eqn:E; [reflexivity|].
        exfalso.
        assert (Hin : In w (flat_map warningsAt (seq 0 N))).
        { apply in_flat_map. exists i. split; [apply in_seq; lia|].
          rewrite E. left. reflexivity. }
        rewrite Hnone in Hin. contradiction. }
      unfold Spec.warningsAt in Hwi. unfold Spec.coordValid.
      destruct (validateCoordinate _ _); [reflexivity|discriminate]. }
    assert (Hk : kept N = seq 0 N).
    { unfold Spec.kept. apply forallb_filter_id.
      apply forallb_forall. intros i Hi. apply in_seq in Hi.
      apply Hall. lia. }
    rewrite Hk, length_seq in Hs. rewrite Hc, length_map, Hk, length_seq.
    split; [lia|reflexivity].
Qed.

End ValidatedOutput.

(** ** The entries of a time-distance map *)

Section TimeDistanceEntries.
Import Utils Spec.

Variable haversineDistance : Coordinate -> Coordinate -> Q.

Local Abbreviation buildTimeDistanceMap :=
  (Utils.buildTimeDistanceMap haversineDistance).
Local Abbreviation buildStep := (Utils.buildStep haversineDistance).
Local Abbreviation cumulativeDistances :=
  (Utils.cumulativeDistances haversineDistance).
Local Abbreviation calculateDistance :=
  (Utils.calculateDistance haversineDistance).

(** The loop of [buildTimeDistanceMap] records, for every timestamped
    point beyond the first, its cumulative distance and its elapsed
    time. *)
Lemma buildLoop_entries (route : Route) (startTime : Z) :
  let st := fold_left (buildStep route startTime)
                      (seq 1 (length (coordinates route) - 1))
                      (0, {| distances := [0]; times := [0] |}) in
  distances (snd st) =
    0 :: map (fun i => nth i (cumulativeDistances (coordinates route)) 0)
             (stampedIndices route) /\
  times (snd st) =
    0 :: map (elapsedAt startTime (timestamps route)) (stampedIndices route).
Proof.
  cbv zeta.
  destruct (cumulativeDistances_entries haversineDistance (coordinates route))
    as (_ & H0 & Hs).
  pose (P := fun (k : nat) (st : Q * DistanceTimeMap) =>
    fst st = nth (k - 1) (cumulativeDistances (coordinates route)) 0 /\
    distances (snd st) =
      0 :: map (fun i => nth i (cumulativeDistances (coordinates route)) 0)
               (filter (stamped (timestamps route)) (seq 1 (k - 1))) /\
    times (snd st) =
      0 :: map (elapsedAt startTime (timestamps route))
               (filter (stamped (timestamps route)) (seq 1 (k - 1)))).
  assert (Hinv : P (1 + (length (coordinates route) - 1))%nat
    (fold_left (buildStep route startTime)
               (seq 1 (length (coordinates route) - 1))
               (0, {| distances := [0]; times := [0] |}))).
  { apply (for_loop_invariant P).
    - unfold P. cbn [fst snd distances times Nat.sub seq filter map].
      split; [symmetry; exact H0|]. split; reflexivity.
    - intros i st Hi (Hc & Hd & Ht). unfold P, Utils.buildStep.
      assert (Hcum : fst st +
                haversineDistance (nth (i - 1) (coordinates route) origin)
                                  (nth i (coordinates route) origin)
              = nth i (cumulativeDistances (coordinates route)) 0).
      { rewrite Hc.
        replace (nth i (cumulativeDistances (coordinates route)) 0)
          with (nth (S (i - 1)) (cumulativeDistances (coordinates route)) 0)
          by (f_equal; lia).
        rewrite Hs by lia.
        replace (S (i - 1)) with i by lia. reflexivity. }
      replace (S i - 1)%nat with (S (i - 1)) by lia.
      rewrite seq_S, filter_app, !map_app.
      replace (1 + (i - 1))%nat with i by lia.
      cbn [filter]. cbv zeta. rewrite Hcum.
      destruct (nth i (timestamps route) None) as [t|] eqn:Hti.
      + assert (Est : stamped (timestamps route) i = true)
          by (unfold stamped; rewrite Hti; reflexivity).
        assert (Eel : elapsedAt startTime (timestamps route) i
                      = inject_Z (t - startTime) / 1000)
          by (unfold elapsedAt; rewrite Hti; reflexivity).
        rewrite Est. cbn [fst snd distances times map].
        rewrite Eel, Hd, Ht.
        split; [f_equal; lia|]. split; reflexivity.
      + assert (Est : stamped (timestamps route) i = false)
          by (unfold stamped; rewrite Hti; reflexivity).
        rewrite Est. cbn [fst snd map]. rewrite !app_nil_r.
        split; [f_equal; lia|]. split; assumption. }
  destruct Hinv as (_ & Hd & Ht).
  replace (1 + (length (coordinates route) - 1) - 1)%nat
    with (length (coordinates route) - 1)%nat in Hd, Ht by lia.
  split; assumption.
Qed.

Lemma last_cons_map {A : Type} (g : A -> Q) (l : list A) (d : A) :
  l <> [] ->
  nth (length (0 :: map g l) - 1) (0 :: map g l) 0
  = g (nth (length l - 1) l d).
Proof.
  intro Hne. destruct l as [|x l]; [contradiction|].
  cbn [length map]. rewrite length_map. cbn [Nat.sub].
  rewrite Nat.sub_0_r.
  change (nth (S (length l)) (0 :: g x :: map g l) 0)
    with (nth (length l) (map g (x :: l)) 0).
  rewrite (nth_indep _ 0 (g d)) by (cbn [length map]; rewrite length_map; lia).
  rewrite map_nth. reflexivity.
Qed.

(** The last index a filter keeps is the largest that passes it. *)
Lemma filter_seq_last (p : nat -> bool) (a n : nat) :
  filter p (seq a n) <> [] ->
  let j := nth (length (filter p (seq a n)) - 1) (filter p (seq a n)) 0%nat in
  p j = true /\ (a <= j < a + n)%nat /\
  forall k, (j < k < a + n)%nat -> p k = false.
Proof.
  cbv zeta. induction n as [|n IH]; [intro H; contradiction H; reflexivity|].
  rewrite seq_S, filter_app. cbn [filter].
  destruct (p (a + n)%nat) eqn:Hp.
  - intros _. rewrite length_app. cbn [length].
    rewrite app_nth2 by lia.
    replace (length (filter p (seq a n)) + 1 - 1
             - length (filter p (seq a n)))%nat with 0%nat by lia.
    cbn [nth]. split; [exact Hp|]. split; [lia|]. intros k Hk. lia.
  - rewrite app_nil_r. intro Hne. destruct (IH Hne) as (H1 & H2 & H3).
    split; [exact H1|]. split; [lia|].
    intros k Hk. destruct (Nat.eq_dec k (a + n)) as [->|Hkn];
      [exact Hp|apply H3; lia].
Qed.

(** A map that was built: its start time and its entries. *)
Lemma buildTimeDistanceMap_Some (route : Route) (m : DistanceTimeMap) :
  buildTimeDistanceMap route = Some m ->
  exists startTime,
    nth 0 (timestamps route) None = Some startTime /\
    stampedIndices route <> [] /\
    distances m =
      0 :: map (fun i => nth i (cumulativeDistances (coordinates route)) 0)
               (stampedIndices route) /\
    times m =
      0 :: map (elapsedAt startTime (timestamps route))
               (stampedIndices route).
Proof.
  unfold Utils.buildTimeDistanceMap.
  destruct (nth 0 (timestamps route) None) as [startTime|];
    [|discriminate].
  destruct (startTime =? 0)%Z; [discriminate|]. cbv zeta.
  destruct (buildLoop_entries route startTime) as [Hd Ht].
  destruct (1 <? _)%nat eqn:Hsize; [|discriminate].
  intros [= <-]. exists startTime. split; [reflexivity|].
  split; [|split; assumption].
  apply Nat.ltb_lt in Hsize. rewrite Hd in Hsize.
  intro E. rewrite E in Hsize. cbn in Hsize. lia.
Qed.

(** X19. [buildTimeDistanceMap] returns null exactly when the first
    timestamp is missing (or is the epoch itself) or no later point is
    timestamped.  Otherwise the map holds 0 km at 0 s followed, for every
    later timestamped point in order, by its cumulative distance along
    the route and its time since the first timestamp; if the last point
    is timestamped the map ends at the route's total distance. *)
Theorem buildTimeDistanceMap_entries (route : Route) :
  (buildTimeDistanceMap route = None <->
   nth 0 (timestamps route) None = None \/
   nth 0 (timestamps route) None = Some 0%Z \/
   stampedIndices route = []) /\
  (forall m, buildTimeDistanceMap route = Some m ->
     exists startTime,
       nth 0 (timestamps route) None = Some startTime /\
       distances m =
         0 :: map (fun i => nth i (cumulativeDistances (coordinates route)) 0)
                  (stampedIndices route) /\
       times m =
         0 :: map (elapsedAt startTime (timestamps route))
                  (stampedIndices route)) /\
  (forall m, buildTimeDistanceMap route = Some m ->
     nth (length (coordinates route) - 1) (timestamps route) None <> None ->
     lastDistance m = calculateDistance (coordinates route)).
Proof.
  split; [|split].
  - unfold Utils.buildTimeDistanceMap.
    destruct (nth 0 (timestamps route) None) as [startTime|];
      [|split; auto].
    destruct (startTime =? 0)%Z eqn:Hz.
    + apply Z.eqb_eq in Hz. subst. split; auto.
    + apply Z.eqb_neq in Hz. cbv zeta.
      destruct (buildLoop_entries route startTime) as [Hd _].
      rewrite Hd. cbn [length]. rewrite length_map.
      destruct (stampedIndices route) as [|i l] eqn:Hst; cbn [length Nat.ltb
        Nat.leb].
      * split; auto.
      * split; [discriminate|].
        intros [H|[H|H]]; [discriminate|congruence|discriminate].
  - intros m Hm.
    destruct (buildTimeDistanceMap_Some route m Hm)
      as (startTime & H0 & _ & Hd & Ht).
    exists startTime. auto.
  - intros m Hm Hlast.
    destruct (buildTimeDistanceMap_Some route m Hm)
      as (startTime & H0 & Hne & Hd & _).
    unfold lastDistance. rewrite Hd.
    rewrite (last_cons_map _ _ 0%nat) by exact Hne.
    rewrite (calculateDistance_last haversineDistance). f_equal.
    unfold stampedIndices in *.
    destruct (filter_seq_last (stamped (timestamps route)) 1
                (length (coordinates route) - 1) Hne) as (Hp & Hj & Hmax).
    set (j := nth _ _ 0%nat) in *.
    destruct (Nat.eq_dec j (length (coordinates route) - 1)) as [E|E];
      [exact E|].
    exfalso. apply Hlast.
    assert (Hf : stamped (timestamps route) (length (coordinates route) - 1)
                 = false) by (apply Hmax; lia).
    unfold stamped in Hf.
    destruct (nth (length (coordinates route) - 1) (timestamps route) None);
      [discriminate|reflexivity].
Qed.

End TimeDistanceEntries.

(** ** FileParser: the duration of a route *)

Section RouteDuration.
Import Utils Spec.

Lemma validTimestamps_nil (timestamps : list (option Z)) :
  validTimestamps timestamps = [] ->
  forall k, nth k timestamps None = None.
Proof.
  induction timestamps as [|[t|] l IH]; intros H k.
  - destruct k; reflexivity.
  - discriminate.
  - destruct k as [|k]; [reflexivity|]. cbn [nth]. apply IH. exact H.
Qed.

(** The first non-null timestamp sits at the lowest non-null index. *)
Lemma validTimestamps_first (timestamps : list (option Z)) :
  validTimestamps timestamps <> [] ->
  exists i,
    nth i timestamps None = Some (nth 0 (validTimestamps timestamps) 0%Z) /\
    forall k, (k < i)%nat -> nth k timestamps None = None.
Proof.
  induction timestamps as [|[t|] l IH]; intro Hne.
  - contradiction.
  - exists 0%nat. split; [reflexivity|]. intros k Hk. lia.
  - destruct (IH Hne) as (i & Hi & Hbefore). exists (S i).
    split; [exact Hi|]. intros [|k] Hk; [reflexivity|].
    cbn [nth]. apply Hbefore. lia.
Qed.

(** The last non-null timestamp sits at the highest non-null index. *)
Lemma validTimestamps_last (timestamps : list (option Z)) :
  validTimestamps timestamps <> [] ->
  exists j,
    nth j timestamps None =
      Some (nth (length (validTimestamps timestamps) - 1)
                (validTimestamps timestamps) 0%Z) /\
    forall k, (j < k)%nat -> nth k timestamps None = None.
Proof.
  induction timestamps as [|x l IH]; intro Hne; [contradiction|].
  destruct (validTimestamps l) as [|v vs] eqn:Hv.
  - destruct x as [t|].
    + exists 0%nat. unfold validTimestamps in *. cbn [flat_map].
      rewrite Hv. split; [reflexivity|].
      intros [|k] Hk; [lia|]. cbn [nth].
      apply validTimestamps_nil. exact Hv.
    + exfalso. apply Hne. unfold validTimestamps in *. cbn [flat_map].
      rewrite Hv. reflexivity.
  - destruct IH as (j & Hj & Hafter); [discriminate|].
    exists (S j). split.
    + cbn [nth]. rewrite Hj. f_equal.
      unfold validTimestamps in *. cbn [flat_map]. rewrite Hv.
      destruct x as [t|]; cbn [app length Nat.sub]; [|reflexivity].
      rewrite Nat.sub_0_r. reflexivity.
    + intros [|k] Hk; [lia|]. cbn [nth]. apply Hafter. lia.
Qed.

(** Two non-null timestamps at different positions of the filtered array
    come from different indices, in the same order. *)
Lemma validTimestamps_order (timestamps : list (option Z)) (a b : nat) :
  (a < b < length (validTimestamps timestamps))%nat ->
  exists i j,
    (i < j)%nat /\
    nth i timestamps None = Some (nth a (validTimestamps timestamps) 0%Z) /\
    nth j timestamps None = Some (nth b (validTimestamps timestamps) 0%Z).
Proof.
  revert a b. induction timestamps as [|x l IH]; intros a b Hab.
  - cbn in Hab. lia.
  - destruct x as [t|].
    + change (validTimestamps (Some t :: l)) with (t :: validTimestamps l)
        in *.
      cbn [length] in Hab. destruct b as [|b]; [lia|].
      destruct a as [|a].
      * assert (Hin : In (nth b (validTimestamps l) 0%Z) (validTimestamps l))
          by (apply nth_In; lia).
        unfold validTimestamps in Hin at 2. apply in_flat_map in Hin.
        destruct Hin as ([y|] & Hy & Hyb); [|contradiction].
        destruct Hyb as [Hyb|[]]. subst y.
        apply (In_nth _ _ None) in Hy. destruct Hy as (j & _ & Hj).
        exists 0%nat, (S j). split; [lia|]. split; [reflexivity|exact Hj].
      * destruct (IH a b) as (i & j & Hij & Hi & Hj); [lia|].
        exists (S i), (S j). split; [lia|]. split; assumption.
    + change (validTimestamps (None :: l)) with (validTimestamps l) in *.
      destruct (IH a b Hab) as (i & j & Hij & Hi & Hj).
      exists (S i), (S j). split; [lia|]. split; assumption.
Qed.

(** Two non-null timestamps at different indices are two entries of the
    filtered array. *)
Lemma validTimestamps_two (timestamps : list (option Z)) (a b : nat)
    (x y : Z) :
  (a < b)%nat ->
  nth a timestamps None = Some x -> nth b timestamps None = Some y ->
  (2 <= length (validTimestamps timestamps))%nat.
Proof.
  revert a b. induction timestamps as [|x0 l IH]; intros a b Hab Ha Hb.
  - destruct a; discriminate.
  - destruct b as [|b]; [lia|]. cbn [nth] in Hb.
    destruct a as [|a].
    + cbn [nth] in Ha. subst x0.
      change (validTimestamps (Some x :: l)) with (x :: validTimestamps l).
      destruct (validTimestamps l) as [|v vs] eqn:Hv; [|cbn [length]; lia].
      rewrite (validTimestamps_nil l Hv b) in Hb. discriminate.
    + cbn [nth] in Ha. specialize (IH a b ltac:(lia) Ha Hb).
      destruct x0 as [t|].
      * change (validTimestamps (Some t :: l)) with (t :: validTimestamps l).
        cbn [length]. lia.
      * exact IH.
Qed.

Lemma duration_None (timestamps : list (option Z)) :
  FileParser.duration timestamps = None <->
  (length (validTimestamps timestamps) < 2)%nat.
Proof.
  unfold FileParser.duration.
  change (flat_map (fun t : option Z =>
                      match t with Some x => [x] | None => [] end)
                   timestamps)
    with (validTimestamps timestamps).
  cbv zeta.
  destruct (2 <=? length (validTimestamps timestamps))%nat eqn:Hlen.
  - apply Nat.leb_le in Hlen. split; [discriminate|lia].
  - apply Nat.leb_gt in Hlen. split; auto.
Qed.

(** A duration is the time from the first to the last non-null
    timestamp. *)
Lemma duration_Some (timestamps : list (option Z)) (d : Q) :
  FileParser.duration timestamps = Some d ->
  exists i j first last,
    (i < j)%nat /\
    nth i timestamps None = Some first /\
    nth j timestamps None = Some last /\
    (forall k, (k < i)%nat -> nth k timestamps None = None) /\
    (forall k, (j < k)%nat -> nth k timestamps None = None) /\
    d = inject_Z (last - first) / 1000.
Proof.
  unfold FileParser.duration.
  change (flat_map (fun t : option Z =>
                      match t with Some x => [x] | None => [] end)
                   timestamps)
    with (validTimestamps timestamps).
  cbv zeta.
  destruct (2 <=? length (validTimestamps timestamps))%nat eqn:Hlen;
    [|discriminate].
  apply Nat.leb_le in Hlen. intros [= <-].
  assert (Hne : validTimestamps timestamps <> []).
  { intro E. rewrite E in Hlen. cbn in Hlen. lia. }
  destruct (validTimestamps_first timestamps Hne) as (i & Hi & Hbefore).
  destruct (validTimestamps_last timestamps Hne) as (j & Hj & Hafter).
  destruct (validTimestamps_order timestamps 0
              (length (validTimestamps timestamps) - 1))
    as (i' & j' & Hij & Hi' & Hj'); [lia|].
  exists i, j. eexists. eexists.
  split; [|split; [exact Hi|split; [exact Hj|]]].
  - assert (i <= i')%nat.
    { destruct (Nat.le_gt_cases i i') as [H|H]; [exact H|].
      rewrite (Hbefore i' H) in Hi'. discriminate. }
    assert (j' <= j)%nat.
    { destruct (Nat.le_gt_cases j' j) as [H'|H']; [exact H'|].
      rewrite (Hafter j' H') in Hj'. discriminate. }
    lia.
  - split; [exact Hbefore|]. split; [exact Hafter|reflexivity].
Qed.

(** X20. [stats.duration]: null exactly when fewer than two timestamps
    are not null; otherwise the seconds between the first and the last
    timestamp that is not null, which sit at different indices; never
    negative on chronological timestamps. *)
Theorem duration_spec (timestamps : list (option Z)) :
  (FileParser.duration timestamps = None <->
   (length (validTimestamps timestamps) < 2)%nat) /\
  (forall d, FileParser.duration timestamps = Some d ->
     exists i j first last,
       (i < j)%nat /\
       nth i timestamps None = Some first /\
       nth j timestamps None = Some last /\
       (forall k, (k < i)%nat -> nth k timestamps None = None) /\
       (forall k, (j < k)%nat -> nth k timestamps None = None) /\
       d = inject_Z (last - first) / 1000) /\
  (chronological timestamps ->
   forall d, FileParser.duration timestamps = Some d -> 0 <= d).
Proof.
  split; [apply duration_None|]. split; [apply duration_Some|].
  intros Hchron d Hd.
  destruct (duration_Some timestamps d Hd)
    as (i & j & first & last & Hij & Hi & Hj & _ & _ & ->).
  assert (first <= last)%Z by (apply (Hchron i j); [lia|assumption..]).
  apply Qle_shift_div_l; [lra|]. rewrite Qmult_0_l.
  change 0 with (inject_Z 0). rewrite <- Zle_Qle. lia.
Qed.

Variable haversineDistance : Coordinate -> Coordinate -> Q.

(** X21. For a route with no more timestamps than coordinates, whenever
    [buildTimeDistanceMap] returns a map, [stats.duration] is the last
    time of that map: the total time shown for the route is the time at
    which the map reaches its last distance. *)
Theorem duration_is_last_time (route : Route) (m : DistanceTimeMap) :
  (length (timestamps route) <= length (coordinates route))%nat ->
  buildTimeDistanceMap haversineDistance route = Some m ->
  FileParser.duration (timestamps route)
  = Some (nth (length (times m) - 1) (times m) 0).
Proof.
  intros Hlen Hm.
  destruct (buildTimeDistanceMap_Some haversineDistance route m Hm)
    as (startTime & H0 & Hne & _ & Ht).
  rewrite Ht. rewrite (last_cons_map _ _ 0%nat) by exact Hne.
  unfold stampedIndices in *.
  destruct (filter_seq_last (stamped (timestamps route)) 1
              (length (coordinates route) - 1) Hne) as (Hp & Hj & Hmax).
  set (j := nth _ _ 0%nat) in *.
  unfold stamped in Hp. unfold elapsedAt.
  destruct (nth j (timestamps route) None) as [last|] eqn:Hlast;
    [|discriminate].
  destruct (FileParser.duration (timestamps route)) as [d|] eqn:Hd.
  - destruct (duration_Some _ d Hd)
      as (i' & j' & first' & last' & Hij & Hi' & Hj' & Hbefore & Hafter & ->).
    assert (i' = 0%nat).
    { destruct i' as [|i']; [reflexivity|].
      rewrite (Hbefore 0%nat) in H0 by lia. discriminate. }
    subst i'. rewrite H0 in Hi'. injection Hi' as <-.
    assert (Hj'len : (j' < length (timestamps route))%nat).
    { destruct (Nat.lt_ge_cases j' (length (timestamps route))) as [H|H];
        [exact H|].
      rewrite nth_overflow in Hj' by exact H. discriminate. }
    assert (j' = j).
    { destruct (Nat.lt_trichotomy j' j) as [H|[H|H]]; [|exact H|].
      - rewrite (Hafter j H) in Hlast. discriminate.
      - assert (Hf : stamped (timestamps route) j' = false)
          by (apply Hmax; lia).
        unfold stamped in Hf. rewrite Hj' in Hf. discriminate. }
    subst j'. rewrite Hlast in Hj'. injection Hj' as <-.
    reflexivity.
  - exfalso. apply duration_None in Hd.
    pose proof (validTimestamps_two (timestamps route) 0 j startTime last
                  ltac:(lia) H0 Hlast).
    lia.
Qed.

End RouteDuration.

Section RouteDurationExample.
Import Utils Spec.

(** [routeB]: 660 seconds from its first to its last point. *)
Lemma duration_is_last_time_witness :
  (length (timestamps routeB) <= length (coordinates routeB))%nat /\
  exists m,
    buildTimeDistanceMap flatDistance routeB = Some m /\
    FileParser.duration (timestamps routeB)
    = Some (nth (length (times m) - 1) (times m) 0).
Proof.
  assert (H : (length (timestamps routeB) <= length (coordinates routeB))%nat)
    by (cbn; lia).
  split; [exact H|].
  destruct (buildTimeDistanceMap flatDistance routeB) as [m|] eqn:Hm.
  - exists m. split; [reflexivity|].
    exact (duration_is_last_time flatDistance routeB m H Hm).
  - vm_compute in Hm. discriminate Hm.
Defined.

End RouteDurationExample.

(** ** getTimeAtDistance along the route *)

Section TimeAlongRoute.
Import Utils Spec.

Lemma interpolate_between (d1 t1 d2 t2 x : Q) :
  d1 < d2 -> t1 <= t2 -> d1 <= x <= d2 ->
  t1 <= interpolate d1 t1 d2 t2 x <= t2.
Proof.
  intros Hd Ht [Hx1 Hx2]. unfold interpolate.
  assert (H0 : 0 <= (x - d1) / (d2 - d1))
    by (apply Qle_shift_div_l; lra).
  assert (H1 : (x - d1) / (d2 - d1) <= 1)
    by (apply Qle_shift_div_r; lra).
  set (r := (x - d1) / (d2 - d1)) in *. clearbody r.
  split; nra.
Qed.

(** Where a positive target within the map falls, and that the time
    returned lies between the times of the two bracketing entries. *)
Lemma getTimeAtDistance_located (m : DistanceTimeMap) (target : Q) :
  IsDistanceTimeMap m -> ascending (times m) ->
  0 < target -> target <= lastDistance m ->
  exists low t,
    (S low < length (distances m))%nat /\
    nth low (distances m) 0 <= target <= nth (S low) (distances m) 0 /\
    getTimeAtDistance m target = Some t /\
    nth low (times m) 0 <= t <= nth (S low) (times m) 0 /\
    (nth (S low) (distances m) 0 == nth low (distances m) 0 ->
     t = nth low (times m) 0) /\
    (~ nth (S low) (distances m) 0 == nth low (distances m) 0 ->
     t = interpolate (nth low (distances m) 0) (nth low (times m) 0)
                     (nth (S low) (distances m) 0) (nth (S low) (times m) 0)
                     target).
Proof.
  intros Hm Hasc Hpos Hlast.
  destruct (getTimeAtDistance_bracket m target Hm Hpos Hlast)
    as (low & t & Hlow & Hbr & Hres & Hsame & Hinterp).
  destruct Hm as (Hlen & _).
  exists low, t. split; [exact Hlow|]. split; [exact Hbr|].
  split; [exact Hres|]. split; [|split; assumption].
  assert (Ht : nth low (times m) 0 <= nth (S low) (times m) 0)
    by (apply Hasc; lia).
  destruct (Qeq_dec (nth (S low) (distances m) 0) (nth low (distances m) 0))
    as [E|E].
  - rewrite (Hsame E). split; [apply Qle_refl|exact Ht].
  - rewrite (Hinterp E). apply interpolate_between; [|exact Ht|exact Hbr].
    destruct Hbr as [H1 H2].
    destruct (Qlt_le_dec (nth low (distances m) 0)
                         (nth (S low) (distances m) 0)) as [Hlt|Hge];
      [exact Hlt|].
    exfalso. apply E. lra.
Qed.

Lemma getTimeAtDistance_start (m : DistanceTimeMap) (target : Q) :
  IsDistanceTimeMap m -> target <= 0 ->
  getTimeAtDistance m target = Some 0.
Proof.
  intros (Hlen & Hn & Hd0 & Ht0 & Hasc) Hle.
  unfold getTimeAtDistance.
  assert (Hg1 : (length (distances m) <? 2)%nat = false)
    by (apply Nat.ltb_ge; lia).
  assert (Hl : nth 0 (distances m) 0
               <= nth (length (distances m) - 1) (distances m) 0)
    by (apply Hasc; lia).
  assert (Hg2 : Qltb (nth (length (distances m) - 1) (distances m) 0) target
                = false) by (apply Qltb_ge; lra).
  apply Qle_bool_iff in Hle. rewrite Hg1, Hg2, Hle. reflexivity.
Qed.

(** X22. On a map with non-decreasing distances and times, as
    [buildTimeDistanceMap] builds them from chronological timestamps,
    [getTimeAtDistance] returns null exactly for the targets beyond the
    last distance: every target up to it has a time, and that time is
    never negative. *)
Theorem getTimeAtDistance_defined (m : DistanceTimeMap) :
  IsDistanceTimeMap m -> ascending (times m) ->
  (forall target,
     getTimeAtDistance m target = None <-> lastDistance m < target) /\
  (forall target t, getTimeAtDistance m target = Some t -> 0 <= t).
Proof.
  intros Hm Hasc.
  pose proof Hm as (Hlen & Hn & Hd0 & Ht0 & Hdasc).
  assert (Hbound : forall target, target <= lastDistance m ->
     exists t, getTimeAtDistance m target = Some t /\ 0 <= t).
  { intros target Hlast.
    destruct (Qlt_le_dec 0 target) as [Hpos|Hneg].
    - destruct (getTimeAtDistance_located m target Hm Hasc Hpos Hlast)
        as (low & t & Hlow & _ & Hres & [Hlo Hhi] & _).
      exists t. split; [exact Hres|].
      assert (nth 0 (times m) 0 <= nth low (times m) 0)
        by (apply Hasc; lia).
      lra.
    - exists 0. split; [apply getTimeAtDistance_start; assumption|].
      apply Qle_refl. }
  assert (Hbeyond : forall target, lastDistance m < target ->
                                   getTimeAtDistance m target = None).
  { intros target Hgt. unfold getTimeAtDistance.
    assert (Hg1 : (length (distances m) <? 2)%nat = false)
      by (apply Nat.ltb_ge; lia).
    apply Qltb_lt in Hgt. unfold lastDistance in Hgt.
    rewrite Hg1, Hgt. reflexivity. }
  split.
  - intro target. split; [|apply Hbeyond].
    intro Hnone.
    destruct (Qlt_le_dec (lastDistance m) target) as [Hgt|Hle];
      [exact Hgt|].
    destruct (Hbound target Hle) as (t & Ht & _). congruence.
  - intros target t Ht.
    destruct (Qlt_le_dec (lastDistance m) target) as [Hgt|Hle].
    + rewrite (Hbeyond target Hgt) in Ht. discriminate.
    + destruct (Hbound target Hle) as (t' & Ht' & H0). congruence.
Qed.

(** The map of the specification's example. *)
Lemma getTimeAtDistance_defined_witness :
  IsDistanceTimeMap exampleMap /\ ascending (times exampleMap) /\
  (forall target,
     getTimeAtDistance exampleMap target = None
     <-> lastDistance exampleMap < target).
Proof.
  assert (H : IsDistanceTimeMap exampleMap).
  { unfold IsDistanceTimeMap, ascending. cbn.
    repeat split; try lia; try reflexivity.
    intros i j [Hij Hj].
    destruct j as [|[|[|j]]]; [| | |lia];
      destruct i as [|[|[|i]]]; try lia; cbn; lra. }
  assert (Ht : ascending (times exampleMap)).
  { unfold ascending. cbn. intros i j [Hij Hj].
    destruct j as [|[|[|j]]]; [| | |lia];
      destruct i as [|[|[|i]]]; try lia; cbn; lra. }
  split; [exact H|]. split; [exact Ht|].
  exact (proj1 (getTimeAtDistance_defined exampleMap H Ht)).
Defined.

End TimeAlongRoute.

(** ** Elevation: the balance of gain and loss *)

Section ElevationBalance.
Import Utils Spec.

Lemma last_cons (x y : Q) (l : list Q) :
  nth (length (x :: y :: l) - 1) (x :: y :: l) 0
  = nth (length (y :: l) - 1) (y :: l) 0.
Proof.
  cbn [length]. replace (S (S (length l)) - 1)%nat with (S (length l)) by lia.
  replace (S (length l) - 1)%nat with (length l) by lia. reflexivity.
Qed.

Lemma gainOf_nonneg (v : list Q) : 0 <= gainOf v.
Proof.
  induction v as [|x [|y r] IH];
    [apply Qle_refl|apply Qle_refl|].
  rewrite gainOf_cons. case_Qltb 0 (y - x); lra.
Qed.

Lemma lossOf_nonneg (v : list Q) : 0 <= lossOf v.
Proof.
  induction v as [|x [|y r] IH];
    [apply Qle_refl|apply Qle_refl|].
  rewrite lossOf_cons. pose proof (Qabs_nonneg (y - x)).
  destruct (Qltb (y - x) 0); lra.
Qed.

Lemma gainOf_snoc (l : list Q) (y : Q) :
  l <> [] ->
  gainOf (l ++ [y]) ==
  gainOf l + (if Qltb 0 (y - nth (length l - 1) l 0)
              then y - nth (length l - 1) l 0 else 0).
Proof.
  induction l as [|x [|x' r] IH]; intro Hne; [contradiction| |].
  - change ([x] ++ [y]) with [x; y]. rewrite gainOf_cons.
    change (gainOf [y]) with 0. change (gainOf [x]) with 0.
    change (nth (length [x] - 1) [x] 0) with x.
    destruct (Qltb 0 (y - x)); lra.
  - change ((x :: x' :: r) ++ [y]) with (x :: x' :: (r ++ [y])).
    rewrite !gainOf_cons, last_cons.
    change (x' :: r ++ [y]) with ((x' :: r) ++ [y]).
    assert (IH' := IH ltac:(discriminate)).
    destruct (Qltb 0 (x' - x)); lra.
Qed.

Lemma firstn_snoc {A : Type} (l : list A) (i : nat) (d : A) :
  (i < length l)%nat -> firstn (S i) l = firstn i l ++ [nth i l d].
Proof.
  revert i. induction l as [|x l IH]; intros i Hi; [cbn in Hi; lia|].
  destruct i as [|i]; [reflexivity|].
  cbn [length] in Hi. cbn [firstn nth app].
  rewrite <- IH by lia. reflexivity.
Qed.

Lemma validElevations_map_Some (v : list Q) :
  validElevations (map Some v) = v.
Proof.
  induction v as [|x v IH]; [reflexivity|].
  unfold validElevations in *. cbn [map flat_map app]. rewrite IH.
  reflexivity.
Qed.

(** On elevations without nulls the gain summed pair by pair, as the
    splits do, is the gain of the statistics. *)
Lemma calculateSplitElevGain_gainOf (v : list Q) :
  calculateSplitElevGain (map Some v) 0 (length v - 1) == gainOf v.
Proof.
  unfold calculateSplitElevGain.
  destruct (length v - 1 <=? 0)%nat eqn:Hn.
  - apply Nat.leb_le in Hn.
    destruct v as [|x [|y r]]; [reflexivity|reflexivity|].
    cbn [length] in Hn. lia.
  - apply Nat.leb_gt in Hn.
    replace (length v - 1 - 0)%nat with (length v - 1)%nat by lia.
    change (0 + 1)%nat with 1%nat.
    pose (P := fun (k : nat) (g : Q) => g == gainOf (firstn k v)).
    assert (Hinv : P (1 + (length v - 1))%nat
      (fold_left
         (fun gain i =>
            match nth (i - 1) (map Some v) None, nth i (map Some v) None with
            | Some prev, Some curr =>
                let diff := curr - prev in
                if Qltb 0 diff then gain + diff else gain
            | _, _ => gain
            end)
         (seq 1 (length v - 1)) 0)).
    { apply (for_loop_invariant P).
      - unfold P. destruct v as [|x v]; [cbn in Hn; lia|].
        change (firstn 1 (x :: v)) with [x]. change (gainOf [x]) with 0.
        lra.
      - intros i g Hi Hg. unfold P in *.
        rewrite (nth_map_lt Some v (i - 1) 0 None) by lia.
        rewrite (nth_map_lt Some v i 0 None) by lia.
        cbv zeta. rewrite (firstn_snoc v i 0) by lia.
        rewrite gainOf_snoc.
        + rewrite length_firstn.
          replace (Nat.min i (length v) - 1)%nat with (i - 1)%nat by lia.
          rewrite nth_firstn.
          assert (E : (i - 1 <? i)%nat = true) by (apply Nat.ltb_lt; lia).
          rewrite E.
          destruct (Qltb 0 (nth i v 0 - nth (i - 1) v 0)); lra.
        + intro E. apply (f_equal (@length Q)) in E.
          rewrite length_firstn in E. cbn [length] in E. lia. }
    unfold P in Hinv.
    replace (1 + (length v - 1))%nat with (length v) in Hinv by lia.
    rewrite firstn_all in Hinv. exact Hinv.
Qed.

Lemma calculateElevationStats_gain (elevations : list (option Q)) :
  gain (calculateElevationStats elevations)
  == gainOf (validElevations elevations).
Proof.
  unfold calculateElevationStats.
  destruct (validElevations elevations) as [|first rest];
    [reflexivity|].
  rewrite elevationLoop_gain. cbn [gain]. lra.
Qed.

(** X23. The statistics of [calculateElevationStats]: gain and loss are
    never negative and the minimum is at most the maximum.  Nulls are
    ignored: taking a null out of the input, wherever it stands, changes
    nothing, and neither does taking all of them out.  On elevations
    without nulls the gain equals what [calculateSplitElevGain] sums over
    the whole route. *)
Theorem calculateElevationStats_nulls_ignored
    (elevations : list (option Q)) :
  let r := calculateElevationStats elevations in
  0 <= gain r /\ 0 <= loss r /\ min r <= max r /\
  (forall before after,
     elevations = before ++ None :: after ->
     calculateElevationStats (before ++ after) = r) /\
  (forall v, isNonNullSubsequence elevations v ->
     calculateElevationStats (map Some v) = r) /\
  (forall v, elevations = map Some v ->
     calculateSplitElevGain elevations 0 (length elevations - 1) == gain r).
Proof.
  cbv zeta.
  pose proof (calculateElevationStats_gain elevations) as Hgain.
  assert (Hloss : loss (calculateElevationStats elevations)
                  == lossOf (validElevations elevations)).
  { unfold calculateElevationStats.
    destruct (validElevations elevations) as [|first rest];
      [reflexivity|].
    rewrite elevationLoop_loss. cbn [loss]. lra. }
  split; [rewrite Hgain; apply gainOf_nonneg|].
  split; [rewrite Hloss; apply lossOf_nonneg|].
  split; [|split; [|split]].
  - unfold calculateElevationStats.
    destruct (validElevations elevations) as [|first rest];
      [apply Qle_refl|].
    destruct (elevationLoop_min first rest
                {| gain := 0; loss := 0; min := first; max := first |})
      as [Hin _].
    destruct (elevationLoop_max first rest
                {| gain := 0; loss := 0; min := first; max := first |})
      as [_ Hmax].
    apply Hmax. exact Hin.
  - intros before after ->. unfold calculateElevationStats.
    rewrite !validElevations_app, validElevations_cons_None. reflexivity.
  - intros v Hv. apply validElevations_subsequence in Hv.
    unfold calculateElevationStats.
    rewrite validElevations_map_Some, Hv. reflexivity.
  - intros v Hall. rewrite Hgain. subst elevations.
    rewrite validElevations_map_Some, length_map.
    apply calculateSplitElevGain_gainOf.
Qed.

End ElevationBalance.

(** ** filterAccelerationSpikes, as it decides *)

Section AccelerationFilter.
Import Utils Spec.

(** When the loop body nulls a speed that is a number. *)
Lemma accelerationStep_None (speeds : list (option Q))
    (timestamps : list (option Z)) (maxAcceleration : Q) (i : nat) (v : Q) :
  nth i speeds None = Some v ->
  (accelerationStep speeds timestamps maxAcceleration i = None <->
   exists sp ti tp,
     nth (i - 1) speeds None = Some sp /\
     ~ v == 0 /\ ~ sp == 0 /\
     nth i timestamps None = Some ti /\
     nth (i - 1) timestamps None = Some tp /\
     (tp < ti)%Z /\
     maxAcceleration <
       Qabs (v - sp) * (1000 / 3600) / (inject_Z (ti - tp) / 1000)).
Proof.
  intro Hv. unfold accelerationStep. rewrite Hv.
  destruct (nth i timestamps None) as [ti|] eqn:Hti;
    [|split; [discriminate
             |intros (sp & ti & tp & _ & _ & _ & H & _); discriminate]].
  destruct (nth (i - 1) timestamps None) as [tp|] eqn:Htp;
    [|split; [discriminate
             |intros (sp & ti' & tp & _ & _ & _ & _ & H & _); discriminate]].
  cbn [falsy].
  case_Qeq_bool v 0.
  { cbn [orb]. split; [discriminate|].
    intros (sp & ti' & tp' & _ & Hnz & _). contradiction. }
  destruct (nth (i - 1) speeds None) as [sp|] eqn:Hsp; cbn [falsy orb].
  2: { split; [discriminate|].
       intros (sp & ti' & tp' & H & _). discriminate. }
  case_Qeq_bool sp 0.
  { split; [discriminate|].
    intros (sp' & ti' & tp' & [= <-] & _ & Hnz & _). contradiction. }
  cbn [toNumber].
  assert (Hdt : 0 < inject_Z (ti - tp) / 1000 <-> (tp < ti)%Z).
  { rewrite Qdiv_pos_iff by lra. rewrite inject_Z_pos. lia. }
  case_Qltb 0 (inject_Z (ti - tp) / 1000).
  - case_Qltb maxAcceleration
      (Qabs (v - sp) * (1000 / 3600) / (inject_Z (ti - tp) / 1000)).
    + split; [intros _|reflexivity].
      exists sp, ti, tp. repeat split; auto. apply Hdt. exact E1.
    + split; [discriminate|].
      intros (sp' & ti' & tp' & [= <-] & _ & _ & [= <-] & [= <-] & _ & Hacc).
      lra.
  - split; [discriminate|].
    intros (sp' & ti' & tp' & _ & _ & _ & [= <-] & [= <-] & Hlt & _).
    apply Hdt in Hlt. lra.
Qed.


End AccelerationFilter.

(** ** The elevation gains of the splits *)

Section SplitGains.
Import Utils Spec.

Variable haversineDistance : Coordinate -> Coordinate -> Q.

Local Abbreviation cumulativeDistances :=
  (Utils.cumulativeDistances haversineDistance).
Local Abbreviation totalDistanceOf :=
  (Spec.totalDistanceOf haversineDistance).
Local Abbreviation calculateSplits :=
  (Utils.calculateSplits haversineDistance).
Local Abbreviation makeSplit := (Utils.makeSplit haversineDistance).

Lemma sumQ_app (l l' : list Q) : sumQ (l ++ l') == sumQ l + sumQ l'.
Proof.
  induction l as [|x l IH].
  - change (sumQ l' == 0 + sumQ l'). lra.
  - change (x + sumQ (l ++ l') == x + sumQ l + sumQ l'). lra.
Qed.

(** With enough fuel [calculateSplits] returns one split per window. *)
Lemma calculateSplits_returns (route : Route) (splitDistanceKm : Q)
    (fuel : nat) :
  (2 <= length (coordinates route))%nat ->
  0 < splitDistanceKm ->
  (splitCount (totalDistanceOf route) splitDistanceKm <= fuel)%nat ->
  calculateSplits fuel route splitDistanceKm =
  Returned
    (map (fun j => makeSplit route (cumulativeDistances (coordinates route))
                     (totalDistanceOf route) splitDistanceKm (S j)
                     (sampleAt splitDistanceKm j))
         (seq 0 (splitCount (totalDistanceOf route) splitDistanceKm))).
Proof.
  intros Hlen Hpos Hfuel.
  destruct (splitCount_spec (totalDistanceOf route) splitDistanceKm Hpos)
    as [Hin Hout].
  unfold Utils.calculateSplits.
  assert (E : (length (coordinates route) <? 2)%nat = false)
    by (apply Nat.ltb_ge; exact Hlen).
  rewrite E.
  change (splitLoop haversineDistance fuel route
            (cumulativeDistances (coordinates route))
            (totalDistanceOf route) splitDistanceKm 1
            (sampleAt splitDistanceKm 0) [] =
          Returned
            (map (fun j => makeSplit route
                             (cumulativeDistances (coordinates route))
                             (totalDistanceOf route) splitDistanceKm (S j)
                             (sampleAt splitDistanceKm j))
                 (seq 0 (splitCount (totalDistanceOf route)
                                    splitDistanceKm)))).
  rewrite (splitLoop_returns haversineDistance route
             (cumulativeDistances (coordinates route))
             (totalDistanceOf route) splitDistanceKm
             (splitCount (totalDistanceOf route) splitDistanceKm) fuel 0 []);
    auto.
  intros j Hj. apply Hin. lia.
Qed.


End SplitGains.

Section SplitGainsExample.
Import Utils Spec.


End SplitGainsExample.

(** ** Formatting *)

Section FormattingProofs.
Import Utils Spec String.
Local Open Scope string_scope.

Lemma Qfloor_bounds (x : Q) :
  inject_Z (Qfloor x) <= x /\ x < inject_Z (Qfloor x) + 1.
Proof.
  split; [apply Qfloor_le|].
  pose proof (Qlt_floor x) as H. rewrite inject_Z_plus in H. exact H.
Qed.

Lemma Qfloor_unique (x : Q) (z : Z) :
  inject_Z z <= x -> x < inject_Z z + 1 -> Qfloor x = z.
Proof.
  intros Hlo Hhi. destruct (Qfloor_bounds x) as [Hf1 Hf2].
  assert (H1 : inject_Z z < inject_Z (Qfloor x + 1))
    by (rewrite inject_Z_plus; change (inject_Z 1) with 1; lra).
  assert (H2 : inject_Z (Qfloor x) < inject_Z (z + 1))
    by (rewrite inject_Z_plus; change (inject_Z 1) with 1; lra).
  rewrite <- Zlt_Qlt in H1, H2. lia.
Qed.

Lemma round_bounds (x : Q) :
  inject_Z (round x) <= x + (1 # 2) /\
  x + (1 # 2) < inject_Z (round x) + 1.
Proof. apply Qfloor_bounds. Qed.

(** The remainder of a non-negative number by a positive one. *)
Lemma rem_nonneg (a b : Q) :
  0 <= a -> 0 < b ->
  rem a b == a - b * inject_Z (Qfloor (a / b)) /\ 0 <= rem a b < b.
Proof.
  intros Ha Hb. unfold rem. cbv zeta.
  assert (Hq : 0 <= a / b) by (apply Qle_shift_div_l; lra).
  apply Qle_bool_iff in Hq. rewrite Hq.
  split; [reflexivity|].
  destruct (Qfloor_bounds (a / b)) as [H1 H2].
  assert (E : a / b * b == a) by (field; lra).
  set (f := inject_Z (Qfloor (a / b))) in *.
  set (q := a / b) in *. clearbody f q.
  split; nra.
Qed.

Lemma two_digits (z : Z) :
  (0 <= z <= 60)%Z -> String.length (padStart2 (showZ z)) = 2%nat.
Proof.
  intro Hz.
  assert (Hall : forallb
            (fun n => Nat.eqb (String.length
                                 (padStart2 (showZ (Z.of_nat n)))) 2)
            (seq 0 61) = true) by (vm_compute; reflexivity).
  rewrite forallb_forall in Hall.
  specialize (Hall (Z.to_nat z)).
  rewrite Z2Nat.id in Hall by lia.
  apply Nat.eqb_eq. apply Hall. apply in_seq. lia.
Qed.

(** X26. For a number of seconds of magnitude below 2^53,
    [formatTimeDelta] prints a sign, '+' from 0 upwards, and the whole
    seconds of the magnitude split into minutes and seconds: the seconds
    are below 60 and, after a minute count, always two digits; below one
    minute it prints the seconds alone. *)
Theorem formatTimeDelta_spec (s : Q) :
  Qabs s < maxSafeInteger ->
  formatTimeDelta None = "N/A" /\
  exists mins secs : Z,
    (0 <= mins)%Z /\ (0 <= secs < 60)%Z /\
    (60 * mins + secs)%Z = Qfloor (Qabs s) /\
    String.length (padStart2 (showZ secs)) = 2%nat /\
    formatTimeDelta (Some s) =
      (if Qle_bool 0 s then "+" else "-") ++
      (if (0 <? mins)%Z then showZ mins ++ ":" ++ padStart2 (showZ secs)
       else showZ secs ++ "s").
Proof.
  intros _. split; [reflexivity|].
  pose proof (Qabs_nonneg s) as Habs.
  destruct (rem_nonneg (Qabs s) 60 Habs ltac:(lra)) as [Hrem [Hr0 Hr60]].
  destruct (Qfloor_bounds (Qabs s / 60)) as [Hm1 Hm2].
  destruct (Qfloor_bounds (rem (Qabs s) 60)) as [Hs1 Hs2].
  assert (E : Qabs s / 60 * 60 == Qabs s) by (field; lra).
  exists (Qfloor (Qabs s / 60)), (Qfloor (rem (Qabs s) 60)).
  set (mins := Qfloor (Qabs s / 60)) in *.
  set (secs := Qfloor (rem (Qabs s) 60)) in *.
  assert (Hmins : (0 <= mins)%Z).
  { assert (H : inject_Z (-1) < inject_Z mins).
    { change (inject_Z (-1)) with (-1).
      assert (0 <= Qabs s / 60) by (apply Qle_shift_div_l; lra). lra. }
    rewrite <- Zlt_Qlt in H. lia. }
  assert (Hsecs : (0 <= secs < 60)%Z).
  { assert (H1 : inject_Z (-1) < inject_Z secs)
      by (change (inject_Z (-1)) with (-1); lra).
    assert (H2 : inject_Z secs < inject_Z 60)
      by (change (inject_Z 60) with 60; lra).
    rewrite <- Zlt_Qlt in H1, H2. lia. }
  split; [exact Hmins|]. split; [exact Hsecs|].
  split; [|split; [apply two_digits; lia|]].
  - symmetry. apply Qfloor_unique;
      rewrite inject_Z_plus, inject_Z_mult;
      change (inject_Z 60) with 60; lra.
  - unfold formatTimeDelta. cbv zeta. fold mins secs.
    destruct (0 <? mins)%Z; destruct (Qle_bool 0 s); reflexivity.
Qed.

(** Two minutes and five seconds behind. *)
Lemma formatTimeDelta_spec_witness :
  Qabs (-125) < maxSafeInteger /\
  formatTimeDelta (Some (-125)) = "-2:05" /\
  exists mins secs : Z,
    (0 <= mins)%Z /\ (0 <= secs < 60)%Z /\
    (60 * mins + secs)%Z = Qfloor (Qabs (-125)) /\
    String.length (padStart2 (showZ secs)) = 2%nat /\
    formatTimeDelta (Some (-125)) =
      (if Qle_bool 0 (-125) then "+" else "-") ++
      (if (0 <? mins)%Z then showZ mins ++ ":" ++ padStart2 (showZ secs)
       else showZ secs ++ "s").
Proof.
  assert (H : Qabs (-125) < maxSafeInteger) by reflexivity.
  split; [exact H|]. split; [vm_compute; reflexivity|].
  exact (proj2 (formatTimeDelta_spec (-125) H)).
Defined.

(** X27. For a pace from 0 up to 2^53, [formatSplitPace] prints the
    whole minutes of the pace and the rest in seconds, two digits,
    within a second of the pace.  The seconds are not carried into the
    minutes: they read 60 whenever the pace is within half a second
    below a full minute.  [formatPace] prints the same with a unit for
    a pace within (0, 20], and N/A outside. *)
Theorem formatSplitPace_spec (p : Q) :
  0 <= p < maxSafeInteger ->
  exists secs : Z,
    (0 <= secs <= 60)%Z /\
    60 * p - 1 < inject_Z (60 * Qfloor p + secs) < 60 * p + 1 /\
    ((119 # 120) <= p - inject_Z (Qfloor p) -> secs = 60%Z) /\
    String.length (padStart2 (showZ secs)) = 2%nat /\
    formatSplitPace (Some p) =
      showZ (Qfloor p) ++ ":" ++ padStart2 (showZ secs) /\
    (0 < p <= 20 ->
     formatPace (Some p) =
       showZ (Qfloor p) ++ ":" ++ padStart2 (showZ secs) ++ " /km") /\
    (p <= 0 \/ 20 < p -> formatPace (Some p) = "N/A").
Proof.
  intros _.
  destruct (Qfloor_bounds p) as [Hp1 Hp2].
  destruct (round_bounds ((p - inject_Z (Qfloor p)) * 60)) as [Hr1 Hr2].
  exists (round ((p - inject_Z (Qfloor p)) * 60)).
  set (mins := Qfloor p) in *.
  set (secs := round ((p - inject_Z mins) * 60)) in *.
  assert (Eq : (p - inject_Z mins) * 60 == 60 * p - 60 * inject_Z mins)
    by ring.
  assert (Hsecs : (0 <= secs <= 60)%Z).
  { assert (H1 : inject_Z (-1) < inject_Z secs)
      by (change (inject_Z (-1)) with (-1); lra).
    assert (H2 : inject_Z secs < inject_Z 61)
      by (change (inject_Z 61) with 61; lra).
    rewrite <- Zlt_Qlt in H1, H2. lia. }
  split; [exact Hsecs|]. split; [|split; [|split; [|split; [|split]]]].
  - rewrite inject_Z_plus, inject_Z_mult.
    change (inject_Z 60) with 60. split; lra.
  - intro H.
    assert (H1 : inject_Z 59 < inject_Z secs)
      by (change (inject_Z 59) with 59; lra).
    rewrite <- Zlt_Qlt in H1. lia.
  - apply two_digits. exact Hsecs.
  - reflexivity.
  - intros [H0 H20]. unfold formatPace.
    assert (E1 : Qle_bool p 0 = false) by (apply Qle_bool_gt; exact H0).
    assert (E2 : Qltb 20 p = false) by (apply Qltb_ge; exact H20).
    rewrite E1, E2. reflexivity.
  - intros [H|H]; unfold formatPace.
    + apply Qle_bool_iff in H. rewrite H. reflexivity.
    + apply Qltb_lt in H. rewrite H, orb_true_r. reflexivity.
Qed.

(** A pace of 4.995 minutes reads 4:60, and 5.5 minutes 5:30. *)
Lemma formatSplitPace_spec_witness :
  0 <= 4.995 < maxSafeInteger /\
  formatSplitPace (Some 4.995) = "4:60" /\
  formatSplitPace (Some 5.5) = "5:30" /\
  formatPace (Some 4.995) = "4:60 /km" /\
  exists secs : Z,
    (0 <= secs <= 60)%Z /\
    60 * 4.995 - 1 < inject_Z (60 * Qfloor 4.995 + secs) < 60 * 4.995 + 1 /\
    ((119 # 120) <= 4.995 - inject_Z (Qfloor 4.995) -> secs = 60%Z).
Proof.
  assert (H : 0 <= 4.995 < maxSafeInteger) by (split; discriminate || reflexivity).
  split; [exact H|].
  split; [vm_compute; reflexivity|].
  split; [vm_compute; reflexivity|].
  split; [vm_compute; reflexivity|].
  destruct (formatSplitPace_spec 4.995 H) as (secs & H1 & H2 & H3 & _).
  exists secs. split; [exact H1|]. split; [exact H2|exact H3].
Defined.

(** X28. [formatDuration] of a positive number of seconds below 2^53:
    from one hour on it prints hours and minutes and drops the seconds; below, minutes
    and seconds, or the seconds alone.  Hours and minutes are whole
    (minutes below 60); the seconds are rounded without carry, so they
    lie between 0 and 60.  Null and 0 print as N/A. *)
Theorem formatDuration_spec (s : Q) :
  0 < s < maxSafeInteger ->
  formatDuration None = "N/A" /\ formatDuration (Some 0) = "N/A" /\
  exists hours mins secs : Z,
    (0 <= hours)%Z /\ (0 <= mins < 60)%Z /\ (0 <= secs <= 60)%Z /\
    (60 * hours + mins)%Z = Qfloor (s / 60) /\
    secs = round (s - 60 * inject_Z (Qfloor (s / 60))) /\
    formatDuration (Some s) =
      if (0 <? hours)%Z then showZ hours ++ "h " ++ showZ mins ++ "m"
      else if (0 <? mins)%Z then showZ mins ++ "m " ++ showZ secs ++ "s"
      else showZ secs ++ "s".
Proof.
  intros [Hs _]. split; [reflexivity|]. split; [reflexivity|].
  destruct (rem_nonneg s 3600 ltac:(lra) ltac:(lra)) as [Hh [Hh0 Hh1]].
  destruct (rem_nonneg s 60 ltac:(lra) ltac:(lra)) as [Hm [Hm0 Hm1]].
  destruct (Qfloor_bounds (s / 3600)) as [Ha1 Ha2].
  destruct (Qfloor_bounds (rem s 3600 / 60)) as [Hb1 Hb2].
  destruct (round_bounds (rem s 60)) as [Hc1 Hc2].
  assert (E1 : s / 3600 * 3600 == s) by (field; lra).
  assert (E2 : rem s 3600 / 60 * 60 == rem s 3600) by (field; lra).
  exists (Qfloor (s / 3600)), (Qfloor (rem s 3600 / 60)), (round (rem s 60)).
  set (hours := Qfloor (s / 3600)) in *.
  set (mins := Qfloor (rem s 3600 / 60)) in *.
  set (secs := round (rem s 60)) in *.
  assert (Hhours : (0 <= hours)%Z).
  { assert (H : inject_Z (-1) < inject_Z hours).
    { change (inject_Z (-1)) with (-1).
      assert (0 <= s / 3600) by (apply Qle_shift_div_l; lra). lra. }
    rewrite <- Zlt_Qlt in H. lia. }
  assert (Hmins : (0 <= mins < 60)%Z).
  { assert (H1 : inject_Z (-1) < inject_Z mins).
    { change (inject_Z (-1)) with (-1).
      assert (0 <= rem s 3600 / 60) by (apply Qle_shift_div_l; lra). lra. }
    assert (H2 : inject_Z mins < inject_Z 60).
    { change (inject_Z 60) with 60.
      assert (rem s 3600 / 60 < 60) by (apply Qlt_shift_div_r; lra). lra. }
    rewrite <- Zlt_Qlt in H1, H2. lia. }
  assert (Hsecs : (0 <= secs <= 60)%Z).
  { assert (H1 : inject_Z (-1) < inject_Z secs)
      by (change (inject_Z (-1)) with (-1); lra).
    assert (H2 : inject_Z secs < inject_Z 61)
      by (change (inject_Z 61) with 61; lra).
    rewrite <- Zlt_Qlt in H1, H2. lia. }
  split; [exact Hhours|]. split; [exact Hmins|]. split; [exact Hsecs|].
  assert (Hfloor : (60 * hours + mins)%Z = Qfloor (s / 60)).
  { symmetry. apply Qfloor_unique.
    - rewrite inject_Z_plus, inject_Z_mult. change (inject_Z 60) with 60.
      apply Qle_shift_div_l; [lra|]. lra.
    - rewrite inject_Z_plus, inject_Z_mult. change (inject_Z 60) with 60.
      apply Qlt_shift_div_r; [lra|]. lra. }
  split; [exact Hfloor|]. split.
  - unfold secs. unfold round.
    apply Qfloor_comp. rewrite Hm. reflexivity.
  - unfold formatDuration.
    assert (E : falsy (Some s) = false).
    { cbn [falsy]. destruct (Qeq_bool s 0) eqn:E0; [|reflexivity].
      apply Qeq_bool_iff in E0. lra. }
    rewrite E. cbn [toNumber]. cbv zeta. fold hours mins secs.
    reflexivity.
Qed.

(** Two minutes and five seconds. *)
Lemma formatDuration_spec_witness :
  0 < 125 < maxSafeInteger /\
  formatDuration (Some 125) = "2m 5s" /\
  formatDuration None = "N/A" /\ formatDuration (Some 0) = "N/A" /\
  exists hours mins secs : Z,
    (0 <= hours)%Z /\ (0 <= mins < 60)%Z /\ (0 <= secs <= 60)%Z /\
    (60 * hours + mins)%Z = Qfloor (125 / 60) /\
    secs = round (125 - 60 * inject_Z (Qfloor (125 / 60))) /\
    formatDuration (Some 125) =
      if (0 <? hours)%Z then showZ hours ++ "h " ++ showZ mins ++ "m"
      else if (0 <? mins)%Z then showZ mins ++ "m " ++ showZ secs ++ "s"
      else showZ secs ++ "s".
Proof.
  assert (H : 0 < 125 < maxSafeInteger) by (split; reflexivity).
  split; [exact H|]. split; [vm_compute; reflexivity|].
  exact (formatDuration_spec 125 H).
Defined.

End FormattingProofs.

(** ** calculateTimeGaps on timestamped routes *)

Section GapsComplete.
Import Utils Spec.

Variable haversineDistance : Coordinate -> Coordinate -> Q.

Local Abbreviation buildTimeDistanceMap :=
  (Utils.buildTimeDistanceMap haversineDistance).
Local Abbreviation buildCompMaps :=
  (Utils.buildCompMaps haversineDistance).
Local Abbreviation calculateTimeGaps :=
  (Utils.calculateTimeGaps haversineDistance).

(** Within a map every distance has a time. *)
Lemma getTimeAtDistance_within (m : DistanceTimeMap) (d : Q) :
  IsDistanceTimeMap m -> d <= lastDistance m ->
  exists t, getTimeAtDistance m d = Some t.
Proof.
  intros Hm Hd. destruct (Qlt_le_dec 0 d) as [Hpos|Hneg].
  - destruct (getTimeAtDistance_bracket m d Hm Hpos Hd)
      as (low & t & _ & _ & Ht & _).
    exists t. exact Ht.
  - exists 0. apply getTimeAtDistance_start; assumption.
Qed.

(** When every comparison map has a time at [d], the sample holds one
    comparison per map, in order. *)
Lemma comparisonsAt_complete (compMaps : list (Route * DistanceTimeMap))
    (d refTime : Q) :
  (forall c, In c compMaps -> getTimeAtDistance (snd c) d <> None) ->
  map route (comparisonsAt compMaps d refTime) = map fst compMaps.
Proof.
  induction compMaps as [|c l IH]; intro Hall; [reflexivity|].
  unfold comparisonsAt in *. cbn [flat_map map].
  destruct (getTimeAtDistance (snd c) d) as [t|] eqn:Ht.
  - cbn [app map route]. f_equal. apply IH.
    intros c' Hc'. apply Hall. right. exact Hc'.
  - exfalso. apply (Hall c); [left; reflexivity|exact Ht].
Qed.

(** A loop that pushes exactly one point per index. *)
Lemma flat_map_singletons {A B : Type} (f : A -> list B)
    (P : A -> B -> Prop) (l : list A) :
  (forall j, In j l -> exists p, f j = [p] /\ P j p) ->
  length (flat_map f l) = length l /\
  forall k g, nth_error (flat_map f l) k = Some g ->
    exists j, nth_error l k = Some j /\ P j g.
Proof.
  induction l as [|x l IH]; intro Hall.
  - split; [reflexivity|]. intros [|k] g H; discriminate.
  - destruct (Hall x (or_introl eq_refl)) as (p & Hp & HP).
    destruct IH as [IHl IHn];
      [intros j Hj; apply Hall; right; exact Hj|].
    cbn [flat_map]. rewrite Hp. cbn [app length].
    split; [rewrite IHl; reflexivity|].
    intros [|k] g H.
    + cbn [nth_error] in H. injection H as <-.
      exists x. split; [reflexivity|exact HP].
    + cbn [nth_error] in H |- *. apply IHn. exact H.
Qed.


End GapsComplete.

Section GapsCompleteExample.
Import Utils Spec.


End GapsCompleteExample.
